(** * Stable_Anime: the correspondence-driven overlap pass and the
      similarity-weighted consensus kernel

    A shallow embedding of
    - [legacy_codes/stable_rendering_algo/overlap/overlap.py]
      ([Overlap], [ResizeOverlap], [VAEOverlap]) and
    - [source/common_utils/stable_render_utils/corr_utils.py]
      ([taichi_cells_overlap] and its helper functions),
    - [calculate_overlap_rate] of
      [legacy_codes/stable_rendering_algo/overlap/utils.py],
    with the properties the specification states about them and further
    properties of the same code.

    Conventions of the embedding.
    - Python integers are [Z]; tensor elements are exact rationals [Q],
      compared with [==].  Rounding, infinities and NaN of floating point are
      not modelled.
    - A tensor is its shape together with a total function from indices to
      elements; a slice [[:, :]] over batch and channel is a function of the
      two indices.  Reads and writes through integer index lists check the
      bounds the way torch does (negative indices count from the end).
    - [frame_seq_stack.detach()] shares its storage with [frame_seq_stack]:
      the pass threads ONE store that is both read and written.
    - Exceptions are values of [exn]; fallible code returns [result].
    - The schedulers, the consensus algorithm, [is_engine_looping] and
      [F.interpolate] live outside the two files: they are parameters.
      Log lines and the progress bar are modelled only where they can raise.

    The file has two parts: the embedding, then its properties. *)

From Stdlib Require Import String Ascii ZArith QArith List Bool Lia Lqa.
From Stdlib Require Import Setoid Morphisms.
From Stdlib Require Import Qabs.
From Stdlib Require Finite.
Import ListNotations.

(* ================================================================== *)
(** * Python preliminaries                                             *)
(* ================================================================== *)

Module Py.

(** The exception classes the modelled code can raise. *)
Inductive exn : Set :=
| AssertionError
| IndexError
| ValueError
| TypeError
| ZeroDivisionError
| RuntimeError.

Inductive result (A : Type) : Type :=
| Ok (a : A)
| Raise (e : exn).
Arguments Ok {A} a.
Arguments Raise {A} e.

Definition bind {A B : Type} (m : result A) (k : A -> result B) : result B :=
  match m with
  | Ok a => k a
  | Raise e => Raise e
  end.

Declare Scope py_scope.
Delimit Scope py_scope with py.
Notation "x <- m ;; k" := (bind m (fun x => k))
  (at level 61, m at next level, right associativity) : py_scope.
Notation "' p <- m ;; k" := (bind m (fun p => k))
  (at level 61, p pattern, m at next level, right associativity) : py_scope.

(** [[f(a) for a in l]] where [f] may raise: the first exception wins. *)
Fixpoint for_each {A B : Type} (f : A -> result B) (l : list A)
  : result (list B) :=
  match l with
  | [] => Ok []
  | a :: l' =>
      (b <- f a ;; bs <- for_each f l' ;; Ok (b :: bs))%py
  end.

(** A loop [for a in l: s = body(a, s)] over a state [s]. *)
Fixpoint for_loop {A S : Type} (body : A -> S -> result S) (l : list A)
  (s : S) : result S :=
  match l with
  | [] => Ok s
  | a :: l' => (s' <- body a s ;; for_loop body l' s')%py
  end.

(** [range(lo, hi)] *)
Definition range (lo hi : Z) : list Z :=
  map (fun i => lo + Z.of_nat i)%Z (seq 0 (Z.to_nat (hi - lo))).

(** [enumerate(l)] *)
Definition enumerate {A : Type} (l : list A) : list (nat * A) :=
  combine (seq 0 (length l)) l.

(** [l[idx] = v] for an index known to be in range. *)
Fixpoint list_set {A : Type} (l : list A) (idx : nat) (v : A) : list A :=
  match l, idx with
  | [], _ => []
  | _ :: l', O => v :: l'
  | a :: l', S i => a :: list_set l' i v
  end.

(** [int(x)] on a number: truncation toward zero. *)
Definition int (x : Q) : Z := Z.quot (Qnum x) (Zpos (Qden x)).

(** [sum(l)] *)
Definition Qsum (l : list Q) : Q := fold_right Qplus 0 l.

End Py.

Import Py.
Open Scope py_scope.
Open Scope Z_scope.

(* ================================================================== *)
(** * Extended traces ([Overlap._get_extended_traces])                 *)
(* ================================================================== *)

(** An entry of a Python list that holds either the integer it was created
    with or the list stored into it by the loop. *)
Inductive entry : Type :=
| Scalar (z : Z)
| Window (zs : list Z).

(** The body of the [for idx, (y_pos, x_pos) in enumerate(zip(...))] loop.
    The zip is over the two lists being rewritten, each read at an index not
    yet assigned, so it yields the original positions. *)
Fixpoint extend_loop (kernel_radius : Z) (frame_index_trace : list Z)
  (max_x max_y : Z) (idx : nat) (zipped : list (Z * Z))
  (ext : list entry * list entry * list entry)
  : result (list entry * list entry * list entry) :=
  match zipped with
  | [] => Ok ext
  | (y_pos, x_pos) :: rest =>
      let '(extended_frame_index_trace, extended_y_position_trace,
            extended_x_position_trace) := ext in
      let y_positions :=
        map (fun i => Z.min (Z.max (y_pos + i) 0) (max_y - 1))
            (range (- kernel_radius) (kernel_radius + 1)) in
      let x_positions :=
        map (fun i => Z.min (Z.max (x_pos + i) 0) (max_x - 1))
            (range (- kernel_radius) (kernel_radius + 1)) in
      let extended_y_position_trace :=
        list_set extended_y_position_trace idx (Window y_positions) in
      let extended_x_position_trace :=
        list_set extended_x_position_trace idx (Window x_positions) in
      match nth_error frame_index_trace idx with
      | None => Raise IndexError
      | Some f =>
          let extended_frame_index_trace :=
            list_set extended_frame_index_trace idx
              (Window (repeat f (length y_positions))) in
          extend_loop kernel_radius frame_index_trace max_x max_y (S idx) rest
            (extended_frame_index_trace, extended_y_position_trace,
             extended_x_position_trace)
      end
  end.

Definition _get_extended_traces (kernel_radius : Z)
  (frame_index_trace x_position_trace y_position_trace : list Z)
  (max_x max_y : Z) : result (list entry * list entry * list entry) :=
  extend_loop kernel_radius frame_index_trace max_x max_y 0%nat
    (combine y_position_trace x_position_trace)
    (map Scalar frame_index_trace, map Scalar y_position_trace,
     map Scalar x_position_trace).

(* ================================================================== *)
(** * Tensors                                                          *)
(* ================================================================== *)

(** One frame, shape [(batch, channels, height, width)]. *)
Record Frame : Type := {
  frame_shape : Z * Z * Z * Z;
  frame_at : Z -> Z -> Z -> Z -> Q
}.

(** The stacked sequence, shape [(T, batch, channels, height, width)]. *)
Record FrameStack : Type := {
  stack_shape : Z * Z * Z * Z * Z;
  stack_at : Z -> Z -> Z -> Z -> Z -> Q
}.

(** The [[batch, channels]] slice found at one [(frame, row, col)]. *)
Definition Block : Type := Z -> Z -> Q.

(** A point of the stack: [(frame index, row, col)]. *)
Definition point : Type := (Z * Z * Z)%type.

Definition shape_eqb (a b : Z * Z * Z * Z) : bool :=
  let '(a0, a1, a2, a3) := a in
  let '(b0, b1, b2, b3) := b in
  (a0 =? b0) && (a1 =? b1) && (a2 =? b2) && (a3 =? b3).

(** [torch.stack(frame_seq, dim=0)]: a new tensor holding the frames. *)
Definition torch_stack (frame_seq : list Frame) : result FrameStack :=
  match frame_seq with
  | [] => Raise RuntimeError
  | fr0 :: _ =>
      if forallb (fun fr => shape_eqb (frame_shape fr) (frame_shape fr0))
           frame_seq
      then
        let '(b, c, h, w) := frame_shape fr0 in
        Ok {| stack_shape := (Z.of_nat (length frame_seq), b, c, h, w);
              stack_at := fun f => frame_at (nth (Z.to_nat f) frame_seq fr0) |}
      else Raise RuntimeError
  end.

(** Iterating a stacked tensor yields its frames along dimension 0. *)
Definition unstack (s : FrameStack) : list Frame :=
  let '(t, b, c, h, w) := stack_shape s in
  map (fun f => {| frame_shape := (b, c, h, w); frame_at := stack_at s f |})
      (range 0 t).

(** An integer used as an index into a dimension of size [dim]. *)
Definition wrap_index (dim i : Z) : result Z :=
  if (0 <=? i) && (i <? dim) then Ok i
  else if (- dim <=? i) && (i <? 0) then Ok (i + dim)
  else Raise IndexError.

Definition resolve (s : FrameStack) (p : point) : result point :=
  let '(t, _, _, h, w) := stack_shape s in
  let '(f, y, x) := p in
  f' <- wrap_index t f ;;
  y' <- wrap_index h y ;;
  x' <- wrap_index w x ;;
  Ok (f', y', x').

Definition block_at (s : FrameStack) (p : point) : Block :=
  let '(f, y, x) := p in fun b c => stack_at s f b c y x.

Fixpoint zip3 (fs ys xs : list Z) : list point :=
  match fs, ys, xs with
  | f :: fs', y :: ys', x :: xs' => (f, y, x) :: zip3 fs' ys' xs'
  | _, _, _ => []
  end.

(** [stack[fs, :, :, ys, xs]] with three integer index lists: a new tensor
    of shape [[L, batch, channels]], one block per index triple. *)
Definition gather (s : FrameStack) (fs ys xs : list Z)
  : result (list point * list Block) :=
  pts <- for_each (resolve s) (zip3 fs ys xs) ;;
  Ok (pts, map (block_at s) pts).

(** A nested index list: every entry must be a list, all of one length. *)
Definition as_windows (l : list entry) : result (list (list Z)) :=
  ws <- for_each (fun e => match e with
                           | Window zs => Ok zs
                           | Scalar _ => Raise ValueError
                           end) l ;;
  match ws with
  | [] => Ok ws
  | w0 :: _ =>
      if forallb (fun w => (length w =? length w0)%nat) ws then Ok ws
      else Raise ValueError
  end.

(** The mean of a list of blocks.  For an empty list (a window of a
    negative radius) torch yields NaN; here the quotient by zero is 0,
    so the properties that speak of window averages take a radius that
    is not negative. *)
Definition block_mean (blocks : list Block) : Block :=
  fun b c => (Qsum (map (fun blk : Block => blk b c) blocks)
              / inject_Z (Z.of_nat (length blocks)))%Q.

(** [stack[ext_f, :, :, ext_y, ext_x].mean(dim=1)]: the blocks of every
    window are gathered (shape [[L, 2R+1, batch, channels]]) and averaged
    over the window axis. *)
Definition gather_mean (s : FrameStack)
  (ext : list entry * list entry * list entry) : result (list Block) :=
  let '(ext_f, ext_y, ext_x) := ext in
  wf <- as_windows ext_f ;;
  wy <- as_windows ext_y ;;
  wx <- as_windows ext_x ;;
  for_each (fun w : list Z * list Z * list Z =>
              let '(fs, ys, xs) := w in
              '(_, blocks) <- gather s fs ys xs ;;
              Ok (block_mean blocks))
           (combine (combine wf wy) wx).

(** [stack[f, :, :, y, x] = blk] *)
Definition put_block (s : FrameStack) (p : point) (blk : Block) : FrameStack :=
  let '(f, y, x) := p in
  {| stack_shape := stack_shape s;
     stack_at := fun f' b c y' x' =>
       if (f' =? f) && (y' =? y) && (x' =? x) then blk b c
       else stack_at s f' b c y' x' |}.

(** [stack[fs, :, :, ys, xs] = blocks]: the assignments are made in trace
    order, so the last one wins where a point is listed twice (torch leaves
    the winner open there). *)
Definition scatter (s : FrameStack) (pts : list point) (blocks : list Block)
  : FrameStack :=
  fold_left (fun s' pb => put_block s' (fst pb) (snd pb)) (combine pts blocks) s.

(** Broadcasting of the first axis in [alpha * overlapped + ...]: a result
    of length [L] is used as it is, one of length 1 is repeated. *)
Definition broadcast (L : nat) (blocks : list Block) : result (list Block) :=
  if (length blocks =? L)%nat then Ok blocks
  else match blocks with
       | [blk] => Ok (repeat blk L)
       | _ => Raise RuntimeError
       end.

(** [alpha * overlapped_seq + (1 - alpha) * latent_seq] *)
Definition blend (alpha : Q) (overlapped_seq latent_seq : list Block)
  : list Block :=
  map (fun ol : Block * Block =>
         fun b c => (alpha * fst ol b c + (1 - alpha) * snd ol b c)%Q)
      (combine overlapped_seq latent_seq).

(* ================================================================== *)
(** * The correspondence map                                           *)
(* ================================================================== *)

(** One occurrence of a surface element: [((row, col), frame_index)]. *)
Definition occurrence : Type := ((Z * Z) * Z)%type.

(** [CorrespondenceMap]: the dictionary [Map] from vertex id to occurrence
    list, kept in insertion order (the order [Map.values()] iterates in),
    and the declared resolution. *)
Record CorrespondenceMap : Type := {
  Map : list (Z * list occurrence);
  height : Z;
  width : Z
}.

Definition size (corr_map : CorrespondenceMap) : Z * Z :=
  (width corr_map, height corr_map).

Definition Map_values (corr_map : CorrespondenceMap) : list (list occurrence) :=
  map snd (Map corr_map).

Definition frame_index_trace_of (v_info : list occurrence) : list Z :=
  map snd v_info.
Definition y_position_trace_of (v_info : list occurrence) : list Z :=
  map (fun o : occurrence => fst (fst o)) v_info.
Definition x_position_trace_of (v_info : list occurrence) : list Z :=
  map (fun o : occurrence => snd (fst o)) v_info.

(** The points an occurrence list names, as [(frame, row, col)]. *)
Definition trace_points (v_info : list occurrence) : list point :=
  zip3 (frame_index_trace_of v_info) (y_position_trace_of v_info)
       (x_position_trace_of v_info).

(* ================================================================== *)
(** * [Overlap.__call__]                                               *)
(* ================================================================== *)

(** The state of the loop over [corr_map.Map.values()]: the store shared by
    [frame_seq_stack] and [frame_seq_stack_copy], and the two counters that
    are only logged. *)
Record loop_state : Type := {
  frame_seq_stack : FrameStack;
  len_1_vertex_count : Z;
  avg_trace_length : Z
}.

Definition initial_state (s : FrameStack) : loop_state :=
  {| frame_seq_stack := s; len_1_vertex_count := 0; avg_trace_length := 0 |}.

Section Overlap.

(** The pluggable consensus algorithm, [self.algorithm.overlap]: it gets
    the neighbourhood averages and the three traces. *)
Variable algorithm :
  list Block -> list Z -> list Z -> list Z -> result (list Block).

(** What one id reads: the exact blocks [latent_seq] with the points they
    were read at, and the window averages. *)
Definition read_traces (kernel_radius : Z) (v_info : list occurrence)
  (s : FrameStack) : result (list point * list Block * list Block) :=
  let frame_index_trace := frame_index_trace_of v_info in
  let y_position_trace := y_position_trace_of v_info in
  let x_position_trace := x_position_trace_of v_info in
  let '(_, _, _, frame_h, frame_w) := stack_shape s in
  ext <- _get_extended_traces kernel_radius frame_index_trace
           x_position_trace y_position_trace frame_w frame_h ;;
  '(pts, latent_seq) <-
    gather s frame_index_trace y_position_trace x_position_trace ;;
  average_pool_nearby_pixels_latent_seq <- gather_mean s ext ;;
  Ok (pts, latent_seq, average_pool_nearby_pixels_latent_seq).

(** The consensus blocks computed for one id in store [s]. *)
Definition consensus (kernel_radius : Z) (v_info : list occurrence)
  (s : FrameStack) : result (list Block) :=
  '(pts, latent_seq, avg) <- read_traces kernel_radius v_info s ;;
  overlapped_seq <- algorithm avg (frame_index_trace_of v_info)
                      (x_position_trace_of v_info)
                      (y_position_trace_of v_info) ;;
  broadcast (length latent_seq) overlapped_seq.

(** One iteration of the loop, after the progress-bar line. *)
Definition overlap_step (alpha : Q) (kernel_radius : Z)
  (v_info : list occurrence) (st : loop_state) : result loop_state :=
  if (length v_info =? 1)%nat then
    Ok {| frame_seq_stack := frame_seq_stack st;
          len_1_vertex_count := len_1_vertex_count st + 1;
          avg_trace_length := avg_trace_length st + 1 |}
  else
    match v_info with
    | [] => Raise ValueError
    | _ :: _ =>
        let s := frame_seq_stack st in
        '(pts, latent_seq, avg) <- read_traces kernel_radius v_info s ;;
        overlapped_seq <- algorithm avg (frame_index_trace_of v_info)
                            (x_position_trace_of v_info)
                            (y_position_trace_of v_info) ;;
        overlapped_seq <- broadcast (length latent_seq) overlapped_seq ;;
        Ok {| frame_seq_stack :=
                scatter s pts (blend alpha overlapped_seq latent_seq);
              len_1_vertex_count := len_1_vertex_count st;
              avg_trace_length :=
                avg_trace_length st + Z.of_nat (length v_info) |}
    end.

(** The loop over the ids without its progress-bar line (lines 120-121,
    which can only raise and are part of [Overlap_call] below), for a
    given blend strength and radius. *)
Definition overlap_loop (alpha : Q) (kernel_radius : Z)
  (values : list (list occurrence)) (st : loop_state) : result loop_state :=
  for_loop (overlap_step alpha kernel_radius) values st.

Definition overlap_pass (alpha : Q) (kernel_radius : Z)
  (values : list (list occurrence)) (s : FrameStack) : result FrameStack :=
  st <- overlap_loop alpha kernel_radius values (initial_state s) ;;
  Ok (frame_seq_stack st).

(** The external collaborators of [Overlap.__call__]. *)
Variable is_engine_looping : bool.
Variable alpha_scheduler : option Z -> option Q -> Q.
Variable kernel_radius_scheduler : option Z -> option Q -> Q.

(** [pbar.update(1) if v_i % progress_slice == 0 else ...], executed only
    when the engine is not looping. *)
Definition progress_update (progress_slice : Z) (v_i : nat) : result unit :=
  if is_engine_looping then Ok tt
  else if progress_slice =? 0 then Raise ZeroDivisionError
  else Ok tt.

(** [kernel_radius = int(self.kernel_radius_scheduler(step, timestep))] *)
Definition kernel_radius_of (step : option Z) (timestep : option Q) : Z :=
  int (kernel_radius_scheduler step timestep).

Definition Overlap_call (frame_seq : list Frame)
  (corr_map : CorrespondenceMap) (step : option Z) (timestep : option Q)
  : result FrameStack :=
  match frame_seq with
  | [] => Raise IndexError
  | fr0 :: _ =>
      let '(batch_size, channels, frame_h, frame_w) := frame_shape fr0 in
      if negb ((frame_h =? height corr_map) && (frame_w =? width corr_map))
      then Raise AssertionError
      else
        stack <- torch_stack frame_seq ;;
        let alpha := alpha_scheduler step timestep in
        let kernel_radius := kernel_radius_of step timestep in
        (* the log line formats [timestep] with [:.2f] *)
        _ <- (if is_engine_looping then Ok tt
              else match timestep with
                   | None => Raise TypeError
                   | Some _ => Ok tt
                   end) ;;
        let progress_slice :=
          Z.of_nat (length (Map corr_map)) / 100 in
        st <- for_loop
                (fun (iv : nat * list occurrence) st =>
                   _ <- progress_update progress_slice (fst iv) ;;
                   overlap_step alpha kernel_radius (snd iv) st)
                (enumerate (Map_values corr_map))
                (initial_state stack) ;;
        Ok (frame_seq_stack st)
  end.

End Overlap.

(** Modelled from the spec: the consensus algorithm of the scenarios
    ("consensus = mean"); the [algorithms] module of the repository is not
    among the sources.  Every occurrence gets the mean of the neighbourhood
    averages of all occurrences. *)
Definition mean_algorithm (values : list Block) (_ _ _ : list Z)
  : result (list Block) :=
  Ok (map (fun _ => block_mean values) values).

(** The same pass over a store that is NOT shared: every id reads the
    original stack and writes into a separate copy.  This is the pass the
    specification describes ("output starts as a copy of the input"); it is
    used only to compare the code with. *)
Definition spec_overlap_pass
  (algorithm : list Block -> list Z -> list Z -> list Z -> result (list Block))
  (alpha : Q) (kernel_radius : Z) (values : list (list occurrence))
  (s : FrameStack) : result FrameStack :=
  for_loop
    (fun v_info out =>
       if (length v_info =? 1)%nat then Ok out
       else
         match v_info with
         | [] => Raise ValueError
         | _ :: _ =>
             '(pts, latent_seq, avg) <- read_traces kernel_radius v_info s ;;
             overlapped_seq <- algorithm avg (frame_index_trace_of v_info)
                                 (x_position_trace_of v_info)
                                 (y_position_trace_of v_info) ;;
             overlapped_seq <- broadcast (length latent_seq) overlapped_seq ;;
             Ok (scatter out pts (blend alpha overlapped_seq latent_seq))
         end)
    values s.

(* ================================================================== *)
(** * [ResizeOverlap.__call__]                                         *)
(* ================================================================== *)

(** [False if self.interpolate_mode in ['linear', 'bilinear', 'bicubic',
    'trilinear'] else None] *)
Definition align_corners_of (interpolate_mode : string) : option bool :=
  if existsb (String.eqb interpolate_mode)
       ["linear"; "bilinear"; "bicubic"; "trilinear"]%string
  then Some false
  else None.

(** [torch.where(ovlp != 0, ovlp, frame)], element by element. *)
Definition where_nonzero (ovlp frame : Frame) : Frame :=
  {| frame_shape := frame_shape ovlp;
     frame_at := fun b c y x =>
       if negb (Qeq_bool (frame_at ovlp b c y x) 0) then frame_at ovlp b c y x
       else frame_at frame b c y x |}.

(** [l[i]] for a list index produced by [range(num_frames)]. *)
Definition list_get {A : Type} (l : list A) (i : Z) : result A :=
  match nth_error l (Z.to_nat i) with
  | Some a => Ok a
  | None => Raise IndexError
  end.

(** [[torch.where(ovlp_seq[i] != 0, ovlp_seq[i], frame_seq[i])
     for i in range(num_frames)]] *)
Definition merge_with_original (num_frames : Z) (ovlp_seq frame_seq : list Frame)
  : result (list Frame) :=
  for_each (fun i => ovlp <- list_get ovlp_seq i ;;
                     frame <- list_get frame_seq i ;;
                     Ok (where_nonzero ovlp frame))
           (range 0 num_frames).

Section ResizeOverlap.

Variable algorithm :
  list Block -> list Z -> list Z -> list Z -> result (list Block).
Variable is_engine_looping : bool.
Variable alpha_scheduler : option Z -> option Q -> Q.
Variable kernel_radius_scheduler : option Z -> option Q -> Q.

(** [F.interpolate(latents, size=..., mode=..., align_corners=...)] of
    torch, a collaborator outside the repository. *)
Variable F_interpolate :
  Frame -> Z * Z -> string -> option bool -> result Frame.

(** [self.interpolate_mode] *)
Variable interpolate_mode : string.

Definition resize_all (frames : list Frame) (size : Z * Z) : result (list Frame) :=
  for_each (fun latents =>
              F_interpolate latents size interpolate_mode
                (align_corners_of interpolate_mode))
           frames.

Definition ResizeOverlap_call (frame_seq : list Frame)
  (corr_map : CorrespondenceMap) (step : option Z) (timestep : option Q)
  : result (list Frame) :=
  match frame_seq with
  | [] => Raise IndexError          (* [frame_seq[0].shape] is printed *)
  | fr0 :: _ =>
      let alpha := alpha_scheduler step timestep in
      if Qeq_bool alpha 0 then Ok frame_seq
      else
        let num_frames := Z.of_nat (length frame_seq) in
        let '(screen_w, screen_h) := size corr_map in
        let '(_, _, frame_h, frame_w) := frame_shape fr0 in
        ovlp_seq <- resize_all frame_seq (screen_h, screen_w) ;;
        ovlp <- Overlap_call algorithm is_engine_looping alpha_scheduler
                  kernel_radius_scheduler ovlp_seq corr_map step timestep ;;
        ovlp_seq <- resize_all (unstack ovlp) (frame_h, frame_w) ;;
        (* the debug line divides [screen_h] by [frame_h] *)
        if frame_h =? 0 then Raise ZeroDivisionError
        else merge_with_original num_frames ovlp_seq frame_seq
  end.

End ResizeOverlap.

(* ================================================================== *)
(** * Construction of [VAEOverlap]                                     *)
(* ================================================================== *)

Module Call.

(** The parameters of a [def] after [self]: name and whether the
    parameter has a default.  Neither [__init__] below has a starred
    parameter. *)
Definition signature : Type := list (string * bool).

Section Binding.

(** Python objects passed as arguments. *)
Variable object : Type.

Definition arguments : Type := list (string * object).

Definition lookup (name : string) (bound : arguments) : option object :=
  match find (fun kv => String.eqb (fst kv) name) bound with
  | Some kv => Some (snd kv)
  | None => None
  end.

(** Positional arguments fill the parameters from the left; one too
    many is a [TypeError]. *)
Fixpoint bind_positional (sig : signature) (args : list object)
  : result arguments :=
  match args, sig with
  | [], _ => Ok []
  | _ :: _, [] => Raise TypeError
  | a :: args', (name, _) :: sig' =>
      bound <- bind_positional sig' args' ;; Ok ((name, a) :: bound)
  end.

(** A keyword argument must name a parameter that has no value yet. *)
Fixpoint bind_keywords (sig : signature) (kwargs : arguments)
  (bound : arguments) : result arguments :=
  match kwargs with
  | [] => Ok bound
  | (name, v) :: kwargs' =>
      if negb (existsb (fun p => String.eqb (fst p) name) sig)
      then Raise TypeError          (* unexpected keyword argument *)
      else match lookup name bound with
           | Some _ => Raise TypeError   (* multiple values *)
           | None => bind_keywords sig kwargs' ((name, v) :: bound)
           end
  end.

(** Every parameter without a default must have received a value. *)
Definition check_required (sig : signature) (bound : arguments)
  : result arguments :=
  if forallb (fun p : string * bool =>
                snd p || match lookup (fst p) bound with
                         | Some _ => true
                         | None => false
                         end) sig
  then Ok bound
  else Raise TypeError.

Definition bind_arguments (sig : signature) (args : list object)
  (kwargs : arguments) : result arguments :=
  bound <- bind_positional sig args ;;
  bound <- bind_keywords sig kwargs bound ;;
  check_required sig bound.

(** [Overlap.__init__(self, alpha_scheduler, kernel_radius_scheduler,
    algorithm, verbose=True)] *)
Definition Overlap_init_signature : signature :=
  [("alpha_scheduler", false); ("kernel_radius_scheduler", false);
   ("algorithm", false); ("verbose", true)]%string.

(** [VAEOverlap.__init__(self, vae, generator, algorithm,
    alpha_scheduler, corr_map_decay_scheduler, kernel_radius_scheduler,
    verbose=True)] *)
Definition VAEOverlap_init_signature : signature :=
  [("vae", false); ("generator", false); ("algorithm", false);
   ("alpha_scheduler", false); ("corr_map_decay_scheduler", false);
   ("kernel_radius_scheduler", false); ("verbose", true)]%string.

(** The attributes an initializer leaves on [self]. *)
Definition attributes : Type := list (string * option object).

Definition Overlap_init (args : list object) (kwargs : arguments)
  : result attributes :=
  bound <- bind_arguments Overlap_init_signature args kwargs ;;
  Ok [("_verbose", lookup "verbose" bound);
      ("algorithm", lookup "algorithm" bound);
      ("alpha_scheduler", lookup "alpha_scheduler" bound);
      ("kernel_radius_scheduler", lookup "kernel_radius_scheduler" bound)
     ]%string.

(** A parameter's value inside the body: the argument, or the default. *)
Definition value_of (default_verbose : object) (name : string)
  (bound : arguments) : object :=
  match lookup name bound with
  | Some v => v
  | None => default_verbose
  end.

(** A call of [VAEOverlap] with positional and keyword arguments;
    [default_verbose] is the default [True] of [verbose], the only
    parameter that has one. *)
Definition VAEOverlap_init (default_verbose : object) (args : list object)
  (kwargs : arguments) : result attributes :=
  bound <- bind_arguments VAEOverlap_init_signature args kwargs ;;
  self <- Overlap_init []
            [("alpha_scheduler", value_of default_verbose "alpha_scheduler" bound);
             ("corr_map_decay_scheduler",
               value_of default_verbose "corr_map_decay_scheduler" bound);
             ("kernel_radius_scheduler",
               value_of default_verbose "kernel_radius_scheduler" bound);
             ("algorithm", value_of default_verbose "algorithm" bound);
             ("verbose", value_of default_verbose "verbose" bound)]%string ;;
  Ok (self ++ [("_vae", lookup "vae" bound);
               ("_generator", lookup "generator" bound)]%string).

End Binding.

Arguments lookup {object} name bound.
Arguments bind_positional {object} sig args.
Arguments bind_keywords {object} sig kwargs bound.
Arguments check_required {object} sig bound.
Arguments bind_arguments {object} sig args kwargs.
Arguments Overlap_init {object} args kwargs.
Arguments value_of {object} default_verbose name bound.
Arguments VAEOverlap_init {object} default_verbose args kwargs.

End Call.

(* ================================================================== *)
(** * The consensus kernel ([corr_utils.py])                           *)
(* ================================================================== *)

Open Scope Q_scope.

(** A three-dimensional [ndarray]: shape and elements.  The kernel reads
    and writes without bounds checks. *)
Record ndarray3 : Type := {
  shape3 : Z * Z * Z;
  at3 : Z -> Z -> Z -> Q
}.

(** A two-dimensional [ndarray]. *)
Record ndarray2 : Type := {
  shape2 : Z * Z;
  at2 : Z -> Z -> Q
}.

(** [a[i0, i1, i2] = v] *)
Definition set3 (a : ndarray3) (i0 i1 i2 : Z) (v : Q) : ndarray3 :=
  {| shape3 := shape3 a;
     at3 := fun j0 j1 j2 =>
       if ((j0 =? i0) && (j1 =? i1) && (j2 =? i2))%Z then v
       else at3 a j0 j1 j2 |}.

(** [ti.ndrange(n0, n1)] *)
Definition ndrange (n0 n1 : Z) : list (Z * Z) :=
  flat_map (fun b => map (fun i => (b, i)) (range 0 n1)) (range 0 n0).

Definition shape3_0 (a : ndarray3) : Z := fst (fst (shape3 a)).
Definition shape3_1 (a : ndarray3) : Z := snd (fst (shape3 a)).
Definition shape3_last (a : ndarray3) : Z := snd (shape3 a).

Definition _check_values_equal (values : ndarray3) (value_len : Z)
  (index_a_ivec2 index_b_ivec2 : Z * Z) : Z :=
  fold_left
    (fun equal i =>
       if negb (Qeq_bool
                  (at3 values (fst index_a_ivec2) (snd index_a_ivec2) i)
                  (at3 values (fst index_b_ivec2) (snd index_b_ivec2) i))
       then 0%Z else equal)
    (range 0 value_len) 1%Z.

Definition _get_similarity (id_flatten_maps : ndarray3)
  (target_start_ivec2 compare_target_start_ivec2 : Z * Z)
  (cell_contains_pixel : Z) (contributions : ndarray2) : Q :=
  let target_start_pixel_space :=
    (snd target_start_ivec2 * cell_contains_pixel)%Z in
  let compare_start_pixel_space :=
    (snd compare_target_start_ivec2 * cell_contains_pixel)%Z in
  fold_left
    (fun result x =>
       fold_left
         (fun result i =>
            let equal :=
              _check_values_equal id_flatten_maps
                (shape3_last id_flatten_maps)
                (fst target_start_ivec2, x)
                (fst compare_target_start_ivec2, i) in
            result
            + at2 contributions (fst compare_target_start_ivec2) i
              * at2 contributions (fst target_start_ivec2) x
              * inject_Z equal)
         (range compare_start_pixel_space
            (compare_start_pixel_space + cell_contains_pixel))
         result)
    (range target_start_pixel_space
       (target_start_pixel_space + cell_contains_pixel))
    0.

(** [new_values[to, i] += values[from, i] * multiplier] for every [i]. *)
Definition _sum_up_values (values new_values : ndarray3) (value_len : Z)
  (from_index_ivec2 to_new_value_index_ivec2 : Z * Z) (multiplier : Q)
  : ndarray3 :=
  fold_left
    (fun new_values i =>
       set3 new_values (fst to_new_value_index_ivec2)
         (snd to_new_value_index_ivec2) i
         (at3 new_values (fst to_new_value_index_ivec2)
            (snd to_new_value_index_ivec2) i
          + at3 values (fst from_index_ivec2) (snd from_index_ivec2) i
            * multiplier))
    (range 0 value_len) new_values.

(** [values[index, i] *= multiplier] for every [i]. *)
Definition _mult_values (values : ndarray3) (index_ivec2 : Z * Z)
  (value_len : Z) (multiplier : Q) : ndarray3 :=
  fold_left
    (fun values i =>
       set3 values (fst index_ivec2) (snd index_ivec2) i
         (at3 values (fst index_ivec2) (snd index_ivec2) i * multiplier))
    (range 0 value_len) values.

(** The loop of [_cell_values_overlap] over all cells but the target: it
    carries the local [total_sim] and the array [new_values]. *)
Definition accumulate_cells (id_flatten_maps origin_values : ndarray3)
  (index_ivec2 : Z * Z) (cell_contains_pixel : Z) (contributions : ndarray2)
  (cells : list (Z * Z)) (acc : Q * ndarray3) : Q * ndarray3 :=
  fold_left
    (fun (acc : Q * ndarray3) (bi : Z * Z) =>
       let '(total_sim, new_values) := acc in
       let '(b, i) := bi in
       if ((b =? fst index_ivec2) && (i =? snd index_ivec2))%Z
       then acc                                  (* skip the target cell *)
       else
         let sim :=
           _get_similarity id_flatten_maps
             (fst index_ivec2, snd index_ivec2) (b, i)
             cell_contains_pixel contributions in
         (total_sim + sim,
          _sum_up_values origin_values new_values
            (shape3_last origin_values) (b, i) index_ivec2 sim))
    cells acc.

(** The value of the local [total_sim] when the loop has ended: the
    divisor of the normalization. *)
Definition total_sim_of (id_flatten_maps origin_values new_values : ndarray3)
  (index_ivec2 : Z * Z) (cell_contains_pixel : Z) (contributions : ndarray2)
  : Q :=
  fst (accumulate_cells id_flatten_maps origin_values index_ivec2
         cell_contains_pixel contributions
         (ndrange (shape3_0 origin_values) (shape3_1 origin_values))
         (1,
          _sum_up_values origin_values new_values
            (shape3_last origin_values) index_ivec2 index_ivec2 1)).

Definition _cell_values_overlap (id_flatten_maps origin_values new_values : ndarray3)
  (index_ivec2 : Z * Z) (cell_contains_pixel : Z) (contributions : ndarray2)
  : ndarray3 :=
  let total_sim := 1 in
  let new_values :=
    _sum_up_values origin_values new_values (shape3_last origin_values)
      index_ivec2 index_ivec2 1 in
  let '(total_sim, new_values) :=
    accumulate_cells id_flatten_maps origin_values index_ivec2
      cell_contains_pixel contributions
      (ndrange (shape3_0 origin_values) (shape3_1 origin_values))
      (total_sim, new_values) in
  _mult_values new_values index_ivec2 (shape3_last origin_values)
    (1 / total_sim).

(** The kernel.  Its outer loop is parallel in taichi; every iteration
    reads the inputs and writes only the slots of its own cell, so the
    iterations are run here one after the other. *)
Definition taichi_cells_overlap (id_flatten_maps origin_values new_values : ndarray3)
  (contributions : ndarray2) : ndarray3 :=
  let cell_contains_pixel :=
    (shape3_1 id_flatten_maps / shape3_1 origin_values)%Z in
  fold_left
    (fun new_values (bi : Z * Z) =>
       _cell_values_overlap id_flatten_maps origin_values new_values
         bi cell_contains_pixel contributions)
    (ndrange (shape3_0 origin_values) (shape3_1 origin_values))
    new_values.

Close Scope Q_scope.

(* ================================================================== *)
(** * Vocabulary of the properties and example inputs                  *)
(* ================================================================== *)

(** [clamp(v, lo, hi)], as the specification uses it. *)
Definition clamp (v lo hi : Z) : Z := Z.min (Z.max v lo) hi.

(** The [2R+1] positions that [_get_extended_traces] stores for one
    coordinate [pos] of a dimension of size [dim]. *)
Definition window_positions (kernel_radius dim pos : Z) : list Z :=
  map (fun i => Z.min (Z.max (pos + i) 0) (dim - 1))
      (range (- kernel_radius) (kernel_radius + 1)).

(** A point of the stack that integer indexing reads as it is. *)
Definition in_bounds (s : FrameStack) (p : point) : Prop :=
  let '(t, _, _, h, w) := stack_shape s in
  let '(f, y, x) := p in
  0 <= f < t /\ 0 <= y < h /\ 0 <= x < w.

(** The ids that the pass rewrites: all but the singletons. *)
Definition rewritten (values : list (list occurrence))
  : list (list occurrence) :=
  filter (fun v_info => negb (length v_info =? 1)%nat) values.

(** All points the pass writes to, in map order. *)
Definition written_points (values : list (list occurrence)) : list point :=
  concat (map trace_points (rewritten values)).

(** A frame of one batch entry and one channel, given by its pixels. *)
Definition gray_frame (h w : Z) (pixel : Z -> Z -> Q) : Frame :=
  {| frame_shape := (1, 1, h, w); frame_at := fun _ _ y x => pixel y x |}.

(** The scenario of the specification: three frames of one pixel holding
    10, 20 and 30, and one id seen at [(0, 0)] of every frame. *)
Definition scenario_stack : FrameStack :=
  {| stack_shape := (3, 1, 1, 1, 1);
     stack_at := fun f _ _ _ _ =>
       if f =? 0 then 10%Q else if f =? 1 then 20%Q else 30%Q |}.

Definition scenario_values : list (list occurrence) :=
  [[((0, 0), 0); ((0, 0), 1); ((0, 0), 2)]].

(** Two frames of one row and two columns holding 0 and 12, an id [A] at
    column 0 and an id [B] at column 1 of both frames. *)
Definition two_column_stack : FrameStack :=
  {| stack_shape := (2, 1, 1, 1, 2);
     stack_at := fun _ _ _ _ x => if x =? 0 then 0%Q else 12%Q |}.

Definition id_A : list occurrence := [((0, 0), 0); ((0, 0), 1)].
Definition id_B : list occurrence := [((0, 1), 0); ((0, 1), 1)].

(** Kernel inputs: [npix] pixels per frame that all carry the identity
    tuple (1, 2, 3, 4) and the contribution 1, two cells holding 10 and
    30, and a zeroed placeholder. *)
Definition same_identity (npix : Z) : ndarray3 :=
  {| shape3 := (1, npix, 4); at3 := fun _ _ k => inject_Z (k + 1) |}.
Definition unit_contributions (npix : Z) : ndarray2 :=
  {| shape2 := (1, npix); at2 := fun _ _ => 1%Q |}.
Definition two_cells : ndarray3 :=
  {| shape3 := (1, 2, 1);
     at3 := fun _ i _ => if i =? 0 then 10%Q else 30%Q |}.
Definition zero_placeholder : ndarray3 :=
  {| shape3 := (1, 2, 1); at3 := fun _ _ _ => 0%Q |}.

(** The similarity of one cell to another, as [_cell_values_overlap]
    computes it for the target [index_ivec2]. *)
Definition similarity_to (id_flatten_maps : ndarray3) (index_ivec2 : Z * Z)
  (cell_contains_pixel : Z) (contributions : ndarray2) (bi : Z * Z) : Q :=
  _get_similarity id_flatten_maps (fst index_ivec2, snd index_ivec2)
    (fst bi, snd bi) cell_contains_pixel contributions.

(** The cells the loop of [_cell_values_overlap] does not skip. *)
Definition other_cells (index_ivec2 : Z * Z) (cells : list (Z * Z))
  : list (Z * Z) :=
  filter (fun bi : Z * Z =>
            negb ((fst bi =? fst index_ivec2) && (snd bi =? snd index_ivec2)))
         cells.

(** An example resize to run the adapter with: nearest-neighbour
    sampling to the requested size, whatever the mode. *)
Definition nearest_interpolate (latents : Frame) (size : Z * Z)
  (mode : string) (align_corners : option bool) : result Frame :=
  let '(b, c, h, w) := frame_shape latents in
  Ok {| frame_shape := (b, c, fst size, snd size);
        frame_at := fun bi ci y x =>
          frame_at latents bi ci (y * h / fst size) (x * w / snd size) |}.

(** The scenario as frames, and its correspondence map. *)
Definition scenario_frames : list Frame :=
  [gray_frame 1 1 (fun _ _ => 10%Q); gray_frame 1 1 (fun _ _ => 20%Q);
   gray_frame 1 1 (fun _ _ => 30%Q)].

Definition scenario_map : CorrespondenceMap :=
  {| Map := [(7, [((0, 0), 0); ((0, 0), 1); ((0, 0), 2)])];
     height := 1; width := 1 |}.

(** The weight the loop has accumulated for a target cell: the self term
    and the similarities of the other cells. *)
Definition total_weight (id_flatten_maps : ndarray3) (index_ivec2 : Z * Z)
  (cell_contains_pixel : Z) (contributions : ndarray2)
  (cells : list (Z * Z)) : Q :=
  (1 + Qsum (map (similarity_to id_flatten_maps index_ivec2
                    cell_contains_pixel contributions)
                 (other_cells index_ivec2 cells)))%Q.

(** The similarity-weighted sum of channel [k] over the other cells. *)
Definition weighted_sum (id_flatten_maps origin_values : ndarray3)
  (index_ivec2 : Z * Z) (cell_contains_pixel : Z) (contributions : ndarray2)
  (cells : list (Z * Z)) (k : Z) : Q :=
  Qsum (map (fun bi : Z * Z =>
               (at3 origin_values (fst bi) (snd bi) k
                * similarity_to id_flatten_maps index_ivec2
                    cell_contains_pixel contributions bi)%Q)
            (other_cells index_ivec2 cells)).

(** The unweighted arithmetic mean of channel [k] over a list of cells. *)
Definition cells_mean (origin_values : ndarray3) (cells : list (Z * Z))
  (k : Z) : Q :=
  (Qsum (map (fun bi : Z * Z => at3 origin_values (fst bi) (snd bi) k) cells)
   / inject_Z (Z.of_nat (length cells)))%Q.

(* ================================================================== *)
(** * Vocabulary of the further properties                             *)
(* ================================================================== *)

(** Two stacks that hold equal numbers everywhere. *)
Definition same_values (s s' : FrameStack) : Prop :=
  forall f b c y x, (stack_at s f b c y x == stack_at s' f b c y x)%Q.

(** Two frames that hold equal numbers everywhere. *)
Definition same_pixels (a b : Frame) : Prop :=
  forall bi ci y x, (frame_at a bi ci y x == frame_at b bi ci y x)%Q.

(** The ids of a map with exactly one occurrence. *)
Definition singletons (values : list (list occurrence))
  : list (list occurrence) :=
  filter (fun v_info => (length v_info =? 1)%nat) values.

(** The number of occurrences in a map. *)
Definition total_occurrences (values : list (list occurrence)) : Z :=
  fold_right Z.add 0 (map (fun v_info => Z.of_nat (length v_info)) values).

(** Kernel input: [npix] pixels per frame whose identity tuples all
    differ (every component is the pixel index). *)
Definition distinct_identity (npix : Z) : ndarray3 :=
  {| shape3 := (1, npix, 4); at3 := fun _ x _ => inject_Z x |}.

(* ================================================================== *)
(** * Construction of [ResizeOverlap]                                  *)
(* ================================================================== *)

(** [ResizeOverlap.__init__(self, alpha_scheduler,
    kernel_radius_scheduler, algorithm, verbose=True,
    interpolate_mode='nearest')] *)
Definition ResizeOverlap_init_signature : Call.signature :=
  [("alpha_scheduler", false); ("kernel_radius_scheduler", false);
   ("algorithm", false); ("verbose", true);
   ("interpolate_mode", true)]%string.

(** A call of [ResizeOverlap] with positional and keyword arguments;
    [default_verbose] and [default_interpolate_mode] are the defaults
    [True] and ['nearest'] of the two optional parameters. *)
Definition ResizeOverlap_init {object : Type}
  (default_verbose default_interpolate_mode : object) (args : list object)
  (kwargs : Call.arguments object) : result (Call.attributes object) :=
  bound <- Call.bind_arguments ResizeOverlap_init_signature args kwargs ;;
  self <- Call.Overlap_init []
            [("alpha_scheduler",
               Call.value_of default_verbose "alpha_scheduler" bound);
             ("kernel_radius_scheduler",
               Call.value_of default_verbose "kernel_radius_scheduler" bound);
             ("algorithm", Call.value_of default_verbose "algorithm" bound);
             ("verbose", Call.value_of default_verbose "verbose" bound)
            ]%string ;;
  Ok (self ++ [("_interpolate_mode",
                 Some (Call.value_of default_interpolate_mode
                         "interpolate_mode" bound))]%string).

(* ================================================================== *)
(** * The overlap rate ([overlap/utils.py])                            *)
(* ================================================================== *)

(** The elements of a frame, in storage order. *)
Definition frame_elements (fr : Frame) : list Q :=
  let '(b, c, h, w) := frame_shape fr in
  flat_map (fun bi =>
    flat_map (fun ci =>
      flat_map (fun y =>
        map (fun x => frame_at fr bi ci y x) (range 0 w))
        (range 0 h))
      (range 0 c))
    (range 0 b).

(** [torch.sum(cond)] for an elementwise condition on one tensor: the
    number of elements that satisfy it. *)
Definition count_where (cond : Q -> bool) (latents : Frame) : Z :=
  Z.of_nat (length (filter cond (frame_elements latents))).

(** [a > 0] on a number. *)
Definition Qpos_bool (a : Q) : bool := 0 <? Qnum a.

(** [torch.sum(torch.stack([torch.sum(cond(latents)) for latents in
    ovlp_seq]))]; [torch.stack] refuses an empty list. *)
Definition sum_counts (cond : Q -> bool) (ovlp_seq : list Frame)
  : result Z :=
  match ovlp_seq with
  | [] => Raise RuntimeError
  | _ :: _ => Ok (fold_right Z.add 0 (map (count_where cond) ovlp_seq))
  end.

(** [calculate_overlap_rate(ovlp_seq, threshold)].  The quotient of the
    two integer tensors is a true division; where both counts are zero
    torch yields NaN, here the quotient by zero is 0. *)
Definition calculate_overlap_rate (ovlp_seq : list Frame) (threshold : Q)
  : result Q :=
  num_zeros <-
    sum_counts (fun v => Qle_bool (Qabs (v - threshold)) 0) ovlp_seq ;;
  num_nonzeros <-
    sum_counts (fun v => Qpos_bool (Qabs (v - threshold))) ovlp_seq ;;
  Ok (inject_Z num_nonzeros / inject_Z (num_nonzeros + num_zeros))%Q.

(** The static method [Overlap.calculate_overlap_rate] forwards to the
    function of [utils.py]. *)
Definition Overlap_calculate_overlap_rate (ovlp_seq : list Frame)
  (threshold : Q) : result Q :=
  calculate_overlap_rate ovlp_seq threshold.

(** All elements of a sequence of frames. *)
Definition all_elements (ovlp_seq : list Frame) : list Q :=
  flat_map frame_elements ovlp_seq.

(** The two elementwise conditions of [calculate_overlap_rate]. *)
Definition equals_threshold (threshold v : Q) : bool :=
  Qle_bool (Qabs (v - threshold)) 0.
Definition differs_from_threshold (threshold v : Q) : bool :=
  Qpos_bool (Qabs (v - threshold)).

(* ================================================================== *)
(** * Example inputs of the entry point                                *)
(* ================================================================== *)

(** Two frames of one row and two columns, and a map in which each of
    two ids has one occurrence. *)
Definition singleton_frames : list Frame :=
  [gray_frame 1 2 (fun _ x => inject_Z x);
   gray_frame 1 2 (fun _ x => inject_Z (1 + x))].

Definition singleton_map : CorrespondenceMap :=
  {| Map := [(1, [((0, 0), 0)]); (2, [((0, 1), 1)])];
     height := 1; width := 2 |}.

(** A second id at [(0, 0)] of frame 0, where [id_A] is as well, and a
    map that lists both over the frames of the scenario. *)
Definition id_C : list occurrence := [((0, 0), 0); ((0, 0), 2)].

Definition shared_position_map : CorrespondenceMap :=
  {| Map := [(1, id_A); (2, id_C)]; height := 1; width := 1 |}.

(** A map over the frames of the scenario with a column outside them. *)
Definition outside_position_map : CorrespondenceMap :=
  {| Map := [(7, [((0, 0), 0); ((0, 5), 1)])]; height := 1; width := 1 |}.

(* ================================================================== *)
(** * Properties: Python preliminaries                                 *)
(* ================================================================== *)

Lemma bind_Ok_inv {A B : Type} (m : result A) (k : A -> result B) (b : B) :
  bind m k = Ok b -> exists a, m = Ok a /\ k a = Ok b.
Proof.
  destruct m as [a | e]; simpl; intros H; [ eauto | discriminate ].
Qed.

Lemma length_range (lo hi : Z) : length (range lo hi) = Z.to_nat (hi - lo).
Proof. unfold range. now rewrite length_map, length_seq. Qed.

Lemma nth_error_range (lo hi : Z) (k : nat) :
  (k < Z.to_nat (hi - lo))%nat ->
  nth_error (range lo hi) k = Some (lo + Z.of_nat k).
Proof.
  intros Hk. unfold range.
  rewrite nth_error_map, nth_error_seq.
  destruct (Nat.ltb_spec k (Z.to_nat (hi - lo))); [ reflexivity | lia ].
Qed.

Lemma in_range (lo hi i : Z) : In i (range lo hi) <-> lo <= i < hi.
Proof.
  unfold range. rewrite in_map_iff. split.
  - intros (k & <- & Hk). apply in_seq in Hk. lia.
  - intros Hi. exists (Z.to_nat (i - lo)). split; [ lia | ].
    apply in_seq. lia.
Qed.

Lemma NoDup_range (lo hi : Z) : NoDup (range lo hi).
Proof.
  unfold range. apply Finite.Injective_map_NoDup; [ | apply seq_NoDup ].
  intros a b Hab. lia.
Qed.

Lemma length_list_set {A : Type} (l : list A) (idx : nat) (v : A) :
  length (list_set l idx v) = length l.
Proof.
  revert idx. induction l as [| a l IH]; intros [| i]; simpl; auto.
Qed.

Lemma nth_error_list_set_eq {A : Type} (l : list A) (idx : nat) (v : A) :
  (idx < length l)%nat -> nth_error (list_set l idx v) idx = Some v.
Proof.
  revert idx. induction l as [| a l IH]; intros [| i]; simpl; intros H;
    try lia; auto. apply IH. lia.
Qed.

Lemma nth_error_list_set_neq {A : Type} (l : list A) (idx k : nat) (v : A) :
  k <> idx -> nth_error (list_set l idx v) k = nth_error l k.
Proof.
  revert idx k. induction l as [| a l IH]; intros [| i] [| k]; simpl;
    intros H; try congruence; auto.
Qed.

(* ================================================================== *)
(** * Properties: extended traces                                      *)
(* ================================================================== *)

Section ExtendedTraces.

Variables (kernel_radius max_x max_y : Z) (frame_index_trace : list Z).

(** The loop rewrites the entries [idx, idx + length zipped) and leaves the
    others as they are. *)
Lemma extend_loop_spec (zipped : list (Z * Z)) :
  forall (idx : nat) (ef ey ex : list entry),
    (idx + length zipped <= length frame_index_trace)%nat ->
    (idx + length zipped <= length ef)%nat ->
    (idx + length zipped <= length ey)%nat ->
    (idx + length zipped <= length ex)%nat ->
    exists ef' ey' ex',
      extend_loop kernel_radius frame_index_trace max_x max_y idx zipped
        (ef, ey, ex) = Ok (ef', ey', ex')
      /\ length ef' = length ef /\ length ey' = length ey
      /\ length ex' = length ex
      /\ (forall k, (k < idx \/ idx + length zipped <= k)%nat ->
            nth_error ef' k = nth_error ef k
            /\ nth_error ey' k = nth_error ey k
            /\ nth_error ex' k = nth_error ex k)
      /\ (forall j y x f,
            nth_error zipped j = Some (y, x) ->
            nth_error frame_index_trace (idx + j) = Some f ->
            nth_error ef' (idx + j)
              = Some (Window (repeat f (length (window_positions kernel_radius max_y y))))
            /\ nth_error ey' (idx + j) = Some (Window (window_positions kernel_radius max_y y))
            /\ nth_error ex' (idx + j) = Some (Window (window_positions kernel_radius max_x x))).
Proof.
  induction zipped as [| [y0 x0] rest IH]; intros idx ef ey ex Hf Hef Hey Hex.
  - exists ef, ey, ex. simpl.
    split; [ reflexivity | ]. do 3 (split; [ reflexivity | ]).
    split; [ auto | ].
    intros [| j] y x f Hj; discriminate Hj.
  - simpl in Hf, Hef, Hey, Hex. simpl.
    destruct (nth_error frame_index_trace idx) as [f0 |] eqn:Hf0;
      [ | apply nth_error_None in Hf0; lia ].
    destruct (IH (S idx)
                (list_set ef idx (Window (repeat f0 (length (window_positions kernel_radius max_y y0)))))
                (list_set ey idx (Window (window_positions kernel_radius max_y y0)))
                (list_set ex idx (Window (window_positions kernel_radius max_x x0))))
      as (ef' & ey' & ex' & Hrun & Lf & Ly & Lx & Hout & Hin);
      rewrite ?length_list_set; try lia.
    exists ef', ey', ex'.
    rewrite length_list_set in Lf, Ly, Lx.
    split; [ exact Hrun | ]. do 3 (split; [ assumption | ]).
    split.
    + intros k Hk.
      destruct (Hout k) as (-> & -> & ->); [ lia | ].
      rewrite !nth_error_list_set_neq by lia. auto.
    + intros [| j] y x f Hj Hfj; simpl in Hj.
      * injection Hj as -> ->. rewrite Nat.add_0_r in *.
        destruct (Hout idx) as (-> & -> & ->); [ lia | ].
        rewrite !nth_error_list_set_eq by lia.
        rewrite Hf0 in Hfj. injection Hfj as ->. auto.
      * replace (idx + S j)%nat with (S idx + j)%nat in * by lia.
        exact (Hin j y x f Hj Hfj).
Qed.

End ExtendedTraces.

Lemma nth_error_repeat_lt {A : Type} (a : A) (n k : nat) :
  (k < n)%nat -> nth_error (repeat a n) k = Some a.
Proof.
  revert k. induction n as [| n IH]; intros [| k] H; simpl; try lia; auto.
  apply IH. lia.
Qed.

(** [clamp] keeps a value inside [[lo, hi]] and moves it to the nearer
    end otherwise. *)
Lemma clamp_spec (v lo hi : Z) :
  lo <= hi ->
  lo <= clamp v lo hi <= hi
  /\ (v < lo -> clamp v lo hi = lo)
  /\ (lo <= v <= hi -> clamp v lo hi = v)
  /\ (hi < v -> clamp v lo hi = hi).
Proof. unfold clamp. lia. Qed.

(** C6. For every radius [R >= 0] and every trace point [(y, x)] with frame
    index [f], the extended trace holds exactly [2R+1] positions; the one
    at offset [d] in [[-R, R]] is [(clamp(y+d, 0, height-1),
    clamp(x+d, 0, width-1))], row and column moved by the same [d], and
    the frame index [f] is repeated [2R+1] times. *)
Theorem extended_trace_window :
  forall (R : Z) (fs xs ys : list Z) (max_x max_y : Z),
    0 <= R ->
    length ys = length fs ->
    length xs = length fs ->
    exists ext_f ext_y ext_x,
      _get_extended_traces R fs xs ys max_x max_y = Ok (ext_f, ext_y, ext_x)
      /\ length ext_f = length fs
      /\ length ext_y = length fs
      /\ length ext_x = length fs
      /\ forall k f y x,
           nth_error fs k = Some f ->
           nth_error ys k = Some y ->
           nth_error xs k = Some x ->
           exists wf wy wx,
             nth_error ext_f k = Some (Window wf)
             /\ nth_error ext_y k = Some (Window wy)
             /\ nth_error ext_x k = Some (Window wx)
             /\ Z.of_nat (length wf) = 2 * R + 1
             /\ Z.of_nat (length wy) = 2 * R + 1
             /\ Z.of_nat (length wx) = 2 * R + 1
             /\ forall d, - R <= d <= R ->
                  nth_error wf (Z.to_nat (d + R)) = Some f
                  /\ nth_error wy (Z.to_nat (d + R))
                     = Some (clamp (y + d) 0 (max_y - 1))
                  /\ nth_error wx (Z.to_nat (d + R))
                     = Some (clamp (x + d) 0 (max_x - 1)).
Proof.
  intros R fs xs ys max_x max_y HR Hys Hxs.
  unfold _get_extended_traces.
  destruct (extend_loop_spec R max_x max_y fs (combine ys xs) 0
              (map Scalar fs) (map Scalar ys) (map Scalar xs))
    as (ef & ey & ex & Hrun & Lf & Ly & Lx & _ & Hin);
    rewrite ?length_combine, ?length_map; try lia.
  rewrite length_map in Lf, Ly, Lx.
  exists ef, ey, ex. split; [ exact Hrun | ].
  do 3 (split; [ lia | ]).
  intros k f y x Hf Hy Hx.
  assert (Hz : nth_error (combine ys xs) k = Some (y, x)).
  { clear - Hy Hx. revert xs k Hy Hx.
    induction ys as [| y0 ys' IH]; intros [| x0 xs'] [| k] Hy Hx;
      simpl in *; try discriminate; try congruence.
    apply IH; assumption. }
  destruct (Hin k y x f Hz Hf) as (Ef & Ey & Ex).
  simpl in Ef, Ey, Ex. rewrite Ef, Ey, Ex.
  eexists _, _, _. do 3 (split; [ reflexivity | ]).
  unfold window_positions.
  rewrite repeat_length, !length_map, length_range.
  do 3 (split; [ lia | ]).
  intros d Hd.
  assert (Hlt : (Z.to_nat (d + R) < Z.to_nat (R + 1 - - R))%nat) by lia.
  assert (Hidx : - R + Z.of_nat (Z.to_nat (d + R)) = d) by lia.
  split; [ | split ].
  - apply nth_error_repeat_lt. exact Hlt.
  - rewrite nth_error_map, nth_error_range by exact Hlt.
    simpl. now rewrite Hidx.
  - rewrite nth_error_map, nth_error_range by exact Hlt.
    simpl. now rewrite Hidx.
Qed.

Lemma extended_trace_window_witness :
  0 <= 1
  /\ length [0; 0] = length [0; 1]
  /\ length [0; 0] = length [0; 1]
  /\ exists ext_f ext_y ext_x,
       _get_extended_traces 1 [0; 1] [0; 0] [0; 0] 2 1
       = Ok (ext_f, ext_y, ext_x)
       /\ length ext_f = length [0; 1]
       /\ length ext_y = length [0; 1]
       /\ length ext_x = length [0; 1]
       /\ forall k f y x,
            nth_error [0; 1] k = Some f ->
            nth_error [0; 0] k = Some y ->
            nth_error [0; 0] k = Some x ->
            exists wf wy wx,
              nth_error ext_f k = Some (Window wf)
              /\ nth_error ext_y k = Some (Window wy)
              /\ nth_error ext_x k = Some (Window wx)
              /\ Z.of_nat (length wf) = 2 * 1 + 1
              /\ Z.of_nat (length wy) = 2 * 1 + 1
              /\ Z.of_nat (length wx) = 2 * 1 + 1
              /\ forall d, - (1) <= d <= 1 ->
                   nth_error wf (Z.to_nat (d + 1)) = Some f
                   /\ nth_error wy (Z.to_nat (d + 1))
                      = Some (clamp (y + d) 0 (1 - 1))
                   /\ nth_error wx (Z.to_nat (d + 1))
                      = Some (clamp (x + d) 0 (2 - 1)).
Proof.
  split; [ lia | ]. split; [ reflexivity | ]. split; [ reflexivity | ].
  apply (extended_trace_window 1 [0; 1] [0; 0] [0; 0] 2 1);
    [ lia | reflexivity | reflexivity ].
Defined.

(* ================================================================== *)
(** * Properties: the overlap loop                                     *)
(* ================================================================== *)

Section OverlapFacts.

Variable algorithm :
  list Block -> list Z -> list Z -> list Z -> result (list Block).

(** A singleton id changes the counters only. *)
Lemma overlap_step_singleton (alpha : Q) (R : Z) (v_info : list occurrence)
  (st : loop_state) :
  length v_info = 1%nat ->
  overlap_step algorithm alpha R v_info st
  = Ok {| frame_seq_stack := frame_seq_stack st;
          len_1_vertex_count := len_1_vertex_count st + 1;
          avg_trace_length := avg_trace_length st + 1 |}.
Proof. intros H. unfold overlap_step. now rewrite H. Qed.

Lemma overlap_loop_singletons (alpha : Q) (R : Z)
  (values : list (list occurrence)) :
  (forall v_info, In v_info values -> length v_info = 1%nat) ->
  forall st,
    exists st',
      overlap_loop algorithm alpha R values st = Ok st'
      /\ frame_seq_stack st' = frame_seq_stack st
      /\ len_1_vertex_count st'
         = len_1_vertex_count st + Z.of_nat (length values).
Proof.
  induction values as [| v values IH]; intros Hall st.
  - exists st. simpl. repeat split. lia.
  - unfold overlap_loop. simpl.
    rewrite overlap_step_singleton by (apply Hall; now left). simpl.
    destruct (IH (fun v' Hv' => Hall v' (or_intror Hv'))
                 {| frame_seq_stack := frame_seq_stack st;
                    len_1_vertex_count := len_1_vertex_count st + 1;
                    avg_trace_length := avg_trace_length st + 1 |})
      as (st' & Hrun & Hs & Hc).
    exists st'. split; [ exact Hrun | ]. simpl in Hs, Hc.
    split; [ exact Hs | lia ].
Qed.

(** The loop of [Overlap.__call__] is the overlap pass when no progress
    bar is shown. *)
Lemma for_loop_enumerate (alpha : Q) (R : Z)
  (values : list (list occurrence)) :
  forall (start : nat) (st : loop_state),
    for_loop
      (fun (iv : nat * list occurrence) st =>
         overlap_step algorithm alpha R (snd iv) st)
      (combine (seq start (length values)) values) st
    = overlap_loop algorithm alpha R values st.
Proof.
  unfold overlap_loop.
  induction values as [| v values IH]; intros start st; simpl; [ reflexivity | ].
  destruct (overlap_step algorithm alpha R v st) as [st' | e]; simpl;
    [ apply IH | reflexivity ].
Qed.

Lemma Overlap_call_engine_looping
  (alpha_scheduler kernel_radius_scheduler : option Z -> option Q -> Q)
  (fr0 : Frame) (frame_seq : list Frame) (corr_map : CorrespondenceMap)
  (step : option Z) (timestep : option Q) (stack : FrameStack) :
  snd (fst (frame_shape fr0)) = height corr_map ->
  snd (frame_shape fr0) = width corr_map ->
  torch_stack (fr0 :: frame_seq) = Ok stack ->
  Overlap_call algorithm true alpha_scheduler kernel_radius_scheduler
    (fr0 :: frame_seq) corr_map step timestep
  = overlap_pass algorithm (alpha_scheduler step timestep)
      (kernel_radius_of kernel_radius_scheduler step timestep)
      (Map_values corr_map) stack.
Proof.
  intros Hh Hw Hstack. unfold Overlap_call.
  destruct (frame_shape fr0) as [[[b c] h] w] eqn:Hshape. simpl in Hh, Hw.
  subst h w. rewrite !Z.eqb_refl. simpl negb. cbv iota.
  rewrite Hstack. simpl bind at 1. simpl bind at 1.
  unfold enumerate. rewrite for_loop_enumerate. reflexivity.
Qed.

(** With the progress bar (the engine is not looping) a map of fewer than
    100 ids has [progress_slice = 0], and the first iteration raises. *)
Lemma Overlap_call_progress_bar
  (alpha_scheduler kernel_radius_scheduler : option Z -> option Q -> Q)
  (fr0 : Frame) (frame_seq : list Frame) (corr_map : CorrespondenceMap)
  (step : option Z) (t : Q) (stack : FrameStack) :
  snd (fst (frame_shape fr0)) = height corr_map ->
  snd (frame_shape fr0) = width corr_map ->
  torch_stack (fr0 :: frame_seq) = Ok stack ->
  (0 < length (Map corr_map) < 100)%nat ->
  Overlap_call algorithm false alpha_scheduler kernel_radius_scheduler
    (fr0 :: frame_seq) corr_map step (Some t)
  = Raise ZeroDivisionError.
Proof.
  intros Hh Hw Hstack Hlen. unfold Overlap_call.
  destruct (frame_shape fr0) as [[[b c] h] w] eqn:Hshape. simpl in Hh, Hw.
  subst h w. rewrite !Z.eqb_refl. simpl negb. cbv iota.
  rewrite Hstack. simpl bind at 1. simpl bind at 1.
  rewrite Z.div_small by lia.
  unfold enumerate, Map_values. rewrite length_map.
  destruct (Map corr_map) as [| kv rest]; [ simpl in Hlen; lia | ].
  reflexivity.
Qed.

(** The progress-bar line raises nothing while the engine is looping,
    and nothing when [progress_slice] is not 0: the loop of
    [Overlap.__call__] is then the overlap pass. *)
Lemma for_loop_progress_silent (looping : bool) (progress_slice : Z)
  (alpha : Q) (R : Z) (values : list (list occurrence)) :
  looping = true \/ progress_slice <> 0 ->
  forall (start : nat) (st : loop_state),
    for_loop
      (fun (iv : nat * list occurrence) st =>
         _ <- progress_update looping progress_slice (fst iv) ;;
         overlap_step algorithm alpha R (snd iv) st)
      (combine (seq start (length values)) values) st
    = overlap_loop algorithm alpha R values st.
Proof.
  intros Hsilent.
  assert (Hup : forall v_i, progress_update looping progress_slice v_i
                            = Ok tt).
  { intros v_i. unfold progress_update.
    destruct looping; [ reflexivity | ].
    destruct Hsilent as [H | H]; [ discriminate | ].
    apply Z.eqb_neq in H. now rewrite H. }
  unfold overlap_loop.
  induction values as [| v values IH]; intros start st; simpl;
    [ reflexivity | ].
  rewrite Hup. cbn [bind].
  destruct (overlap_step algorithm alpha R v st) as [st' | e]; simpl;
    [ apply IH | reflexivity ].
Qed.

Lemma Overlap_call_progress_silent
  (looping : bool)
  (alpha_scheduler kernel_radius_scheduler : option Z -> option Q -> Q)
  (fr0 : Frame) (frame_seq : list Frame) (corr_map : CorrespondenceMap)
  (step : option Z) (timestep : option Q) (stack : FrameStack) :
  looping = true
  \/ ((exists t, timestep = Some t)
      /\ (100 <= length (Map corr_map))%nat) ->
  snd (fst (frame_shape fr0)) = height corr_map ->
  snd (frame_shape fr0) = width corr_map ->
  torch_stack (fr0 :: frame_seq) = Ok stack ->
  Overlap_call algorithm looping alpha_scheduler kernel_radius_scheduler
    (fr0 :: frame_seq) corr_map step timestep
  = overlap_pass algorithm (alpha_scheduler step timestep)
      (kernel_radius_of kernel_radius_scheduler step timestep)
      (Map_values corr_map) stack.
Proof.
  intros Hsilent Hh Hw Hstack. unfold Overlap_call.
  destruct (frame_shape fr0) as [[[b c] h] w] eqn:Hshape. simpl in Hh, Hw.
  subst h w. rewrite !Z.eqb_refl. simpl negb. cbv iota.
  rewrite Hstack. simpl bind at 1.
  assert (Hlog : (if looping then Ok tt
                  else match timestep with
                       | Some _ => Ok tt
                       | None => Raise TypeError
                       end) = Ok tt).
  { destruct looping; [ reflexivity | ].
    destruct Hsilent as [H | ((t & ->) & _)];
      [ discriminate | reflexivity ]. }
  rewrite Hlog. simpl bind at 1.
  unfold enumerate. rewrite for_loop_progress_silent; [ reflexivity | ].
  destruct Hsilent as [H | (_ & Hlen)]; [ now left | right ].
  intros Hz.
  assert (1 <= Z.of_nat (length (Map corr_map)) / 100)
    by (apply Z.div_le_lower_bound; lia).
  lia.
Qed.

End OverlapFacts.

(** C2 on the code.  On a map in which every id has exactly one
    occurrence, the loop takes the early [continue] and the call made
    while the engine is looping returns the stacked input, as the claim
    says.  Outside the engine loop the same call raises: with a numeric
    timestep [progress_slice = len(corr_map) // 100] is 0 for this map of
    two ids and the first iteration computes [v_i % progress_slice]
    ([ZeroDivisionError]); with the default timestep [None] the log
    line that formats it raises [TypeError]. *)
Theorem overlap_singletons_outside_engine_loop :
  forall (algorithm :
            list Block -> list Z -> list Z -> list Z -> result (list Block))
         (alpha_scheduler kernel_radius_scheduler : option Z -> option Q -> Q)
         (step : option Z) (t : Q),
    (forall v_info, In v_info (Map_values singleton_map) ->
                    length v_info = 1%nat)
    /\ (exists stack,
          torch_stack singleton_frames = Ok stack
          /\ Overlap_call algorithm true alpha_scheduler
               kernel_radius_scheduler singleton_frames singleton_map step
               (Some t) = Ok stack)
    /\ Overlap_call algorithm false alpha_scheduler kernel_radius_scheduler
         singleton_frames singleton_map step (Some t)
       = Raise ZeroDivisionError
    /\ Overlap_call algorithm false alpha_scheduler kernel_radius_scheduler
         singleton_frames singleton_map step None
       = Raise TypeError.
Proof.
  intros algorithm alpha_scheduler kernel_radius_scheduler step t.
  split; [ | split; [ | split ] ].
  - intros v [<- | [<- | []]]; reflexivity.
  - eexists. split; reflexivity.
  - reflexivity.
  - reflexivity.
Qed.

(* ================================================================== *)
(** * Properties: the neighbourhood radius                             *)
(* ================================================================== *)

(** [int] rounds toward zero: the result lies between zero and the
    argument, less than one away from it. *)
Lemma int_truncates (q : Q) :
  ((0 <= q -> inject_Z (int q) <= q /\ q < inject_Z (int q) + 1)
   /\ (q <= 0 -> q <= inject_Z (int q) /\ inject_Z (int q) - 1 < q))%Q.
Proof.
  destruct q as [n d]. unfold int, Qle, Qlt. simpl.
  pose proof (Z.quot_rem' n (Z.pos d)) as Hqr.
  split; intros Hn; rewrite Z.mul_1_r in Hn.
  - pose proof (Z.rem_bound_pos n (Z.pos d) Hn ltac:(lia)) as Hb.
    revert Hqr Hb. generalize (Z.rem n (Z.pos d)) as r, (n ÷ Z.pos d) as k.
    intros r k Hqr Hb. clear Hn. subst n. lia.
  - pose proof (Z.rem_bound_pos_neg n (Z.pos d) ltac:(lia) Hn) as Hb.
    revert Hqr Hb. generalize (Z.rem n (Z.pos d)) as r, (n ÷ Z.pos d) as k.
    intros r k Hqr Hb. clear Hn. subst n. lia.
Qed.

Lemma int_nonneg_iff (q : Q) : 0 <= int q <-> (-1 < q)%Q.
Proof.
  destruct q as [n d]. unfold int, Qlt. simpl.
  pose proof (Z.quot_rem' n (Z.pos d)) as Hqr.
  destruct (Z.le_gt_cases 0 n) as [Hn | Hn].
  - pose proof (Z.quot_pos n (Z.pos d) Hn ltac:(lia)).
    clear Hqr. split; intros; lia.
  - assert (Hle : n <= 0) by (clear Hqr; lia).
    pose proof (Z.rem_bound_pos_neg n (Z.pos d) ltac:(lia) Hle) as Hb.
    revert Hqr Hb. generalize (Z.rem n (Z.pos d)) as r, (n ÷ Z.pos d) as k.
    intros r k Hqr Hb. clear Hn Hle. subst n. rewrite Z.mul_1_r.
    split; intros H.
    + assert (0 <= Z.pos d * k) by (apply Z.mul_nonneg_nonneg; lia). lia.
    + destruct (Z.le_gt_cases 0 k) as [Hk | Hk]; [ exact Hk | exfalso ].
      assert (Z.pos d * k <= Z.pos d * (-1))
        by (apply Z.mul_le_mono_nonneg_l; lia).
      lia.
Qed.

(** C7, as the code has it.  The radius used inside overlap is the
    kernel-radius scheduler's output truncated toward zero to an integer;
    overlap applies no clamp, so the radius is [>= 0] exactly when the
    scheduler's output is greater than [-1]. *)
Theorem kernel_radius_truncated :
  forall (kernel_radius_scheduler : option Z -> option Q -> Q)
         (step : option Z) (timestep : option Q),
    let out := kernel_radius_scheduler step timestep in
    let kernel_radius := kernel_radius_of kernel_radius_scheduler step timestep in
    ((0 <= out -> inject_Z kernel_radius <= out /\ out < inject_Z kernel_radius + 1)
     /\ (out <= 0 -> out <= inject_Z kernel_radius /\ inject_Z kernel_radius - 1 < out))%Q
    /\ (0 <= kernel_radius <-> (-1 < out)%Q).
Proof.
  intros sched step timestep out kernel_radius.
  split; [ apply int_truncates | apply int_nonneg_iff ].
Qed.

(** C7 as stated fails: a scheduler whose output is [-2.5] gives the
    radius [-2]. *)
Lemma kernel_radius_negative :
  exists (kernel_radius_scheduler : option Z -> option Q -> Q)
         (step : option Z) (timestep : option Q),
    kernel_radius_of kernel_radius_scheduler step timestep = -2
    /\ kernel_radius_of kernel_radius_scheduler step timestep < 0.
Proof.
  exists (fun _ _ => (-5 # 2)%Q), None, None. split; reflexivity.
Qed.

(* ================================================================== *)
(** * Properties: the resize adapter                                   *)
(* ================================================================== *)

(** C8, as the code has it.  Corner alignment is never enabled: it is
    explicitly [False] for the smooth modes linear, bilinear, bicubic and
    trilinear, and left unset ([None]) for every other mode, the nearest
    family among them. *)
Theorem align_corners_never_enabled :
  forall interpolate_mode : string,
    (In interpolate_mode ["linear"; "bilinear"; "bicubic"; "trilinear"]%string
     -> align_corners_of interpolate_mode = Some false)
    /\ (~ In interpolate_mode
            ["linear"; "bilinear"; "bicubic"; "trilinear"]%string
        -> align_corners_of interpolate_mode = None)
    /\ align_corners_of "nearest" = None
    /\ align_corners_of "nearest-exact" = None
    /\ align_corners_of interpolate_mode <> Some true.
Proof.
  intros mode. unfold align_corners_of.
  destruct (existsb (String.eqb mode)
              ["linear"; "bilinear"; "bicubic"; "trilinear"]%string) eqn:E.
  - repeat split; try discriminate; try reflexivity.
    intros Hnot. exfalso. apply Hnot.
    apply existsb_exists in E. destruct E as (m & Hin & Hm).
    apply String.eqb_eq in Hm. now subst m.
  - repeat split; try discriminate; try reflexivity.
    intros Hin. exfalso.
    assert (E' : existsb (String.eqb mode)
                   ["linear"; "bilinear"; "bicubic"; "trilinear"]%string
                 = true).
    { apply existsb_exists. exists mode. split; [ exact Hin | ].
      apply String.eqb_refl. }
    congruence.
Qed.

(** C8 as stated fails: for the smooth mode bilinear corner alignment is
    [False], not enabled. *)
Lemma align_corners_bilinear_disabled :
  In "bilinear"%string ["linear"; "bilinear"; "bicubic"; "trilinear"]%string
  /\ align_corners_of "bilinear" = Some false
  /\ align_corners_of "bilinear" <> Some true.
Proof.
  split; [ simpl; auto | ]. split; [ reflexivity | discriminate ].
Qed.

(* ================================================================== *)
(** * Properties: construction of [VAEOverlap]                         *)
(* ================================================================== *)

Section CallFacts.

Variable object : Type.

Lemma bind_positional_TypeError (sig : Call.signature) (args : list object)
  (e : exn) :
  Call.bind_positional sig args = Raise e -> e = TypeError.
Proof.
  revert sig. induction args as [| a args IH]; intros [| [name d] sig] H;
    simpl in H; try discriminate; try congruence.
  destruct (Call.bind_positional sig args) as [bound | e'] eqn:E;
    simpl in H; [ discriminate | ].
  injection H as <-. eapply IH. exact E.
Qed.

Lemma bind_keywords_TypeError (sig : Call.signature)
  (kwargs bound : Call.arguments object) (e : exn) :
  Call.bind_keywords sig kwargs bound = Raise e -> e = TypeError.
Proof.
  revert bound. induction kwargs as [| [name v] kwargs IH]; intros bound H;
    simpl in H; [ discriminate | ].
  destruct (negb (existsb (fun p => String.eqb (fst p) name) sig));
    [ congruence | ].
  destruct (Call.lookup name bound); [ congruence | ].
  eapply IH. exact H.
Qed.

Lemma bind_arguments_TypeError (sig : Call.signature) (args : list object)
  (kwargs : Call.arguments object) (e : exn) :
  Call.bind_arguments sig args kwargs = Raise e -> e = TypeError.
Proof.
  unfold Call.bind_arguments. intros H.
  destruct (Call.bind_positional sig args) as [b1 | e1] eqn:E1; simpl in H.
  - destruct (Call.bind_keywords sig kwargs b1) as [b2 | e2] eqn:E2;
      simpl in H.
    + unfold Call.check_required in H.
      destruct (forallb _ sig); congruence.
    + injection H as <-. eapply bind_keywords_TypeError. exact E2.
  - injection H as <-. eapply bind_positional_TypeError. exact E1.
Qed.

(** The base initializer rejects the keyword [corr_map_decay_scheduler]. *)
Lemma Overlap_init_rejects_decay_scheduler (a d k g v : object) :
  Call.Overlap_init []
    [("alpha_scheduler", a); ("corr_map_decay_scheduler", d);
     ("kernel_radius_scheduler", k); ("algorithm", g); ("verbose", v)]%string
  = Raise TypeError.
Proof. reflexivity. Qed.

(** C10. Constructing [VAEOverlap] raises a [TypeError] for every
    combination of positional and keyword arguments: when the arguments
    bind at all, the initializer forwards the keyword
    [corr_map_decay_scheduler], which the initializer of [Overlap] does not
    accept.  No instance of the class can be made. *)
Theorem VAEOverlap_init_raises :
  forall (default_verbose : object) (args : list object)
         (kwargs : Call.arguments object),
    Call.VAEOverlap_init default_verbose args kwargs = Raise TypeError.
Proof.
  intros default_verbose args kwargs. unfold Call.VAEOverlap_init.
  destruct (Call.bind_arguments Call.VAEOverlap_init_signature args kwargs)
    as [bound | e] eqn:E; unfold bind at 1.
  - rewrite Overlap_init_rejects_decay_scheduler. reflexivity.
  - f_equal. eapply bind_arguments_TypeError. exact E.
Qed.

End CallFacts.

(* ================================================================== *)
(** * Properties: the consensus kernel                                 *)
(* ================================================================== *)

Section KernelFacts.

Open Scope Q_scope.

Lemma Qsum_ext {A : Type} (f g : A -> Q) (l : list A) :
  (forall a, In a l -> f a == g a) ->
  Qsum (map f l) == Qsum (map g l).
Proof.
  induction l as [| a l IH]; intros H; simpl; [ reflexivity | ].
  rewrite (H a) by now left. rewrite IH; [ reflexivity | ].
  intros a' Ha'. apply H. now right.
Qed.

Lemma Qsum_nonneg {A : Type} (f : A -> Q) (l : list A) :
  (forall a, In a l -> 0 <= f a) -> 0 <= Qsum (map f l).
Proof.
  induction l as [| a l IH]; intros H; simpl; [ apply Qle_refl | ].
  assert (0 <= f a) by (apply H; now left).
  assert (0 <= Qsum (map f l)) by (apply IH; intros; apply H; now right).
  lra.
Qed.

Lemma Qsum_const {A : Type} (f : A -> Q) (c : Q) (l : list A) :
  (forall a, In a l -> f a == c) ->
  Qsum (map f l) == inject_Z (Z.of_nat (length l)) * c.
Proof.
  induction l as [| a l IH]; intros H.
  - simpl. ring.
  - cbn [map Qsum fold_right length].
    change (fold_right Qplus 0 (map f l)) with (Qsum (map f l)).
    rewrite (H a) by now left.
    rewrite IH by (intros; apply H; now right).
    rewrite Nat2Z.inj_succ, <- Z.add_1_r, inject_Z_plus. ring.
Qed.

(** An accumulating loop [for x in l: result += f(x)]. *)
Lemma fold_left_add {A : Type} (f : A -> Q) (l : list A) (a0 : Q) :
  fold_left (fun result x => result + f x) l a0 == a0 + Qsum (map f l).
Proof.
  revert a0. induction l as [| x l IH]; intros a0; simpl.
  - ring.
  - rewrite IH.
    change (fold_right Qplus 0 (map f l)) with (Qsum (map f l)). ring.
Qed.

(** The two nested loops of [_get_similarity]. *)
Lemma fold_left_add_nested {A B : Type} (g : A -> B -> Q) (l1 : list A)
  (l2 : list B) (a0 : Q) :
  fold_left (fun result x => fold_left (fun result i => result + g x i) l2 result)
    l1 a0
  == a0 + Qsum (map (fun x => Qsum (map (g x) l2)) l1).
Proof.
  revert a0. induction l1 as [| x l1 IH]; intros a0; simpl.
  - ring.
  - rewrite IH, fold_left_add.
    change (fold_right Qplus 0 (map (fun x0 => Qsum (map (g x0) l2)) l1))
      with (Qsum (map (fun x0 => Qsum (map (g x0) l2)) l1)).
    ring.
Qed.

Lemma check_values_equal_bit (values : ndarray3) (value_len : Z)
  (a b : Z * Z) :
  _check_values_equal values value_len a b = 0%Z
  \/ _check_values_equal values value_len a b = 1%Z.
Proof.
  unfold _check_values_equal.
  assert (H : forall l e, (e = 0%Z \/ e = 1%Z) ->
    let r := fold_left
      (fun equal i =>
         if negb (Qeq_bool (at3 values (fst a) (snd a) i)
                    (at3 values (fst b) (snd b) i))
         then 0%Z else equal) l e in
    r = 0%Z \/ r = 1%Z).
  { induction l as [| i l IH]; intros e He; simpl; [ exact He | ].
    apply IH. destruct (negb _); auto. }
  apply H. now right.
Qed.

Lemma check_values_equal_same (values : ndarray3) (value_len : Z)
  (a b : Z * Z) :
  (forall i, at3 values (fst a) (snd a) i == at3 values (fst b) (snd b) i) ->
  _check_values_equal values value_len a b = 1%Z.
Proof.
  intros Hsame. unfold _check_values_equal.
  generalize (range 0 value_len) as l.
  induction l as [| i l IH]; simpl; [ reflexivity | ].
  rewrite (proj2 (Qeq_bool_iff _ _) (Hsame i)). simpl. exact IH.
Qed.

(** The similarity as the double sum the specification writes. *)
Lemma get_similarity_sum (id_flatten_maps : ndarray3) (target compare : Z * Z)
  (cell_contains_pixel : Z) (contributions : ndarray2) :
  _get_similarity id_flatten_maps target compare cell_contains_pixel
    contributions
  == Qsum
       (map (fun x =>
          Qsum
            (map (fun i =>
               at2 contributions (fst compare) i
               * at2 contributions (fst target) x
               * inject_Z
                   (_check_values_equal id_flatten_maps
                      (shape3_last id_flatten_maps)
                      (fst target, x) (fst compare, i)))
               (range (snd compare * cell_contains_pixel)
                  (snd compare * cell_contains_pixel + cell_contains_pixel))))
          (range (snd target * cell_contains_pixel)
             (snd target * cell_contains_pixel + cell_contains_pixel))).
Proof.
  unfold _get_similarity. cbv zeta.
  rewrite (fold_left_add_nested
             (fun x i =>
                at2 contributions (fst compare) i
                * at2 contributions (fst target) x
                * inject_Z
                    (_check_values_equal id_flatten_maps
                       (shape3_last id_flatten_maps)
                       (fst target, x) (fst compare, i)))).
  ring.
Qed.

Lemma get_similarity_nonneg (id_flatten_maps : ndarray3)
  (target compare : Z * Z) (cell_contains_pixel : Z)
  (contributions : ndarray2) :
  (forall b x, 0 <= at2 contributions b x) ->
  0 <= _get_similarity id_flatten_maps target compare cell_contains_pixel
         contributions.
Proof.
  intros Hc. rewrite get_similarity_sum.
  apply Qsum_nonneg. intros x _. apply Qsum_nonneg. intros i _.
  pose proof (Hc (fst compare) i) as H1.
  pose proof (Hc (fst target) x) as H2.
  destruct (check_values_equal_bit id_flatten_maps
              (shape3_last id_flatten_maps) (fst target, x) (fst compare, i))
    as [-> | ->].
  - setoid_replace (inject_Z 0) with 0 by reflexivity. lra.
  - setoid_replace (inject_Z 1) with 1 by reflexivity. nra.
Qed.

(** The accumulated weight after the loop: what it started from plus the
    similarity of every cell that is not skipped. *)
Lemma accumulate_cells_weight (id_flatten_maps origin_values : ndarray3)
  (index_ivec2 : Z * Z) (cell_contains_pixel : Z) (contributions : ndarray2)
  (cells : list (Z * Z)) :
  forall (total_sim : Q) (new_values : ndarray3),
    fst (accumulate_cells id_flatten_maps origin_values index_ivec2
           cell_contains_pixel contributions cells (total_sim, new_values))
    == total_sim
       + Qsum (map (similarity_to id_flatten_maps index_ivec2
                      cell_contains_pixel contributions)
                   (other_cells index_ivec2 cells)).
Proof.
  unfold accumulate_cells.
  induction cells as [| [b i] cells IH]; intros total_sim new_values.
  - simpl. ring.
  - cbn [fold_left other_cells filter fst snd].
    destruct ((b =? fst index_ivec2)%Z && (i =? snd index_ivec2)%Z) eqn:E.
    + cbn [negb]. apply IH.
    + cbn [negb map Qsum fold_right]. rewrite IH.
      unfold similarity_to at 2. cbn [fst snd]. unfold other_cells, Qsum.
      ring.
Qed.

(** The normalization of [_cell_values_overlap] multiplies the slots of
    the target cell by [1 / total_sim], the weight the loop ended with. *)
Lemma cell_values_overlap_normalizes
  (id_flatten_maps origin_values new_values : ndarray3)
  (index_ivec2 : Z * Z) (cell_contains_pixel : Z) (contributions : ndarray2) :
  _cell_values_overlap id_flatten_maps origin_values new_values index_ivec2
    cell_contains_pixel contributions
  = _mult_values
      (snd (accumulate_cells id_flatten_maps origin_values index_ivec2
              cell_contains_pixel contributions
              (ndrange (shape3_0 origin_values) (shape3_1 origin_values))
              (1, _sum_up_values origin_values new_values
                    (shape3_last origin_values) index_ivec2 index_ivec2 1)))
      index_ivec2 (shape3_last origin_values)
      (1 / total_sim_of id_flatten_maps origin_values new_values index_ivec2
             cell_contains_pixel contributions).
Proof.
  unfold _cell_values_overlap, total_sim_of. cbv zeta.
  now destruct (accumulate_cells id_flatten_maps origin_values index_ivec2
                  cell_contains_pixel contributions
                  (ndrange (shape3_0 origin_values) (shape3_1 origin_values))
                  (1, _sum_up_values origin_values new_values
                        (shape3_last origin_values) index_ivec2 index_ivec2 1)).
Qed.

(** C5. For every target cell the normalization divides by the
    accumulated weight, which is the initial 1.0, the self term, plus the
    similarities of the other cells; when no contribution weight is
    negative every such similarity is nonnegative, so the weight stays
    [>= 1] and the normalization never divides by zero. *)
Theorem total_sim_at_least_one :
  forall (id_flatten_maps origin_values new_values : ndarray3)
         (index_ivec2 : Z * Z) (cell_contains_pixel : Z)
         (contributions : ndarray2),
    (forall b x, 0 <= at2 contributions b x) ->
    _cell_values_overlap id_flatten_maps origin_values new_values
      index_ivec2 cell_contains_pixel contributions
    = _mult_values
        (snd (accumulate_cells id_flatten_maps origin_values index_ivec2
                cell_contains_pixel contributions
                (ndrange (shape3_0 origin_values) (shape3_1 origin_values))
                (1, _sum_up_values origin_values new_values
                      (shape3_last origin_values) index_ivec2 index_ivec2 1)))
        index_ivec2 (shape3_last origin_values)
        (1 / total_sim_of id_flatten_maps origin_values new_values
               index_ivec2 cell_contains_pixel contributions)
    /\ (forall bi, 0 <= similarity_to id_flatten_maps index_ivec2
                          cell_contains_pixel contributions bi)
    /\ total_sim_of id_flatten_maps origin_values new_values index_ivec2
         cell_contains_pixel contributions
       == 1 + Qsum (map (similarity_to id_flatten_maps index_ivec2
                           cell_contains_pixel contributions)
                        (other_cells index_ivec2
                           (ndrange (shape3_0 origin_values)
                              (shape3_1 origin_values))))
    /\ 1 <= total_sim_of id_flatten_maps origin_values new_values index_ivec2
              cell_contains_pixel contributions
    /\ ~ total_sim_of id_flatten_maps origin_values new_values index_ivec2
           cell_contains_pixel contributions == 0.
Proof.
  intros id ov nv idx cpp contributions Hc.
  assert (Hsim : forall bi, 0 <= similarity_to id idx cpp contributions bi).
  { intros bi. unfold similarity_to. now apply get_similarity_nonneg. }
  assert (Hw := accumulate_cells_weight id ov idx cpp contributions
                  (ndrange (shape3_0 ov) (shape3_1 ov)) 1
                  (_sum_up_values ov nv (shape3_last ov) idx idx 1)).
  fold (total_sim_of id ov nv idx cpp contributions) in Hw.
  assert (Hsum : 0 <= Qsum (map (similarity_to id idx cpp contributions)
                              (other_cells idx
                                 (ndrange (shape3_0 ov) (shape3_1 ov))))).
  { apply Qsum_nonneg. intros bi _. apply Hsim. }
  split; [ apply cell_values_overlap_normalizes | ].
  split; [ exact Hsim | ]. split; [ exact Hw | ].
  split; [ | intros Hz ]; lra.
Qed.

Lemma total_sim_at_least_one_witness :
  (forall b x, 0 <= at2 (unit_contributions 4) b x)
  /\ 1 <= total_sim_of (same_identity 4) two_cells zero_placeholder (0, 0)%Z 2
            (unit_contributions 4)
  /\ ~ total_sim_of (same_identity 4) two_cells zero_placeholder (0, 0)%Z 2
         (unit_contributions 4) == 0.
Proof.
  assert (H : forall b x, 0 <= at2 (unit_contributions 4) b x).
  { intros b x. simpl. lra. }
  split; [ exact H | ].
  exact (proj2 (proj2 (proj2
           (total_sim_at_least_one (same_identity 4) two_cells
              zero_placeholder (0, 0)%Z 2 (unit_contributions 4) H)))).
Defined.

End KernelFacts.

Section KernelValues.

Open Scope Q_scope.

(** A loop [for i in l: a[t0, t1, i] = h(a[t0, t1, i], i)] rewrites the
    listed slots of one cell, each from its own old value. *)
Lemma fold_row_miss (h : Q -> Z -> Q) (t0 t1 : Z) (l : list Z) :
  forall (a : ndarray3) (j0 j1 j2 : Z),
    (j0 <> t0 \/ j1 <> t1 \/ ~ In j2 l) ->
    at3 (fold_left (fun a i => set3 a t0 t1 i (h (at3 a t0 t1 i) i)) l a)
        j0 j1 j2
    = at3 a j0 j1 j2.
Proof.
  induction l as [| i l IH]; intros a j0 j1 j2 H; simpl; [ reflexivity | ].
  rewrite IH by (simpl in H; tauto).
  simpl. destruct ((j0 =? t0)%Z && (j1 =? t1)%Z && (j2 =? i)%Z) eqn:E;
    [ | reflexivity ].
  apply andb_prop in E. destruct E as [E E2].
  apply andb_prop in E. destruct E as [E0 E1].
  apply Z.eqb_eq in E0, E1, E2. subst. simpl in H. tauto.
Qed.

Lemma fold_row_hit (h : Q -> Z -> Q) (t0 t1 : Z) (l : list Z) :
  NoDup l ->
  forall (a : ndarray3) (j : Z),
    In j l ->
    at3 (fold_left (fun a i => set3 a t0 t1 i (h (at3 a t0 t1 i) i)) l a)
        t0 t1 j
    = h (at3 a t0 t1 j) j.
Proof.
  induction 1 as [| i l Hi Hl IH]; intros a j Hj; simpl; [ destruct Hj | ].
  destruct Hj as [-> | Hj].
  - rewrite fold_row_miss by tauto. simpl. now rewrite !Z.eqb_refl.
  - rewrite IH by exact Hj. simpl.
    destruct (Z.eqb_spec j i) as [-> | Hne]; [ contradiction | ].
    now rewrite andb_false_r.
Qed.

(** What the loop over the other cells leaves in the slots of the target
    cell, and that it touches no other cell. *)
Lemma accumulate_cells_miss (id_flatten_maps origin_values : ndarray3)
  (index_ivec2 : Z * Z) (cell_contains_pixel : Z) (contributions : ndarray2)
  (cells : list (Z * Z)) :
  forall (total_sim : Q) (new_values : ndarray3) (j0 j1 j2 : Z),
    (j0 <> fst index_ivec2 \/ j1 <> snd index_ivec2) ->
    at3 (snd (accumulate_cells id_flatten_maps origin_values index_ivec2
                cell_contains_pixel contributions cells
                (total_sim, new_values))) j0 j1 j2
    = at3 new_values j0 j1 j2.
Proof.
  unfold accumulate_cells.
  induction cells as [| [b i] cells IH]; intros t nv j0 j1 j2 H;
    [ reflexivity | ].
  cbn [fold_left fst snd].
  destruct ((b =? fst index_ivec2)%Z && (i =? snd index_ivec2)%Z).
  - now apply IH.
  - rewrite IH by exact H. unfold _sum_up_values.
    apply (fold_row_miss
             (fun v i0 => v + at3 origin_values b i i0
                              * _get_similarity id_flatten_maps
                                  (fst index_ivec2, snd index_ivec2) (b, i)
                                  cell_contains_pixel contributions)).
    tauto.
Qed.

Lemma accumulate_cells_hit (id_flatten_maps origin_values : ndarray3)
  (index_ivec2 : Z * Z) (cell_contains_pixel : Z) (contributions : ndarray2)
  (k : Z) (cells : list (Z * Z)) :
  (0 <= k < shape3_last origin_values)%Z ->
  forall (total_sim : Q) (new_values : ndarray3),
    at3 (snd (accumulate_cells id_flatten_maps origin_values index_ivec2
                cell_contains_pixel contributions cells
                (total_sim, new_values)))
        (fst index_ivec2) (snd index_ivec2) k
    == at3 new_values (fst index_ivec2) (snd index_ivec2) k
       + weighted_sum id_flatten_maps origin_values index_ivec2
           cell_contains_pixel contributions cells k.
Proof.
  intros Hk. unfold accumulate_cells, weighted_sum.
  induction cells as [| [b i] cells IH]; intros t nv.
  - simpl. ring.
  - cbn [fold_left other_cells filter fst snd].
    destruct ((b =? fst index_ivec2)%Z && (i =? snd index_ivec2)%Z) eqn:E.
    + cbn [negb]. apply IH.
    + cbn [negb map Qsum fold_right]. rewrite IH.
      unfold _sum_up_values.
      rewrite (fold_row_hit
                 (fun v i0 => v + at3 origin_values b i i0
                                  * _get_similarity id_flatten_maps
                                      (fst index_ivec2, snd index_ivec2) (b, i)
                                      cell_contains_pixel contributions))
        by (apply NoDup_range || (apply in_range; exact Hk)).
      unfold similarity_to at 2. cbn [fst snd]. unfold other_cells, Qsum.
      ring.
Qed.

Lemma cell_values_overlap_miss (id_flatten_maps origin_values new_values : ndarray3)
  (index_ivec2 : Z * Z) (cell_contains_pixel : Z) (contributions : ndarray2)
  (j0 j1 j2 : Z) :
  (j0 <> fst index_ivec2 \/ j1 <> snd index_ivec2) ->
  at3 (_cell_values_overlap id_flatten_maps origin_values new_values
         index_ivec2 cell_contains_pixel contributions) j0 j1 j2
  = at3 new_values j0 j1 j2.
Proof.
  intros H. unfold _cell_values_overlap. cbv zeta.
  destruct (accumulate_cells id_flatten_maps origin_values index_ivec2
              cell_contains_pixel contributions
              (ndrange (shape3_0 origin_values) (shape3_1 origin_values))
              (1, _sum_up_values origin_values new_values
                    (shape3_last origin_values) index_ivec2 index_ivec2 1))
    as [total_sim nv'] eqn:E.
  unfold _mult_values.
  rewrite (fold_row_miss (fun v _ => v * (1 / total_sim))) by tauto.
  replace nv' with (snd (total_sim, nv')) by reflexivity. rewrite <- E.
  rewrite accumulate_cells_miss by exact H.
  unfold _sum_up_values.
  apply (fold_row_miss
           (fun v i0 => v + at3 origin_values (fst index_ivec2)
                              (snd index_ivec2) i0 * 1)).
  tauto.
Qed.

(** The value [_cell_values_overlap] leaves in channel [k] of its target
    cell: own value with weight 1, the other cells with their
    similarities, over the accumulated weight. *)
Lemma cell_values_overlap_hit (id_flatten_maps origin_values new_values : ndarray3)
  (index_ivec2 : Z * Z) (cell_contains_pixel : Z) (contributions : ndarray2)
  (k : Z) :
  (0 <= k < shape3_last origin_values)%Z ->
  at3 (_cell_values_overlap id_flatten_maps origin_values new_values
         index_ivec2 cell_contains_pixel contributions)
      (fst index_ivec2) (snd index_ivec2) k
  == (at3 new_values (fst index_ivec2) (snd index_ivec2) k
      + at3 origin_values (fst index_ivec2) (snd index_ivec2) k * 1
      + weighted_sum id_flatten_maps origin_values index_ivec2
          cell_contains_pixel contributions
          (ndrange (shape3_0 origin_values) (shape3_1 origin_values)) k)
     * (1 / total_weight id_flatten_maps index_ivec2 cell_contains_pixel
              contributions
              (ndrange (shape3_0 origin_values) (shape3_1 origin_values))).
Proof.
  intros Hk. unfold _cell_values_overlap. cbv zeta.
  pose proof (accumulate_cells_weight id_flatten_maps origin_values
                index_ivec2 cell_contains_pixel contributions
                (ndrange (shape3_0 origin_values) (shape3_1 origin_values)) 1
                (_sum_up_values origin_values new_values
                   (shape3_last origin_values) index_ivec2 index_ivec2 1))
    as Hw.
  pose proof (accumulate_cells_hit id_flatten_maps origin_values
                index_ivec2 cell_contains_pixel contributions k
                (ndrange (shape3_0 origin_values) (shape3_1 origin_values))
                Hk 1
                (_sum_up_values origin_values new_values
                   (shape3_last origin_values) index_ivec2 index_ivec2 1))
    as Hv.
  destruct (accumulate_cells id_flatten_maps origin_values index_ivec2
              cell_contains_pixel contributions
              (ndrange (shape3_0 origin_values) (shape3_1 origin_values))
              (1, _sum_up_values origin_values new_values
                    (shape3_last origin_values) index_ivec2 index_ivec2 1))
    as [total_sim nv'] eqn:E.
  cbn [fst snd] in Hw, Hv.
  unfold _mult_values.
  rewrite (fold_row_hit (fun v _ => v * (1 / total_sim)))
    by (apply NoDup_range || (apply in_range; exact Hk)).
  rewrite Hv. unfold total_weight. rewrite <- Hw.
  unfold _sum_up_values.
  rewrite (fold_row_hit
             (fun v i0 => v + at3 origin_values (fst index_ivec2)
                                (snd index_ivec2) i0 * 1))
    by (apply NoDup_range || (apply in_range; exact Hk)).
  reflexivity.
Qed.

End KernelValues.

Section KernelMean.

Open Scope Q_scope.

Lemma in_ndrange (n0 n1 b i : Z) :
  In (b, i) (ndrange n0 n1) <-> (0 <= b < n0 /\ 0 <= i < n1)%Z.
Proof.
  unfold ndrange. rewrite in_flat_map. split.
  - intros (b' & Hb & Hi). apply in_map_iff in Hi.
    destruct Hi as (i' & Heq & Hi). injection Heq as -> ->.
    apply in_range in Hb, Hi. lia.
  - intros [Hb Hi]. exists b. split; [ apply in_range; lia | ].
    apply in_map_iff. exists i. split; [ reflexivity | apply in_range; lia ].
Qed.

Lemma NoDup_ndrange (n0 n1 : Z) : NoDup (ndrange n0 n1).
Proof.
  unfold ndrange.
  generalize (NoDup_range 0 n0). generalize (range 0 n0) as l0.
  induction l0 as [| b l0 IH]; intros Hnd; simpl; [ constructor | ].
  inversion Hnd as [| b' l0' Hb Hl0]; subst.
  apply NoDup_app.
  - apply Finite.Injective_map_NoDup; [ | apply NoDup_range ].
    intros x y Hxy. now injection Hxy.
  - apply IH. exact Hl0.
  - intros [b1 i1] H1 H2. apply in_map_iff in H1.
    destruct H1 as (i' & Heq & _). injection Heq as <- <-.
    apply in_flat_map in H2. destruct H2 as (b2 & Hb2 & Hi2).
    apply in_map_iff in Hi2. destruct Hi2 as (i2 & Heq2 & _).
    injection Heq2 as -> _. contradiction.
Qed.

Lemma other_cells_absent (idx : Z * Z) (cells : list (Z * Z)) :
  ~ In idx cells -> other_cells idx cells = cells.
Proof.
  induction cells as [| [b i] cells IH]; intros H; simpl; [ reflexivity | ].
  destruct (Z.eqb_spec b (fst idx)) as [Eb | Eb];
    destruct (Z.eqb_spec i (snd idx)) as [Ei | Ei]; simpl.
  - exfalso. apply H. left. destruct idx; simpl in *; congruence.
  - f_equal. apply IH. intros Hin. apply H. now right.
  - f_equal. apply IH. intros Hin. apply H. now right.
  - f_equal. apply IH. intros Hin. apply H. now right.
Qed.

(** The other cells and the target cell together are all cells. *)
Lemma Qsum_other_cells (f : Z * Z -> Q) (idx : Z * Z) (cells : list (Z * Z)) :
  NoDup cells -> In idx cells ->
  Qsum (map f (other_cells idx cells)) + f idx == Qsum (map f cells).
Proof.
  induction 1 as [| [b i] cells Hn Hnd IH]; intros Hin; [ destruct Hin | ].
  cbn [other_cells filter fst snd].
  destruct (Z.eqb_spec b (fst idx)) as [Eb | Eb];
    destruct (Z.eqb_spec i (snd idx)) as [Ei | Ei];
    cbn [andb negb map Qsum fold_right].
  - assert (Heq : (b, i) = idx) by (destruct idx; simpl in *; congruence).
    subst idx. fold (other_cells (b, i) cells).
    rewrite other_cells_absent by exact Hn. unfold Qsum. ring.
  - destruct Hin as [<- | Hin]; [ simpl in Ei; congruence | ].
    specialize (IH Hin). unfold other_cells, Qsum in *. rewrite <- IH. ring.
  - destruct Hin as [<- | Hin]; [ simpl in Eb; congruence | ].
    specialize (IH Hin). unfold other_cells, Qsum in *. rewrite <- IH. ring.
  - destruct Hin as [<- | Hin]; [ simpl in Eb; congruence | ].
    specialize (IH Hin). unfold other_cells, Qsum in *. rewrite <- IH. ring.
Qed.

Lemma Qsum_scale {A : Type} (f : A -> Q) (c : Q) (l : list A) :
  Qsum (map (fun a => f a * c) l) == Qsum (map f l) * c.
Proof.
  induction l as [| a l IH]; cbn [map Qsum fold_right]; [ ring | ].
  unfold Qsum in IH. rewrite IH. ring.
Qed.

(** Each iteration of the kernel writes its own cell only, so the kernel
    leaves in a cell what that cell's iteration computes from the
    placeholder it was given. *)
Lemma kernel_fold_miss (id_flatten_maps origin_values : ndarray3)
  (cell_contains_pixel : Z) (contributions : ndarray2)
  (cells : list (Z * Z)) :
  forall (new_values : ndarray3) (b i k : Z),
    ~ In (b, i) cells ->
    at3 (fold_left
           (fun new_values (bi : Z * Z) =>
              _cell_values_overlap id_flatten_maps origin_values new_values
                bi cell_contains_pixel contributions)
           cells new_values) b i k
    = at3 new_values b i k.
Proof.
  induction cells as [| [b0 i0] cells IH]; intros nv b i k H;
    [ reflexivity | ].
  cbn [fold_left]. rewrite IH by (intros Hin; apply H; now right).
  apply cell_values_overlap_miss. cbn [fst snd].
  destruct (Z.eq_dec b b0) as [-> | Hb]; [ | now left ].
  destruct (Z.eq_dec i i0) as [-> | Hi]; [ | now right ].
  exfalso. apply H. now left.
Qed.

Lemma kernel_fold_hit (id_flatten_maps origin_values : ndarray3)
  (cell_contains_pixel : Z) (contributions : ndarray2)
  (cells : list (Z * Z)) :
  NoDup cells ->
  forall (new_values : ndarray3) (b i k : Z),
    In (b, i) cells ->
    (0 <= k < shape3_last origin_values)%Z ->
    at3 (fold_left
           (fun new_values (bi : Z * Z) =>
              _cell_values_overlap id_flatten_maps origin_values new_values
                bi cell_contains_pixel contributions)
           cells new_values) b i k
    == (at3 new_values b i k + at3 origin_values b i k * 1
        + weighted_sum id_flatten_maps origin_values (b, i)
            cell_contains_pixel contributions
            (ndrange (shape3_0 origin_values) (shape3_1 origin_values)) k)
       * (1 / total_weight id_flatten_maps (b, i) cell_contains_pixel
                contributions
                (ndrange (shape3_0 origin_values) (shape3_1 origin_values))).
Proof.
  induction 1 as [| [b0 i0] cells Hn Hnd IH]; intros nv b i k Hin Hk;
    [ destruct Hin | ].
  cbn [fold_left]. destruct Hin as [Heq | Hin].
  - injection Heq as -> ->.
    rewrite kernel_fold_miss by exact Hn.
    apply (cell_values_overlap_hit id_flatten_maps origin_values nv (b, i)
             cell_contains_pixel contributions k Hk).
  - rewrite (IH _ b i k Hin Hk).
    rewrite cell_values_overlap_miss; [ reflexivity | ].
    cbn [fst snd].
    destruct (Z.eq_dec b b0) as [-> | Hb]; [ | now left ].
    destruct (Z.eq_dec i i0) as [-> | Hi]; [ | now right ].
    contradiction.
Qed.

(** When all pixels carry one identity tuple and contribute 1.0, the
    similarity of two cells is the number of their pixel pairs. *)
Lemma similarity_identical (id_flatten_maps : ndarray3) (idx bi : Z * Z)
  (cell_contains_pixel : Z) (contributions : ndarray2) :
  (forall b x b' x' c,
      at3 id_flatten_maps b x c == at3 id_flatten_maps b' x' c) ->
  (forall b x, at2 contributions b x == 1) ->
  similarity_to id_flatten_maps idx cell_contains_pixel contributions bi
  == inject_Z (Z.of_nat (Z.to_nat cell_contains_pixel))
     * inject_Z (Z.of_nat (Z.to_nat cell_contains_pixel)).
Proof.
  intros Hid Hc. unfold similarity_to. rewrite get_similarity_sum.
  cbn [fst snd].
  rewrite (Qsum_const _ (inject_Z (Z.of_nat (Z.to_nat cell_contains_pixel)))).
  - rewrite length_range.
    replace (snd idx * cell_contains_pixel + cell_contains_pixel
             - snd idx * cell_contains_pixel)%Z
      with cell_contains_pixel by lia.
    reflexivity.
  - intros x _. rewrite (Qsum_const _ 1).
    + rewrite length_range.
      replace (snd bi * cell_contains_pixel + cell_contains_pixel
               - snd bi * cell_contains_pixel)%Z
        with cell_contains_pixel by lia.
      ring.
    + intros i _. rewrite !Hc.
      rewrite check_values_equal_same by (intros c; apply Hid).
      reflexivity.
Qed.

End KernelMean.

Section KernelClaims.

Open Scope Q_scope.

(** With one identity tuple everywhere, contribution 1.0 and a zeroed
    placeholder, a cell's own value enters with weight 1 and every other
    cell's value with weight [pixels_per_cell ^ 2]. *)
Lemma consensus_identical_cells
  (id_flatten_maps origin_values new_values : ndarray3)
  (contributions : ndarray2) (b i k : Z) :
  (forall b x b' x' c,
      at3 id_flatten_maps b x c == at3 id_flatten_maps b' x' c) ->
  (forall b x, at2 contributions b x == 1) ->
  (forall b i k, at3 new_values b i k == 0) ->
  (0 <= b < shape3_0 origin_values)%Z ->
  (0 <= i < shape3_1 origin_values)%Z ->
  (0 <= k < shape3_last origin_values)%Z ->
  let pixels_per_cell :=
    inject_Z (Z.of_nat (Z.to_nat
      (shape3_1 id_flatten_maps / shape3_1 origin_values))) in
  let others :=
    other_cells (b, i)
      (ndrange (shape3_0 origin_values) (shape3_1 origin_values)) in
  at3 (taichi_cells_overlap id_flatten_maps origin_values new_values
         contributions) b i k
  == (at3 origin_values b i k
      + pixels_per_cell * pixels_per_cell
        * Qsum (map (fun bi : Z * Z => at3 origin_values (fst bi) (snd bi) k)
                    others))
     / (1 + pixels_per_cell * pixels_per_cell
            * inject_Z (Z.of_nat (length others))).
Proof.
  intros Hid Hc Hz Hb Hi Hk p others.
  unfold taichi_cells_overlap. cbv zeta.
  rewrite kernel_fold_hit;
    [ | apply NoDup_ndrange | apply in_ndrange; split; assumption
      | exact Hk ].
  rewrite Hz. unfold weighted_sum, total_weight. fold others.
  rewrite (Qsum_ext
             (fun bi : Z * Z =>
                at3 origin_values (fst bi) (snd bi) k
                * similarity_to id_flatten_maps (b, i)
                    (shape3_1 id_flatten_maps / shape3_1 origin_values)
                    contributions bi)
             (fun bi : Z * Z =>
                at3 origin_values (fst bi) (snd bi) k * (p * p)))
    by (intros bi _; rewrite similarity_identical by assumption;
        reflexivity).
  rewrite Qsum_scale.
  rewrite (Qsum_const
             (similarity_to id_flatten_maps (b, i)
                (shape3_1 id_flatten_maps / shape3_1 origin_values)
                contributions)
             (p * p) others)
    by (intros bi _; rewrite similarity_identical by assumption;
        reflexivity).
  unfold Qdiv. rewrite Qmult_1_l.
  apply Qmult_comp; [ ring | apply Qinv_comp; ring ].
Qed.

(** C4, as the code has it.  If all pixels of all N cells carry one
    identity tuple, every contribution is 1.0, the placeholder is zeroed
    and every cell holds ONE pixel, the output of every cell is the
    unweighted mean of the N cells' values. *)
Theorem consensus_mean_single_pixel_cells :
  forall (id_flatten_maps origin_values new_values : ndarray3)
         (contributions : ndarray2),
    (shape3_1 id_flatten_maps / shape3_1 origin_values)%Z = 1%Z ->
    (forall b x b' x' c,
        at3 id_flatten_maps b x c == at3 id_flatten_maps b' x' c) ->
    (forall b x, at2 contributions b x == 1) ->
    (forall b i k, at3 new_values b i k == 0) ->
    forall b i k,
      (0 <= b < shape3_0 origin_values)%Z ->
      (0 <= i < shape3_1 origin_values)%Z ->
      (0 <= k < shape3_last origin_values)%Z ->
      at3 (taichi_cells_overlap id_flatten_maps origin_values new_values
             contributions) b i k
      == cells_mean origin_values
           (ndrange (shape3_0 origin_values) (shape3_1 origin_values)) k.
Proof.
  intros id ov nv contributions Hppc Hid Hc Hz b i k Hb Hi Hk.
  rewrite consensus_identical_cells by assumption.
  rewrite Hppc. change (inject_Z (Z.of_nat (Z.to_nat 1))) with 1.
  set (cells := ndrange (shape3_0 ov) (shape3_1 ov)).
  assert (Hnd : NoDup cells) by apply NoDup_ndrange.
  assert (Hin : In (b, i) cells) by (apply in_ndrange; split; assumption).
  pose proof (Qsum_other_cells
                (fun bi : Z * Z => at3 ov (fst bi) (snd bi) k)
                (b, i) cells Hnd Hin) as Hsum.
  pose proof (Qsum_other_cells (fun _ : Z * Z => 1) (b, i) cells Hnd Hin)
    as Hlen.
  rewrite (Qsum_const (fun _ : Z * Z => 1) 1 (other_cells (b, i) cells))
    in Hlen by (intros; reflexivity).
  rewrite (Qsum_const (fun _ : Z * Z => 1) 1 cells)
    in Hlen by (intros; reflexivity).
  cbn [fst snd] in Hsum.
  unfold cells_mean, Qdiv.
  apply Qmult_comp.
  - rewrite <- Hsum. ring.
  - apply Qinv_comp.
    setoid_replace (inject_Z (Z.of_nat (length cells)))
      with (inject_Z (Z.of_nat (length cells)) * 1) by ring.
    rewrite <- Hlen. ring.
Qed.

(** The scenario of the specification: 2 cells of one pixel, identical
    identity tuples, contributions 1.0, values 10 and 30. *)
Lemma consensus_mean_single_pixel_cells_witness :
  ((shape3_1 (same_identity 2) / shape3_1 two_cells)%Z = 1%Z
   /\ (forall b x b' x' c,
          at3 (same_identity 2) b x c == at3 (same_identity 2) b' x' c)
   /\ (forall b x, at2 (unit_contributions 2) b x == 1)
   /\ (forall b i k, at3 zero_placeholder b i k == 0))
  /\ (at3 (taichi_cells_overlap (same_identity 2) two_cells zero_placeholder
             (unit_contributions 2)) 0 0 0
      == cells_mean two_cells (ndrange 1 2) 0
      /\ at3 (taichi_cells_overlap (same_identity 2) two_cells
                zero_placeholder (unit_contributions 2)) 0 1 0
         == cells_mean two_cells (ndrange 1 2) 0)
  /\ cells_mean two_cells (ndrange 1 2) 0 == 20.
Proof.
  assert (H1 : (shape3_1 (same_identity 2) / shape3_1 two_cells)%Z = 1%Z)
    by reflexivity.
  assert (H2 : forall b x b' x' c,
             at3 (same_identity 2) b x c == at3 (same_identity 2) b' x' c)
    by (intros; reflexivity).
  assert (H3 : forall b x, at2 (unit_contributions 2) b x == 1)
    by (intros; reflexivity).
  assert (H4 : forall b i k, at3 zero_placeholder b i k == 0)
    by (intros; reflexivity).
  split; [ repeat split; assumption | ].
  split; [ split | reflexivity ].
  - apply (consensus_mean_single_pixel_cells (same_identity 2) two_cells
             zero_placeholder (unit_contributions 2) H1 H2 H3 H4 0 0 0);
      cbv [shape3_0 shape3_1 shape3_last two_cells shape3 fst snd]; lia.
  - apply (consensus_mean_single_pixel_cells (same_identity 2) two_cells
             zero_placeholder (unit_contributions 2) H1 H2 H3 H4 0 1 0);
      cbv [shape3_0 shape3_1 shape3_last two_cells shape3 fst snd]; lia.
Defined.

(** C4 as stated fails when a cell holds more than one pixel: with two
    cells of two pixels, values 10 and 30, identical identity tuples,
    contributions 1.0 and a zeroed placeholder, the first cell gets
    (10 + 4 * 30) / (1 + 4) = 26 and the second 14; the mean is 20. *)
Lemma consensus_two_pixel_cells_not_mean :
  ((forall b x b' x' c,
       at3 (same_identity 4) b x c == at3 (same_identity 4) b' x' c)
   /\ (forall b x, at2 (unit_contributions 4) b x == 1)
   /\ (forall b i k, at3 zero_placeholder b i k == 0))
  /\ (shape3_1 (same_identity 4) / shape3_1 two_cells)%Z = 2%Z
  /\ at3 (taichi_cells_overlap (same_identity 4) two_cells zero_placeholder
            (unit_contributions 4)) 0 0 0 == 26
  /\ at3 (taichi_cells_overlap (same_identity 4) two_cells zero_placeholder
            (unit_contributions 4)) 0 1 0 == 14
  /\ cells_mean two_cells (ndrange 1 2) 0 == 20
  /\ ~ at3 (taichi_cells_overlap (same_identity 4) two_cells zero_placeholder
              (unit_contributions 4)) 0 0 0
       == cells_mean two_cells (ndrange 1 2) 0.
Proof.
  split; [ repeat split; intros; reflexivity | ].
  split; [ reflexivity | ].
  split; [ vm_compute; reflexivity | ].
  split; [ vm_compute; reflexivity | ].
  split; [ vm_compute; reflexivity | ].
  vm_compute. discriminate.
Qed.

End KernelClaims.

(* ================================================================== *)
(** * Properties: shapes and loops                                     *)
(* ================================================================== *)

Lemma for_each_length {A B : Type} (f : A -> result B) (l : list A) :
  forall bs, for_each f l = Ok bs -> length bs = length l.
Proof.
  induction l as [| a l IH]; intros bs H; simpl in H.
  - injection H as <-. reflexivity.
  - destruct (f a) as [b | e]; simpl in H; [ | discriminate ].
    destruct (for_each f l) as [bs' | e]; simpl in H; [ | discriminate ].
    injection H as <-. simpl. f_equal. now apply IH.
Qed.

(** A comprehension succeeds with the list of the results of its
    elements. *)
Lemma for_each_Ok_nth {A B : Type} (f : A -> result B) (l : list A) :
  forall bs,
    length bs = length l ->
    (forall k a, nth_error l k = Some a ->
                 exists b, f a = Ok b /\ nth_error bs k = Some b) ->
    for_each f l = Ok bs.
Proof.
  induction l as [| a l IH]; intros [| b bs] Hlen H; simpl in Hlen;
    try discriminate; [ reflexivity | ].
  simpl. destruct (H 0%nat a eq_refl) as (b' & -> & Hb).
  simpl in Hb. injection Hb as ->. simpl.
  rewrite (IH bs); [ reflexivity | lia | ].
  intros k a' Ha'. exact (H (S k) a' Ha').
Qed.

Lemma for_each_Ok_all {A B : Type} (f : A -> result B) (l : list A) :
  (forall a, In a l -> exists b, f a = Ok b) ->
  exists bs, for_each f l = Ok bs.
Proof.
  induction l as [| a l IH]; intros H; simpl; [ eauto | ].
  destruct (H a (or_introl eq_refl)) as (b & ->).
  destruct IH as (bs & ->); [ intros; apply H; now right | ].
  simpl. eauto.
Qed.

Lemma for_each_Ok_map {A B : Type} (f : A -> result B) (g : A -> B)
  (l : list A) :
  (forall a, In a l -> f a = Ok (g a)) ->
  for_each f l = Ok (map g l).
Proof.
  induction l as [| a l IH]; intros H; simpl; [ reflexivity | ].
  rewrite (H a) by now left. simpl.
  rewrite IH by (intros; apply H; now right). reflexivity.
Qed.

Lemma nth_error_combine {A B : Type} (l1 : list A) (l2 : list B) (k : nat) :
  nth_error (combine l1 l2) k
  = match nth_error l1 k, nth_error l2 k with
    | Some a, Some b => Some (a, b)
    | _, _ => None
    end.
Proof.
  revert l2 k. induction l1 as [| a l1 IH]; intros [| b l2] [| k]; simpl;
    try reflexivity.
  - now destruct (nth_error l1 k).
  - apply IH.
Qed.

Lemma for_loop_invariant {A S : Type} (P : S -> Prop)
  (body : A -> S -> result S) (l : list A) :
  (forall a s s', In a l -> P s -> body a s = Ok s' -> P s') ->
  forall s s', P s -> for_loop body l s = Ok s' -> P s'.
Proof.
  induction l as [| a l IH]; intros Hbody s s' Hs H; simpl in H.
  - now injection H as <-.
  - destruct (body a s) as [s1 | e] eqn:E; simpl in H; [ | discriminate ].
    apply (IH (fun a' s0 s0' Ha' => Hbody a' s0 s0' (or_intror Ha')) s1 s');
      [ | exact H ].
    apply (Hbody a s s1); auto. now left.
Qed.

Lemma put_block_shape (s : FrameStack) (p : point) (blk : Block) :
  stack_shape (put_block s p blk) = stack_shape s.
Proof. destruct p as [[f y] x]. reflexivity. Qed.

Lemma scatter_shape (pts : list point) (blocks : list Block) :
  forall s, stack_shape (scatter s pts blocks) = stack_shape s.
Proof.
  unfold scatter. generalize (combine pts blocks) as l.
  induction l as [| [p blk] l IH]; intros s; simpl; [ reflexivity | ].
  now rewrite IH, put_block_shape.
Qed.

Lemma overlap_step_shape
  (algorithm : list Block -> list Z -> list Z -> list Z -> result (list Block))
  (alpha : Q) (R : Z) (v_info : list occurrence) (st st' : loop_state) :
  overlap_step algorithm alpha R v_info st = Ok st' ->
  stack_shape (frame_seq_stack st') = stack_shape (frame_seq_stack st).
Proof.
  unfold overlap_step. intros H.
  destruct (length v_info =? 1)%nat; [ now injection H as <- | ].
  destruct v_info as [| o v]; [ discriminate | ].
  apply bind_Ok_inv in H. destruct H as ([[pts latent] avg] & _ & H).
  apply bind_Ok_inv in H. destruct H as (ov & _ & H).
  apply bind_Ok_inv in H. destruct H as (ov' & _ & H).
  injection H as <-. simpl. apply scatter_shape.
Qed.

Lemma torch_stack_shape (frame_seq : list Frame) (s : FrameStack) :
  torch_stack frame_seq = Ok s ->
  fst (fst (fst (fst (stack_shape s)))) = Z.of_nat (length frame_seq).
Proof.
  unfold torch_stack. destruct frame_seq as [| fr0 rest]; [ discriminate | ].
  destruct (forallb _ (fr0 :: rest)); [ | discriminate ].
  destruct (frame_shape fr0) as [[[b c] h] w].
  intros H. injection H as <-. reflexivity.
Qed.

(** [Overlap.__call__] returns as many frames as it was given. *)
Lemma Overlap_call_frames
  (algorithm : list Block -> list Z -> list Z -> list Z -> result (list Block))
  (is_engine_looping : bool)
  (alpha_scheduler kernel_radius_scheduler : option Z -> option Q -> Q)
  (frame_seq : list Frame) (corr_map : CorrespondenceMap)
  (step : option Z) (timestep : option Q) (out : FrameStack) :
  Overlap_call algorithm is_engine_looping alpha_scheduler
    kernel_radius_scheduler frame_seq corr_map step timestep = Ok out ->
  length (unstack out) = length frame_seq.
Proof.
  unfold Overlap_call. intros H.
  destruct frame_seq as [| fr0 rest]; [ discriminate | ].
  destruct (frame_shape fr0) as [[[b c] h] w].
  destruct (negb _); [ discriminate | ].
  apply bind_Ok_inv in H. destruct H as (stack & Hstack & H).
  apply bind_Ok_inv in H. destruct H as (u & _ & H).
  apply bind_Ok_inv in H. destruct H as (st & Hloop & H).
  injection H as <-.
  assert (Hshape : stack_shape (frame_seq_stack st) = stack_shape stack).
  { refine (for_loop_invariant
              (fun st0 => stack_shape (frame_seq_stack st0) = stack_shape stack)
              _ _ _ (initial_state stack) st eq_refl Hloop).
    intros iv s0 s0' _ Hs0 Hbody.
    apply bind_Ok_inv in Hbody. destruct Hbody as (u' & _ & Hbody).
    apply overlap_step_shape in Hbody. congruence. }
  apply torch_stack_shape in Hstack.
  unfold unstack. rewrite Hshape.
  destruct (stack_shape stack) as [[[[t b'] c'] h'] w']. cbn [fst] in Hstack.
  rewrite length_map, length_range, Hstack. lia.
Qed.

(** The merge, frame by frame. *)
Lemma merge_with_original_spec (ovlp_seq frame_seq : list Frame) :
  length ovlp_seq = length frame_seq ->
  merge_with_original (Z.of_nat (length frame_seq)) ovlp_seq frame_seq
  = Ok (map (fun p : Frame * Frame => where_nonzero (fst p) (snd p))
            (combine ovlp_seq frame_seq)).
Proof.
  intros Hlen. unfold merge_with_original.
  apply for_each_Ok_nth.
  - rewrite length_map, length_combine, length_range. lia.
  - intros k i Hk.
    assert (Hlt : (k < length frame_seq)%nat).
    { assert (Hk' : nth_error (range 0 (Z.of_nat (length frame_seq))) k
                    <> None) by congruence.
      apply nth_error_Some in Hk'. rewrite length_range in Hk'. lia. }
    rewrite nth_error_range in Hk by lia.
    assert (Hi : Z.to_nat i = k) by (injection Hk as <-; lia).
    unfold list_get. rewrite Hi.
    rewrite nth_error_map, nth_error_combine.
    destruct (nth_error ovlp_seq k) as [o |] eqn:Eo;
      [ | apply nth_error_None in Eo; lia ].
    destruct (nth_error frame_seq k) as [fr |] eqn:Ef;
      [ | apply nth_error_None in Ef; lia ].
    simpl. eauto.
Qed.

(* ================================================================== *)
(** * Properties: the merge of the resize adapter                      *)
(* ================================================================== *)

Lemma where_nonzero_at (ovlp frame : Frame) (b c y x : Z) :
  ((~ frame_at ovlp b c y x == 0)%Q ->
   frame_at (where_nonzero ovlp frame) b c y x = frame_at ovlp b c y x)
  /\ ((frame_at ovlp b c y x == 0)%Q ->
      frame_at (where_nonzero ovlp frame) b c y x = frame_at frame b c y x).
Proof.
  simpl. destruct (Qeq_bool (frame_at ovlp b c y x) 0) eqn:E; simpl.
  - apply Qeq_bool_iff in E. split; [ intros H; contradiction | reflexivity ].
  - split; [ reflexivity | ].
    intros H. apply Qeq_bool_iff in H. congruence.
Qed.

(** C9. Once the blended frames have been resized back to the native
    resolution, the adapter returns, for every frame and every element, the
    resized-back blended value where that value is not exactly zero, and
    the value of the original input frame where it is exactly zero. *)
Theorem resize_merge_zero_sentinel :
  forall (algorithm :
            list Block -> list Z -> list Z -> list Z -> result (list Block))
         (is_engine_looping : bool)
         (alpha_scheduler kernel_radius_scheduler : option Z -> option Q -> Q)
         (F_interpolate : Frame -> Z * Z -> string -> option bool -> result Frame)
         (interpolate_mode : string)
         (fr0 : Frame) (frame_seq : list Frame) (corr_map : CorrespondenceMap)
         (step : option Z) (timestep : option Q)
         (resized : list Frame) (blended : FrameStack) (back : list Frame),
    (~ alpha_scheduler step timestep == 0)%Q ->
    snd (fst (frame_shape fr0)) <> 0 ->
    resize_all F_interpolate interpolate_mode (fr0 :: frame_seq)
      (height corr_map, width corr_map) = Ok resized ->
    Overlap_call algorithm is_engine_looping alpha_scheduler
      kernel_radius_scheduler resized corr_map step timestep = Ok blended ->
    resize_all F_interpolate interpolate_mode (unstack blended)
      (snd (fst (frame_shape fr0)), snd (frame_shape fr0)) = Ok back ->
    exists merged,
      ResizeOverlap_call algorithm is_engine_looping alpha_scheduler
        kernel_radius_scheduler F_interpolate interpolate_mode
        (fr0 :: frame_seq) corr_map step timestep = Ok merged
      /\ length merged = length (fr0 :: frame_seq)
      /\ forall i frame,
           nth_error (fr0 :: frame_seq) i = Some frame ->
           exists ovlp m,
             nth_error back i = Some ovlp
             /\ nth_error merged i = Some m
             /\ forall b c y x,
                  ((~ frame_at ovlp b c y x == 0)%Q ->
                   frame_at m b c y x = frame_at ovlp b c y x)
                  /\ ((frame_at ovlp b c y x == 0)%Q ->
                      frame_at m b c y x = frame_at frame b c y x).
Proof.
  intros algorithm looping alpha_s radius_s F mode fr0 frame_seq corr_map
    step timestep resized blended back Halpha Hh Hup Hcall Hback.
  assert (Hlen : length back = length (fr0 :: frame_seq)).
  { rewrite (for_each_length _ _ _ Hback).
    rewrite (Overlap_call_frames _ _ _ _ _ _ _ _ _ Hcall).
    exact (for_each_length _ _ _ Hup). }
  exists (map (fun p : Frame * Frame => where_nonzero (fst p) (snd p))
              (combine back (fr0 :: frame_seq))).
  split; [ | split ].
  - unfold ResizeOverlap_call.
    destruct (Qeq_bool (alpha_s step timestep) 0) eqn:E;
      [ apply Qeq_bool_iff in E; contradiction | ].
    unfold size. destruct (frame_shape fr0) as [[[b c] h] w].
    cbn [fst snd] in Hh, Hback. rewrite Hup. unfold bind at 1.
    rewrite Hcall. unfold bind at 1. rewrite Hback. unfold bind at 1.
    destruct (Z.eqb_spec h 0) as [-> | _]; [ contradiction | ].
    now apply merge_with_original_spec.
  - rewrite length_map, length_combine. lia.
  - intros i frame Hi.
    destruct (nth_error back i) as [ovlp |] eqn:Eo.
    + exists ovlp, (where_nonzero ovlp frame).
      split; [ reflexivity | ]. split.
      * rewrite nth_error_map, nth_error_combine, Eo, Hi. reflexivity.
      * intros b c y x. apply where_nonzero_at.
    + exfalso. apply nth_error_None in Eo.
      assert (nth_error (fr0 :: frame_seq) i <> None) by congruence.
      apply nth_error_Some in H. lia.
Qed.

Lemma resize_merge_zero_sentinel_witness :
  ((~ 1 == 0)%Q /\ (1 : Z) <> 0)
  /\ exists merged,
       ResizeOverlap_call mean_algorithm true (fun _ _ => 1%Q)
         (fun _ _ => 0%Q) nearest_interpolate "nearest" scenario_frames
         scenario_map None None = Ok merged
       /\ length merged = 3%nat.
Proof.
  assert (H1 : (~ 1 == 0)%Q) by discriminate.
  assert (H2 : (1 : Z) <> 0) by discriminate.
  split; [ split; assumption | ].
  destruct (resize_merge_zero_sentinel mean_algorithm true (fun _ _ => 1%Q)
              (fun _ _ => 0%Q) nearest_interpolate "nearest"
              (gray_frame 1 1 (fun _ _ => 10%Q))
              [gray_frame 1 1 (fun _ _ => 20%Q);
               gray_frame 1 1 (fun _ _ => 30%Q)]
              scenario_map None None _ _ _ H1 H2 eq_refl eq_refl eq_refl)
    as (merged & Hrun & Hlen & _).
  exists merged. split; [ exact Hrun | exact Hlen ].
Defined.

(* ================================================================== *)
(** * Properties: what one id reads and writes                         *)
(* ================================================================== *)

Lemma trace_points_map (v_info : list occurrence) :
  trace_points v_info
  = map (fun o : occurrence => (snd o, fst (fst o), snd (fst o))) v_info.
Proof.
  unfold trace_points, frame_index_trace_of, y_position_trace_of,
    x_position_trace_of.
  induction v_info as [| o v IH]; simpl; [ reflexivity | ].
  now rewrite IH.
Qed.

Lemma trace_points_length (v_info : list occurrence) :
  length (trace_points v_info) = length v_info.
Proof. now rewrite trace_points_map, length_map. Qed.

Lemma in_zip3 (fs ys xs : list Z) (f y x : Z) :
  In (f, y, x) (zip3 fs ys xs) -> In f fs /\ In y ys /\ In x xs.
Proof.
  revert ys xs. induction fs as [| f0 fs IH]; intros [| y0 ys] [| x0 xs] H;
    simpl in H; try contradiction.
  destruct H as [H | H].
  - injection H as -> -> ->. simpl. auto.
  - destruct (IH ys xs H) as (? & ? & ?). simpl. auto.
Qed.

Lemma resolve_in_bounds (s : FrameStack) (p : point) :
  in_bounds s p -> resolve s p = Ok p.
Proof.
  unfold in_bounds, resolve, wrap_index.
  destruct (stack_shape s) as [[[[t b] c] h] w]. destruct p as [[f y] x].
  intros (Hf & Hy & Hx).
  replace ((0 <=? f) && (f <? t)) with true by lia.
  replace ((0 <=? y) && (y <? h)) with true by lia.
  replace ((0 <=? x) && (x <? w)) with true by lia.
  reflexivity.
Qed.

Lemma gather_in_bounds (s : FrameStack) (fs ys xs : list Z) :
  (forall p, In p (zip3 fs ys xs) -> in_bounds s p) ->
  gather s fs ys xs
  = Ok (zip3 fs ys xs, map (block_at s) (zip3 fs ys xs)).
Proof.
  intros H. unfold gather.
  rewrite (for_each_Ok_map (resolve s) (fun p => p))
    by (intros p Hp; apply resolve_in_bounds, H, Hp).
  rewrite map_id. reflexivity.
Qed.

(** The clamped positions of a window lie inside a non-empty dimension. *)
Lemma window_positions_bounds (R dim pos z : Z) :
  1 <= dim -> In z (window_positions R dim pos) -> 0 <= z < dim.
Proof.
  intros Hdim Hz. unfold window_positions in Hz. apply in_map_iff in Hz.
  destruct Hz as (i & <- & _). lia.
Qed.

(** For traces of one length the three extended traces are, entry by
    entry, the windows of the trace points. *)
Lemma get_extended_traces_windows (R : Z) (fs xs ys : list Z)
  (max_x max_y : Z) :
  length ys = length fs ->
  length xs = length fs ->
  _get_extended_traces R fs xs ys max_x max_y
  = Ok (map (fun f => Window (repeat f (length (range (- R) (R + 1))))) fs,
        map (fun y => Window (window_positions R max_y y)) ys,
        map (fun x => Window (window_positions R max_x x)) xs).
Proof.
  intros Hys Hxs. unfold _get_extended_traces.
  destruct (extend_loop_spec R max_x max_y fs (combine ys xs) 0
              (map Scalar fs) (map Scalar ys) (map Scalar xs))
    as (ef & ey & ex & -> & Lf & Ly & Lx & _ & Hin);
    rewrite ?length_combine, ?length_map; try lia.
  rewrite length_map in Lf, Ly, Lx.
  assert (Hk : forall k, (k < length fs)%nat ->
            exists f y x,
              nth_error fs k = Some f /\ nth_error ys k = Some y
              /\ nth_error xs k = Some x
              /\ nth_error (combine ys xs) k = Some (y, x)).
  { intros k Hlt.
    destruct (nth_error fs k) as [f |] eqn:Ef;
      [ | apply nth_error_None in Ef; lia ].
    destruct (nth_error ys k) as [y |] eqn:Ey;
      [ | apply nth_error_None in Ey; lia ].
    destruct (nth_error xs k) as [x |] eqn:Ex;
      [ | apply nth_error_None in Ex; lia ].
    exists f, y, x. rewrite nth_error_combine, Ey, Ex. auto. }
  f_equal. f_equal; [ f_equal | ]; apply nth_error_ext; intros k;
    rewrite nth_error_map;
    destruct (Nat.lt_ge_cases k (length fs)) as [Hlt | Hge].
  - destruct (Hk k Hlt) as (f & y & x & Ef & Ey & Ex & Ez).
    destruct (Hin k y x f Ez Ef) as (H & _ & _). simpl in H.
    rewrite H, Ef. simpl. unfold window_positions. now rewrite length_map.
  - rewrite (proj2 (nth_error_None ef k)) by lia.
    now rewrite (proj2 (nth_error_None fs k)) by lia.
  - destruct (Hk k Hlt) as (f & y & x & Ef & Ey & Ex & Ez).
    destruct (Hin k y x f Ez Ef) as (_ & H & _). simpl in H.
    now rewrite H, Ey.
  - rewrite (proj2 (nth_error_None ey k)) by lia.
    now rewrite (proj2 (nth_error_None ys k)) by lia.
  - destruct (Hk k Hlt) as (f & y & x & Ef & Ey & Ex & Ez).
    destruct (Hin k y x f Ez Ef) as (_ & _ & H). simpl in H.
    now rewrite H, Ex.
  - rewrite (proj2 (nth_error_None ex k)) by lia.
    now rewrite (proj2 (nth_error_None xs k)) by lia.
Qed.

Lemma as_windows_map {A : Type} (g : A -> list Z) (n : nat) (l : list A) :
  (forall a, In a l -> length (g a) = n) ->
  as_windows (map (fun a => Window (g a)) l) = Ok (map g l).
Proof.
  intros Hlen. unfold as_windows.
  rewrite (for_each_Ok_map _ (fun e => match e with
                                       | Window zs => zs
                                       | Scalar _ => []
                                       end)).
  - rewrite map_map. simpl.
    destruct (map g l) as [| w0 ws] eqn:E; [ reflexivity | ].
    assert (Hall : forall w, In w (w0 :: ws) -> length w = n).
    { rewrite <- E. intros w Hw. apply in_map_iff in Hw.
      destruct Hw as (a & <- & Ha). now apply Hlen. }
    rewrite (proj2 (forallb_forall _ _)); [ reflexivity | ].
    intros w Hw. apply Nat.eqb_eq.
    rewrite (Hall w Hw), (Hall w0); [ reflexivity | now left ].
  - intros e He. apply in_map_iff in He. destruct He as (a & <- & _).
    reflexivity.
Qed.

Lemma in_combine3 {A B C : Type} (la : list A) (lb : list B) (lc : list C)
  (a : A) (b : B) (c : C) :
  In (a, b, c) (combine (combine la lb) lc) ->
  exists k, nth_error la k = Some a /\ nth_error lb k = Some b
            /\ nth_error lc k = Some c.
Proof.
  intros H. apply In_nth_error in H. destruct H as (k & Hk). exists k.
  rewrite !nth_error_combine in Hk.
  destruct (nth_error la k), (nth_error lb k), (nth_error lc k);
    try discriminate.
  now injection Hk as -> -> ->.
Qed.

(** The window averages of an id whose trace points lie inside the stack
    can be gathered: one block per occurrence. *)
Lemma gather_mean_in_bounds (R : Z) (v_info : list occurrence)
  (s : FrameStack) (t b c h w : Z) :
  stack_shape s = (t, b, c, h, w) ->
  v_info <> [] ->
  (forall p, In p (trace_points v_info) -> in_bounds s p) ->
  exists avg,
    gather_mean s
      (map (fun f => Window (repeat f (length (range (- R) (R + 1)))))
           (frame_index_trace_of v_info),
       map (fun y => Window (window_positions R h y))
           (y_position_trace_of v_info),
       map (fun x => Window (window_positions R w x))
           (x_position_trace_of v_info))
    = Ok avg
    /\ length avg = length v_info.
Proof.
  intros Hshape Hne Hin. unfold gather_mean.
  assert (Hocc : forall o, In o v_info ->
            0 <= snd o < t /\ 0 <= fst (fst o) < h /\ 0 <= snd (fst o) < w).
  { intros o Ho.
    assert (Hp : In (snd o, fst (fst o), snd (fst o)) (trace_points v_info)).
    { rewrite trace_points_map. apply in_map_iff. now exists o. }
    specialize (Hin _ Hp). unfold in_bounds in Hin.
    now rewrite Hshape in Hin. }
  assert (Hdim : 1 <= h /\ 1 <= w).
  { destruct v_info as [| o v]; [ contradiction | ].
    destruct (Hocc o (or_introl eq_refl)) as (_ & ? & ?). lia. }
  rewrite (as_windows_map (fun f => repeat f (length (range (- R) (R + 1))))
             (length (range (- R) (R + 1))))
    by (intros; apply repeat_length).
  rewrite (as_windows_map (window_positions R h)
             (length (range (- R) (R + 1))))
    by (intros; unfold window_positions; apply length_map).
  rewrite (as_windows_map (window_positions R w)
             (length (range (- R) (R + 1))))
    by (intros; unfold window_positions; apply length_map).
  cbn [bind].
  match goal with
  | |- exists avg, for_each ?f ?l = Ok avg /\ _ =>
      destruct (for_each_Ok_all f l) as (avg & Havg)
  end.
  - intros [[fs ys] xs] Hw. apply in_combine3 in Hw.
    destruct Hw as (k & Hf & Hy & Hx).
    unfold frame_index_trace_of in Hf. unfold y_position_trace_of in Hy.
    unfold x_position_trace_of in Hx.
    rewrite !nth_error_map in Hf, Hy, Hx.
    unfold occurrence in *.
    destruct (nth_error v_info k) as [o |] eqn:Eo; [ | discriminate ].
    simpl in Hf, Hy, Hx. injection Hf as <-. injection Hy as <-.
    injection Hx as <-.
    apply nth_error_In in Eo. destruct (Hocc o Eo) as (Ht & _ & _).
    rewrite gather_in_bounds.
    + simpl. eauto.
    + intros [[f' y'] x'] Hp. apply in_zip3 in Hp.
      destruct Hp as (Hf' & Hy' & Hx').
      apply repeat_spec in Hf'. subst f'.
      apply window_positions_bounds in Hy'; [ | lia ].
      apply window_positions_bounds in Hx'; [ | lia ].
      unfold in_bounds. rewrite Hshape. lia.
  - exists avg. split; [ exact Havg | ].
    rewrite (for_each_length _ _ _ Havg).
    rewrite !length_combine, !length_map.
    unfold frame_index_trace_of, y_position_trace_of, x_position_trace_of.
    rewrite !length_map. unfold occurrence. now rewrite !Nat.min_id.
Qed.

Section StepFacts.

Variable algorithm :
  list Block -> list Z -> list Z -> list Z -> result (list Block).

(** The consensus algorithm returns one block per occurrence. *)
Hypothesis algorithm_total :
  forall avg fs xs ys,
    exists out, algorithm avg fs xs ys = Ok out /\ length out = length avg.

Lemma read_traces_in_bounds (R : Z) (v_info : list occurrence)
  (s : FrameStack) :
  v_info <> [] ->
  (forall p, In p (trace_points v_info) -> in_bounds s p) ->
  exists avg,
    read_traces R v_info s
    = Ok (trace_points v_info, map (block_at s) (trace_points v_info), avg)
    /\ length avg = length v_info.
Proof.
  intros Hne Hin. unfold read_traces.
  destruct (stack_shape s) as [[[[t b] c] h] w] eqn:Hshape.
  rewrite get_extended_traces_windows
    by (unfold frame_index_trace_of, y_position_trace_of,
          x_position_trace_of; now rewrite !length_map).
  cbn [bind].
  fold (trace_points v_info) in *.
  rewrite gather_in_bounds by exact Hin.
  cbn [bind].
  destruct (gather_mean_in_bounds R v_info s t b c h w Hshape Hne Hin)
    as (avg & -> & Hlen).
  cbn [bind]. eauto.
Qed.

(** An id with several occurrences, all inside the stack: the step
    succeeds, and it scatters the blend of the consensus with the blocks
    read at the trace points. *)
Lemma overlap_step_rewrites (alpha : Q) (R : Z) (v_info : list occurrence)
  (st : loop_state) :
  (2 <= length v_info)%nat ->
  (forall p, In p (trace_points v_info) -> in_bounds (frame_seq_stack st) p) ->
  exists cons,
    consensus algorithm R v_info (frame_seq_stack st) = Ok cons
    /\ length cons = length v_info
    /\ overlap_step algorithm alpha R v_info st
       = Ok {| frame_seq_stack :=
                 scatter (frame_seq_stack st) (trace_points v_info)
                   (blend alpha cons
                      (map (block_at (frame_seq_stack st))
                           (trace_points v_info)));
               len_1_vertex_count := len_1_vertex_count st;
               avg_trace_length :=
                 avg_trace_length st + Z.of_nat (length v_info) |}.
Proof.
  intros Hlen Hin.
  assert (Hne : v_info <> []) by (destruct v_info; simpl in *; [ lia | easy ]).
  destruct (read_traces_in_bounds R v_info (frame_seq_stack st) Hne Hin)
    as (avg & Hread & Havg).
  destruct (algorithm_total avg (frame_index_trace_of v_info)
              (x_position_trace_of v_info) (y_position_trace_of v_info))
    as (out & Halg & Hout).
  assert (Hb : broadcast
                 (length (map (block_at (frame_seq_stack st))
                              (trace_points v_info))) out = Ok out).
  { unfold broadcast.
    rewrite length_map, trace_points_length, Hout, Havg, Nat.eqb_refl.
    reflexivity. }
  exists out. split; [ | split ].
  - unfold consensus. rewrite Hread. cbn [bind]. rewrite Halg. cbn [bind].
    exact Hb.
  - congruence.
  - unfold overlap_step.
    destruct (Nat.eqb_spec (length v_info) 1) as [E | _]; [ lia | ].
    destruct v_info as [| o v]; [ contradiction | ].
    rewrite Hread. cbn [bind]. rewrite Halg. cbn [bind].
    rewrite Hb. cbn [bind]. reflexivity.
Qed.

End StepFacts.

(* ================================================================== *)
(** * Properties: scatter                                              *)
(* ================================================================== *)

Lemma NoDup_app_disjoint {A : Type} (l1 l2 : list A) (a : A) :
  NoDup (l1 ++ l2) -> In a l1 -> In a l2 -> False.
Proof.
  induction l1 as [| a1 l1 IH]; simpl; intros Hnd H1 H2; [ contradiction | ].
  inversion Hnd as [| ? ? Hn Hnd']; subst.
  destruct H1 as [-> | H1].
  - apply Hn. apply in_or_app. now right.
  - now apply IH.
Qed.

Lemma map_fst_combine {A B : Type} (l1 : list A) (l2 : list B) :
  length l1 = length l2 -> map fst (combine l1 l2) = l1.
Proof.
  revert l2. induction l1 as [| a l1 IH]; intros [| b l2] H; simpl in *;
    try discriminate; [ reflexivity | ].
  f_equal. apply IH. lia.
Qed.

Lemma put_fold_miss (l : list (point * Block)) :
  forall (s : FrameStack) (f y x b c : Z),
    ~ In (f, y, x) (map fst l) ->
    stack_at (fold_left (fun s' pb => put_block s' (fst pb) (snd pb)) l s)
      f b c y x
    = stack_at s f b c y x.
Proof.
  induction l as [| [[[f0 y0] x0] blk0] l IH]; intros s f y x b c H;
    [ reflexivity | ].
  simpl in H. cbn [fold_left]. rewrite IH by tauto.
  simpl.
  destruct (Z.eqb_spec f f0) as [-> | Hf]; [ | reflexivity ].
  destruct (Z.eqb_spec y y0) as [-> | Hy]; [ | reflexivity ].
  destruct (Z.eqb_spec x x0) as [-> | Hx]; [ | reflexivity ].
  tauto.
Qed.

Lemma put_fold_hit (l : list (point * Block)) :
  NoDup (map fst l) ->
  forall (s : FrameStack) (f y x b c : Z) (blk : Block),
    In ((f, y, x), blk) l ->
    stack_at (fold_left (fun s' pb => put_block s' (fst pb) (snd pb)) l s)
      f b c y x
    = blk b c.
Proof.
  induction l as [| [[[f0 y0] x0] blk0] l IH]; intros Hnd s f y x b c blk Hin;
    [ destruct Hin | ].
  simpl in Hnd. inversion Hnd as [| ? ? Hn Hnd']; subst.
  cbn [fold_left]. destruct Hin as [Heq | Hin].
  - injection Heq as -> -> -> ->.
    rewrite put_fold_miss by exact Hn. simpl. now rewrite !Z.eqb_refl.
  - now apply IH.
Qed.

(** A point that is not listed keeps its blocks. *)
Lemma scatter_miss (s : FrameStack) (pts : list point) (blocks : list Block)
  (f y x b c : Z) :
  ~ In (f, y, x) pts ->
  stack_at (scatter s pts blocks) f b c y x = stack_at s f b c y x.
Proof.
  intros H. unfold scatter. apply put_fold_miss.
  intros Hin. apply H. apply in_map_iff in Hin.
  destruct Hin as ([p blk] & Hp & Hin). simpl in Hp. subst p.
  eapply in_combine_l. exact Hin.
Qed.

(** A point listed once gets the block listed with it. *)
Lemma scatter_hit (s : FrameStack) (pts : list point) (blocks : list Block)
  (k : nat) (f y x b c : Z) (blk : Block) :
  NoDup pts ->
  length blocks = length pts ->
  nth_error pts k = Some (f, y, x) ->
  nth_error blocks k = Some blk ->
  stack_at (scatter s pts blocks) f b c y x = blk b c.
Proof.
  intros Hnd Hlen Hp Hb. unfold scatter. apply put_fold_hit.
  - now rewrite map_fst_combine by congruence.
  - apply (nth_error_In _ k). rewrite nth_error_combine.
    unfold point in *. now rewrite Hp, Hb.
Qed.

Lemma blend_nth (alpha : Q) (overlapped_seq latent_seq : list Block)
  (k : nat) (o l : Block) :
  nth_error overlapped_seq k = Some o ->
  nth_error latent_seq k = Some l ->
  nth_error (blend alpha overlapped_seq latent_seq) k
  = Some (fun b c => (alpha * o b c + (1 - alpha) * l b c)%Q).
Proof.
  intros Ho Hl. unfold blend.
  now rewrite nth_error_map, nth_error_combine, Ho, Hl.
Qed.

Lemma blend_length (alpha : Q) (overlapped_seq latent_seq : list Block) :
  length overlapped_seq = length latent_seq ->
  length (blend alpha overlapped_seq latent_seq) = length latent_seq.
Proof.
  intros H. unfold blend. rewrite length_map, length_combine. lia.
Qed.

Lemma in_bounds_shape (s s' : FrameStack) (p : point) :
  stack_shape s' = stack_shape s -> in_bounds s p -> in_bounds s' p.
Proof. unfold in_bounds. now intros ->. Qed.

Lemma written_points_cons (v_info : list occurrence)
  (values : list (list occurrence)) :
  written_points (v_info :: values)
  = (if (length v_info =? 1)%nat then [] else trace_points v_info)
    ++ written_points values.
Proof.
  unfold written_points, rewritten. simpl.
  now destruct (length v_info =? 1)%nat.
Qed.

Lemma in_written_points (values : list (list occurrence))
  (v_info : list occurrence) (p : point) :
  In v_info values -> (2 <= length v_info)%nat ->
  In p (trace_points v_info) -> In p (written_points values).
Proof.
  intros Hv Hlen Hp. unfold written_points, rewritten.
  apply in_concat. exists (trace_points v_info). split; [ | exact Hp ].
  apply in_map. apply filter_In. split; [ exact Hv | ].
  destruct (Nat.eqb_spec (length v_info) 1); [ lia | reflexivity ].
Qed.

(* ================================================================== *)
(** * Properties: the blend at the traced positions                    *)
(* ================================================================== *)

Section BlendFacts.

Variable algorithm :
  list Block -> list Z -> list Z -> list Z -> result (list Block).

Hypothesis algorithm_total :
  forall avg fs xs ys,
    exists out, algorithm avg fs xs ys = Ok out /\ length out = length avg.

Variables (alpha : Q) (R : Z).

(** The loop over a map without empty occurrence lists whose written
    points lie inside the stack and are pairwise distinct: it ends, it
    leaves every other point as it was, and at every traced point of an id
    with several occurrences it leaves the blend of that id's consensus
    with the value the loop started from. *)
Lemma overlap_loop_blend (values : list (list occurrence)) :
  forall st : loop_state,
    (forall v_info, In v_info values -> v_info <> []) ->
    (forall p, In p (written_points values) ->
               in_bounds (frame_seq_stack st) p) ->
    NoDup (written_points values) ->
    exists st',
      overlap_loop algorithm alpha R values st = Ok st'
      /\ stack_shape (frame_seq_stack st') = stack_shape (frame_seq_stack st)
      /\ (forall f y x,
             ~ In (f, y, x) (written_points values) ->
             forall b c,
               stack_at (frame_seq_stack st') f b c y x
               = stack_at (frame_seq_stack st) f b c y x)
      /\ (forall pre v_info post,
             values = pre ++ v_info :: post ->
             (2 <= length v_info)%nat ->
             exists st_pre cons,
               overlap_loop algorithm alpha R pre st = Ok st_pre
               /\ consensus algorithm R v_info (frame_seq_stack st_pre)
                  = Ok cons
               /\ length cons = length v_info
               /\ forall k f y x blk,
                    nth_error (trace_points v_info) k = Some (f, y, x) ->
                    nth_error cons k = Some blk ->
                    forall b c,
                      stack_at (frame_seq_stack st') f b c y x
                      = (alpha * blk b c
                         + (1 - alpha)
                           * stack_at (frame_seq_stack st) f b c y x)%Q).
Proof.
  induction values as [| v0 values IH]; intros st Hne Hin Hnd.
  - exists st. split; [ reflexivity | ]. split; [ reflexivity | ].
    split; [ reflexivity | ].
    intros [| ? ?] v post H; discriminate H.
  - rewrite written_points_cons in Hin, Hnd.
    assert (Hne' : forall v, In v values -> v <> [])
      by (intros; apply Hne; now right).
    destruct (Nat.eqb_spec (length v0) 1) as [E1 | E1].
    + (* a singleton: no write *)
      simpl app in Hin, Hnd.
      pose proof (overlap_step_singleton algorithm alpha R v0 st E1) as Hstep.
      destruct (IH {| frame_seq_stack := frame_seq_stack st;
                      len_1_vertex_count := len_1_vertex_count st + 1;
                      avg_trace_length := avg_trace_length st + 1 |}
                   Hne' Hin Hnd)
        as (st' & Hrun & Hshape & Hframe & Hblend).
      cbn [frame_seq_stack] in Hshape, Hframe, Hblend.
      exists st'. split; [ | split; [ exact Hshape | split ] ].
      * unfold overlap_loop in *. cbn [for_loop]. rewrite Hstep. exact Hrun.
      * rewrite written_points_cons.
        rewrite (proj2 (Nat.eqb_eq _ _) E1). exact Hframe.
      * intros [| v1 pre] v post Heq Hlen; injection Heq as <- Hvalues.
        -- lia.
        -- destruct (Hblend pre v post Hvalues Hlen)
             as (st_pre & cons & Hpre & Hcons & Hclen & Hval).
           exists st_pre, cons. split; [ | auto ].
           unfold overlap_loop in *. cbn [for_loop]. rewrite Hstep.
           exact Hpre.
    + (* several occurrences: the blend is scattered *)
      assert (Hlen0 : (2 <= length v0)%nat).
      { assert (v0 <> []) by (apply Hne; now left).
        destruct v0 as [| ? [| ? ?]]; simpl in *; try lia; congruence. }
      assert (Hin0 : forall p, In p (trace_points v0) ->
                               in_bounds (frame_seq_stack st) p)
        by (intros; apply Hin, in_or_app; now left).
      destruct (overlap_step_rewrites algorithm algorithm_total alpha R v0 st
                  Hlen0 Hin0)
        as (cons0 & Hcons0 & Hclen0 & Hstep).
      set (st1 := {| frame_seq_stack :=
                       scatter (frame_seq_stack st) (trace_points v0)
                         (blend alpha cons0
                            (map (block_at (frame_seq_stack st))
                                 (trace_points v0)));
                     len_1_vertex_count := len_1_vertex_count st;
                     avg_trace_length :=
                       avg_trace_length st + Z.of_nat (length v0) |}) in *.
      assert (Hshape1 : stack_shape (frame_seq_stack st1)
                        = stack_shape (frame_seq_stack st))
        by apply scatter_shape.
      destruct (IH st1 Hne') as (st' & Hrun & Hshape & Hframe & Hblend).
      { intros p Hp. apply (in_bounds_shape (frame_seq_stack st)); auto.
        apply Hin, in_or_app. now right. }
      { eapply NoDup_app_remove_l. exact Hnd. }
      assert (Hblen : length (blend alpha cons0
                                (map (block_at (frame_seq_stack st))
                                     (trace_points v0)))
                      = length (trace_points v0)).
      { rewrite blend_length; rewrite length_map; [ reflexivity | ].
        rewrite trace_points_length. exact Hclen0. }
      exists st'. split; [ | split; [ congruence | split ] ].
      * unfold overlap_loop in *. cbn [for_loop]. rewrite Hstep. exact Hrun.
      * intros f y x Hout b c. rewrite written_points_cons in Hout.
        rewrite (proj2 (Nat.eqb_neq _ _) E1) in Hout.
        rewrite Hframe by (intros H; apply Hout, in_or_app; now right).
        apply scatter_miss. intros H. apply Hout, in_or_app. now left.
      * intros [| v1 pre] v post Heq Hlen; injection Heq as <- Hvalues.
        -- (* the first id itself *)
           exists st, cons0. split; [ reflexivity | ].
           split; [ exact Hcons0 | ]. split; [ exact Hclen0 | ].
           intros k f y x blk Hk Hblk b c.
           rewrite Hframe.
           ++ cbn [frame_seq_stack st1].
              rewrite (scatter_hit (frame_seq_stack st) (trace_points v0) _ k
                         f y x b c
                         (fun b c =>
                            (alpha * blk b c
                             + (1 - alpha)
                               * block_at (frame_seq_stack st) (f, y, x) b c)%Q)).
              ** reflexivity.
              ** eapply NoDup_app_remove_r. exact Hnd.
              ** exact Hblen.
              ** exact Hk.
              ** apply blend_nth; [ exact Hblk | ].
                 rewrite nth_error_map. unfold point in *. now rewrite Hk.
           ++ intros H. apply (NoDup_app_disjoint _ _ (f, y, x) Hnd);
                [ | exact H ].
              apply (nth_error_In _ k). exact Hk.
        -- (* a later id *)
           destruct (Hblend pre v post Hvalues Hlen)
             as (st_pre & cons & Hpre & Hcons & Hclen & Hval).
           exists st_pre, cons. split; [ | split; [ exact Hcons | split ] ].
           ++ unfold overlap_loop in *. cbn [for_loop]. rewrite Hstep.
              exact Hpre.
           ++ exact Hclen.
           ++ intros k f y x blk Hk Hblk b c.
              rewrite (Hval k f y x blk Hk Hblk b c).
              cbn [frame_seq_stack st1].
              rewrite scatter_miss; [ reflexivity | ].
              intros H. apply (NoDup_app_disjoint _ _ (f, y, x) Hnd);
                [ exact H | ].
              apply (in_written_points values v); [ | exact Hlen | ].
              ** rewrite Hvalues. apply in_or_app. right. now left.
              ** apply (nth_error_In _ k). exact Hk.
Qed.

End BlendFacts.

Lemma mean_algorithm_total :
  forall avg fs xs ys,
    exists out, mean_algorithm avg fs xs ys = Ok out
                /\ length out = length avg.
Proof.
  intros avg fs xs ys. eexists. split; [ reflexivity | apply length_map ].
Qed.

Lemma scenario_well_formed :
  (forall v_info, In v_info scenario_values -> v_info <> [])
  /\ (forall p, In p (written_points scenario_values) ->
                in_bounds scenario_stack p)
  /\ NoDup (written_points scenario_values).
Proof.
  split; [ | split ].
  - intros v [<- | []]. discriminate.
  - intros p [<- | [<- | [<- | []]]]; unfold in_bounds; simpl; lia.
  - simpl. repeat constructor; simpl; intuition discriminate.
Qed.

(** C3 as stated fails where a position is listed by two ids and where
    a position lies outside the frames.  Over the frames of the
    scenario, with radius 0, the mean as consensus and [alpha = 1/2]: when
    [id_A] and [id_C] both list [(0, 0)] of frame 0, the call leaves
    135/8 there, which is the blend of the original 10 with neither the
    consensus of [id_A] nor that of [id_C], computed on the input or on
    the store [id_A] has left; and a map with a column outside the frames
    makes the call raise [IndexError]. *)
Lemma blend_needs_distinct_positions_inside :
  (exists out stack s_A cons_A cons_C cons_C_after,
      torch_stack scenario_frames = Ok stack
      /\ Overlap_call mean_algorithm true (fun _ _ => (1 # 2)%Q)
           (fun _ _ => 0%Q) scenario_frames shared_position_map None None
         = Ok out
      /\ (stack_at out 0 0 0 0 0 == 135 # 8)%Q
      /\ consensus mean_algorithm 0 id_A stack = Ok cons_A
      /\ consensus mean_algorithm 0 id_C stack = Ok cons_C
      /\ overlap_pass mean_algorithm (1 # 2) 0 [id_A] stack = Ok s_A
      /\ consensus mean_algorithm 0 id_C s_A = Ok cons_C_after
      /\ Forall (fun cons : list Block =>
                   exists blk,
                     nth_error cons 0 = Some blk
                     /\ ~ (stack_at out 0 0 0 0 0
                           == (1 # 2) * blk 0%Z 0%Z
                              + (1 - (1 # 2)) * stack_at stack 0 0 0 0 0)%Q)
                [cons_A; cons_C; cons_C_after])
  /\ Overlap_call mean_algorithm true (fun _ _ => (1 # 2)%Q)
       (fun _ _ => 0%Q) scenario_frames outside_position_map None None
     = Raise IndexError.
Proof.
  split; [ | reflexivity ].
  do 6 eexists.
  split; [ reflexivity | ]. split; [ reflexivity | ].
  split; [ vm_compute; reflexivity | ].
  do 4 (split; [ reflexivity | ]).
  repeat constructor;
    (eexists; split; [ reflexivity | ];
     intros H; vm_compute in H; discriminate H).
Qed.

(** C3. When the progress bar raises nothing (the engine is looping, or
    the timestep is a number and the map holds at least 100 ids), on
    stackable frames that match the map, with a radius that is not
    negative, a consensus algorithm that returns one value per occurrence
    and a map without empty occurrence lists whose written positions lie
    inside the frames and are listed once: [Overlap.__call__] returns,
    and at every traced position of an id with at least two occurrences
    it leaves [alpha] times the consensus value computed for that
    occurrence plus [1 - alpha] times the original value at that
    position.  In the scenario of three frames holding 10, 20 and 30 at
    [(0, 0)], radius 0 and the mean as consensus, the call made while the
    engine is looping gives 20 at the three positions for [alpha = 1] and
    15, 20 and 25 for [alpha = 0.5]. *)
Theorem blend_at_traced_positions :
  (forall (algorithm :
             list Block -> list Z -> list Z -> list Z -> result (list Block))
          (is_engine_looping : bool)
          (alpha_scheduler kernel_radius_scheduler :
             option Z -> option Q -> Q)
          (fr0 : Frame) (frame_seq : list Frame)
          (corr_map : CorrespondenceMap)
          (step : option Z) (timestep : option Q) (stack : FrameStack)
          (alpha : Q) (R : Z),
      is_engine_looping = true
      \/ ((exists t, timestep = Some t)
          /\ (100 <= length (Map corr_map))%nat) ->
      snd (fst (frame_shape fr0)) = height corr_map ->
      snd (frame_shape fr0) = width corr_map ->
      torch_stack (fr0 :: frame_seq) = Ok stack ->
      alpha = alpha_scheduler step timestep ->
      R = kernel_radius_of kernel_radius_scheduler step timestep ->
      0 <= R ->
      (forall avg fs xs ys,
          exists out, algorithm avg fs xs ys = Ok out
                      /\ length out = length avg) ->
      (forall v_info, In v_info (Map_values corr_map) -> v_info <> []) ->
      (forall p, In p (written_points (Map_values corr_map)) ->
                 in_bounds stack p) ->
      NoDup (written_points (Map_values corr_map)) ->
      exists out,
        Overlap_call algorithm is_engine_looping alpha_scheduler
          kernel_radius_scheduler (fr0 :: frame_seq) corr_map step timestep
        = Ok out
        /\ forall pre v_info post,
             Map_values corr_map = pre ++ v_info :: post ->
             (2 <= length v_info)%nat ->
             exists s_pre cons,
               overlap_pass algorithm alpha R pre stack = Ok s_pre
               /\ consensus algorithm R v_info s_pre = Ok cons
               /\ length cons = length v_info
               /\ forall k f y x blk,
                    nth_error (trace_points v_info) k = Some (f, y, x) ->
                    nth_error cons k = Some blk ->
                    forall b c,
                      stack_at out f b c y x
                      = (alpha * blk b c
                         + (1 - alpha) * stack_at stack f b c y x)%Q)
  /\ (forall (step : option Z) (timestep : option Q),
       exists out,
         Overlap_call mean_algorithm true (fun _ _ => 1%Q) (fun _ _ => 0%Q)
           scenario_frames scenario_map step timestep = Ok out
         /\ (stack_at out 0 0 0 0 0 == 20)%Q
         /\ (stack_at out 1 0 0 0 0 == 20)%Q
         /\ (stack_at out 2 0 0 0 0 == 20)%Q)
  /\ (forall (step : option Z) (timestep : option Q),
       exists out,
         Overlap_call mean_algorithm true (fun _ _ => (1 # 2)%Q)
           (fun _ _ => 0%Q) scenario_frames scenario_map step timestep
         = Ok out
         /\ (stack_at out 0 0 0 0 0 == 15)%Q
         /\ (stack_at out 1 0 0 0 0 == 20)%Q
         /\ (stack_at out 2 0 0 0 0 == 25)%Q).
Proof.
  split; [ | split ].
  - intros algorithm looping alpha_s radius_s fr0 frame_seq corr_map step
      timestep stack alpha R Hsilent Hh Hw Hstack -> -> _ Halg Hne Hin Hnd.
    rewrite (Overlap_call_progress_silent algorithm looping alpha_s radius_s
               fr0 frame_seq corr_map step timestep stack Hsilent Hh Hw
               Hstack).
    destruct (overlap_loop_blend algorithm Halg (alpha_s step timestep)
                (kernel_radius_of radius_s step timestep)
                (Map_values corr_map) (initial_state stack) Hne Hin Hnd)
      as (st' & Hrun & _ & _ & Hblend).
    exists (frame_seq_stack st'). split.
    + unfold overlap_pass. now rewrite Hrun.
    + intros pre v post Hvalues Hlen.
      destruct (Hblend pre v post Hvalues Hlen)
        as (st_pre & cons & Hpre & Hcons & Hclen & Hval).
      exists (frame_seq_stack st_pre), cons.
      split; [ unfold overlap_pass; now rewrite Hpre | ].
      split; [ exact Hcons | ]. split; [ exact Hclen | exact Hval ].
  - intros step timestep. eexists. split; [ reflexivity | ].
    repeat split; vm_compute; reflexivity.
  - intros step timestep. eexists. split; [ reflexivity | ].
    repeat split; vm_compute; reflexivity.
Qed.

Lemma blend_at_traced_positions_witness :
  exists stack,
    torch_stack scenario_frames = Ok stack
    /\ (true = true
        \/ ((exists t, @None Q = Some t)
            /\ (100 <= length (Map scenario_map))%nat))
    /\ 0 <= kernel_radius_of (fun _ _ => 0%Q) None None
    /\ (forall avg fs xs ys,
           exists out, mean_algorithm avg fs xs ys = Ok out
                       /\ length out = length avg)
    /\ (forall v_info, In v_info (Map_values scenario_map) -> v_info <> [])
    /\ (forall p, In p (written_points (Map_values scenario_map)) ->
                  in_bounds stack p)
    /\ NoDup (written_points (Map_values scenario_map))
    /\ exists out,
         Overlap_call mean_algorithm true (fun _ _ => (1 # 2)%Q)
           (fun _ _ => 0%Q) scenario_frames scenario_map None None = Ok out
         /\ forall pre v_info post,
              Map_values scenario_map = pre ++ v_info :: post ->
              (2 <= length v_info)%nat ->
              exists s_pre cons,
                overlap_pass mean_algorithm (1 # 2) 0 pre stack = Ok s_pre
                /\ consensus mean_algorithm 0 v_info s_pre = Ok cons
                /\ length cons = length v_info
                /\ forall k f y x blk,
                     nth_error (trace_points v_info) k = Some (f, y, x) ->
                     nth_error cons k = Some blk ->
                     forall b c,
                       stack_at out f b c y x
                       = ((1 # 2) * blk b c
                          + (1 - (1 # 2)) * stack_at stack f b c y x)%Q.
Proof.
  eexists. split; [ reflexivity | ].
  match goal with
  | |- context [in_bounds ?s _] =>
      assert (Hin : forall p,
                 In p (written_points (Map_values scenario_map)) ->
                 in_bounds s p)
  end.
  { intros p [<- | [<- | [<- | []]]]; unfold in_bounds; simpl; lia. }
  assert (Hne : forall v_info,
             In v_info (Map_values scenario_map) -> v_info <> []).
  { intros v [<- | []]. discriminate. }
  assert (Hnd : NoDup (written_points (Map_values scenario_map))).
  { simpl. repeat constructor; simpl; intuition discriminate. }
  assert (HR : 0 <= kernel_radius_of (fun _ _ => 0%Q) None None)
    by (vm_compute; discriminate).
  split; [ now left | ]. split; [ exact HR | ].
  split; [ exact mean_algorithm_total | ].
  split; [ exact Hne | ]. split; [ exact Hin | ]. split; [ exact Hnd | ].
  exact (proj1 blend_at_traced_positions mean_algorithm true
           (fun _ _ => (1 # 2)%Q) (fun _ _ => 0%Q)
           (gray_frame 1 1 (fun _ _ => 10%Q))
           [gray_frame 1 1 (fun _ _ => 20%Q);
            gray_frame 1 1 (fun _ _ => 30%Q)]
           scenario_map None None _ (1 # 2)%Q 0
           (or_introl eq_refl) eq_refl eq_refl eq_refl eq_refl eq_refl HR
           mean_algorithm_total Hne Hin Hnd).
Defined.

(* ================================================================== *)
(** * Properties: the shared store                                     *)
(* ================================================================== *)

(** C1 on the code.  [frame_seq_stack_copy] is [frame_seq_stack.detach()],
    the same storage: with radius 1 the window of id [B] contains the
    point id [A] has just rewritten.  On two frames holding 0 and 12 the
    pass gives 4 and 28/3 when [A] comes first and 8/3 and 8 when [B] comes
    first; a pass over a real copy gives 4 and 8 in either order.  The
    input has no aliased position and lies inside the stack. *)
Theorem overlap_reads_earlier_writes :
  (forall p, In p (written_points [id_A; id_B]) ->
             in_bounds two_column_stack p)
  /\ NoDup (written_points [id_A; id_B])
  /\ exists out_AB out_BA spec_AB spec_BA s_A read_before read_after,
       overlap_pass mean_algorithm 1 1 [id_A; id_B] two_column_stack
       = Ok out_AB
       /\ overlap_pass mean_algorithm 1 1 [id_B; id_A] two_column_stack
          = Ok out_BA
       /\ spec_overlap_pass mean_algorithm 1 1 [id_A; id_B] two_column_stack
          = Ok spec_AB
       /\ spec_overlap_pass mean_algorithm 1 1 [id_B; id_A] two_column_stack
          = Ok spec_BA
       (* the order of the map changes the result *)
       /\ (stack_at out_AB 0 0 0 0 0 == 4)%Q
       /\ (stack_at out_AB 0 0 0 0 1 == 28 # 3)%Q
       /\ (stack_at out_BA 0 0 0 0 0 == 8 # 3)%Q
       /\ (stack_at out_BA 0 0 0 0 1 == 8)%Q
       (* over a separate copy it does not *)
       /\ (stack_at spec_AB 0 0 0 0 0 == 4)%Q
       /\ (stack_at spec_AB 0 0 0 0 1 == 8)%Q
       /\ (stack_at spec_BA 0 0 0 0 0 == 4)%Q
       /\ (stack_at spec_BA 0 0 0 0 1 == 8)%Q
       (* what id B gathers before and after id A has been written *)
       /\ overlap_pass mean_algorithm 1 1 [id_A] two_column_stack = Ok s_A
       /\ read_traces 1 id_B two_column_stack = Ok read_before
       /\ read_traces 1 id_B s_A = Ok read_after
       /\ (nth 0%nat (snd read_before) (fun _ _ => 0) 0%Z 0%Z == 8)%Q
       /\ (nth 0%nat (snd read_after) (fun _ _ => 0) 0%Z 0%Z == 28 # 3)%Q.
Proof.
  split; [ | split ].
  - intros p [<- | [<- | [<- | [<- | []]]]]; unfold in_bounds; simpl; lia.
  - simpl. repeat constructor; simpl; intuition discriminate.
  - do 7 eexists.
    do 4 (split; [ reflexivity | ]).
    do 8 (split; [ vm_compute; reflexivity | ]).
    do 3 (split; [ reflexivity | ]).
    split; vm_compute; reflexivity.
Qed.

(* ================================================================== *)
(** * Further properties: the overlap loop                             *)
(* ================================================================== *)

Lemma for_each_In {A B : Type} (f : A -> result B) (l : list A) :
  forall bs b,
    for_each f l = Ok bs -> In b bs -> exists a, In a l /\ f a = Ok b.
Proof.
  induction l as [| a l IH]; intros bs b H Hb; simpl in H.
  - injection H as <-. destruct Hb.
  - destruct (f a) as [b0 |] eqn:E; simpl in H; [ | discriminate ].
    destruct (for_each f l) as [bs' |] eqn:E'; simpl in H; [ | discriminate ].
    injection H as <-. destruct Hb as [<- | Hb].
    + exists a. split; [ now left | exact E ].
    + destruct (IH bs' b eq_refl Hb) as (a' & Ha' & Hf).
      exists a'. split; [ now right | exact Hf ].
Qed.

Lemma resolve_shape (s s' : FrameStack) (q : point) :
  stack_shape s' = stack_shape s -> resolve s' q = resolve s q.
Proof. unfold resolve. now intros ->. Qed.

(** What a step that rewrites has read and computed. *)
Lemma overlap_step_inv
  (algorithm : list Block -> list Z -> list Z -> list Z -> result (list Block))
  (alpha : Q) (R : Z) (v_info : list occurrence) (st st' : loop_state) :
  length v_info <> 1%nat ->
  overlap_step algorithm alpha R v_info st = Ok st' ->
  exists pts latent_seq avg out overlapped_seq,
    read_traces R v_info (frame_seq_stack st) = Ok (pts, latent_seq, avg)
    /\ for_each (resolve (frame_seq_stack st)) (trace_points v_info) = Ok pts
    /\ latent_seq = map (block_at (frame_seq_stack st)) pts
    /\ algorithm avg (frame_index_trace_of v_info)
         (x_position_trace_of v_info) (y_position_trace_of v_info) = Ok out
    /\ broadcast (length latent_seq) out = Ok overlapped_seq
    /\ length overlapped_seq = length latent_seq
    /\ st' = {| frame_seq_stack :=
                  scatter (frame_seq_stack st) pts
                    (blend alpha overlapped_seq latent_seq);
                len_1_vertex_count := len_1_vertex_count st;
                avg_trace_length :=
                  avg_trace_length st + Z.of_nat (length v_info) |}.
Proof.
  intros Hlen H. unfold overlap_step in H.
  destruct (Nat.eqb_spec (length v_info) 1) as [E | _]; [ contradiction | ].
  destruct v_info as [| o v]; [ discriminate | ].
  apply bind_Ok_inv in H. destruct H as ([[pts latent] avg] & Hread & H).
  apply bind_Ok_inv in H. destruct H as (out & Halg & H).
  apply bind_Ok_inv in H. destruct H as (ov & Hb & H).
  injection H as <-.
  exists pts, latent, avg, out, ov.
  assert (Hg : for_each (resolve (frame_seq_stack st)) (trace_points (o :: v))
               = Ok pts
               /\ latent = map (block_at (frame_seq_stack st)) pts).
  { unfold read_traces in Hread.
    destruct (stack_shape (frame_seq_stack st)) as [[[[t b] c] h] w].
    apply bind_Ok_inv in Hread. destruct Hread as (ext & _ & Hread).
    apply bind_Ok_inv in Hread. destruct Hread as ([pts' latent'] & Hg & Hread).
    apply bind_Ok_inv in Hread. destruct Hread as (avg' & _ & Hread).
    injection Hread as <- <- <-.
    unfold gather in Hg. apply bind_Ok_inv in Hg.
    destruct Hg as (pts'' & Hres & Hg). injection Hg as <- <-.
    split; [ exact Hres | reflexivity ]. }
  destruct Hg as (Hres & Hlat).
  repeat split; try assumption.
  unfold broadcast in Hb.
  destruct (Nat.eqb_spec (length out) (length latent)) as [E | _].
  - injection Hb as <-. exact E.
  - destruct out as [| blk [| ? ?]]; try discriminate.
    injection Hb as <-. apply repeat_length.
Qed.

Section LoopInvariants.

Variable algorithm :
  list Block -> list Z -> list Z -> list Z -> result (list Block).
Variables (alpha : Q) (R : Z).

(** A step leaves every point that none of its trace points resolves to. *)
Lemma overlap_step_frame (v_info : list occurrence) (st st' : loop_state)
  (f y x : Z) :
  overlap_step algorithm alpha R v_info st = Ok st' ->
  (length v_info <> 1%nat ->
   forall q, In q (trace_points v_info) ->
             resolve (frame_seq_stack st) q <> Ok (f, y, x)) ->
  forall b c,
    stack_at (frame_seq_stack st') f b c y x
    = stack_at (frame_seq_stack st) f b c y x.
Proof.
  intros Hstep Hout b c.
  destruct (Nat.eq_dec (length v_info) 1) as [E | E].
  - rewrite overlap_step_singleton in Hstep by exact E.
    now injection Hstep as <-.
  - destruct (overlap_step_inv algorithm alpha R v_info st st' E Hstep)
      as (pts & latent & avg & out & ov & _ & Hres & _ & _ & _ & _ & ->).
    cbn [frame_seq_stack]. apply scatter_miss. intros Hin.
    destruct (for_each_In _ _ _ _ Hres Hin) as (q & Hq & Hr).
    exact (Hout E q Hq Hr).
Qed.

Lemma overlap_loop_frame (values : list (list occurrence)) :
  forall (st st' : loop_state) (f y x : Z),
    overlap_loop algorithm alpha R values st = Ok st' ->
    (forall v_info q,
        In v_info values -> length v_info <> 1%nat ->
        In q (trace_points v_info) ->
        resolve (frame_seq_stack st) q <> Ok (f, y, x)) ->
    forall b c,
      stack_at (frame_seq_stack st') f b c y x
      = stack_at (frame_seq_stack st) f b c y x.
Proof.
  unfold overlap_loop.
  induction values as [| v values IH]; intros st st' f y x Hrun Hout b c;
    simpl in Hrun.
  - now injection Hrun as <-.
  - apply bind_Ok_inv in Hrun. destruct Hrun as (st1 & Hstep & Hrun).
    rewrite (IH st1 st' f y x Hrun).
    + apply (overlap_step_frame v st st1 f y x Hstep).
      intros E q Hq. apply (Hout v q); auto. now left.
    + intros v' q Hv' E Hq.
      rewrite (resolve_shape (frame_seq_stack st))
        by (eapply overlap_step_shape; exact Hstep).
      apply (Hout v' q); auto. now right.
Qed.

(** X2. Whenever the loop ends, [len_1_vertex_count] has grown by the
    number of ids with exactly one occurrence and [avg_trace_length] by
    the number of occurrences of all ids. *)
Theorem overlap_loop_diagnostics (values : list (list occurrence)) :
  forall st st' : loop_state,
    overlap_loop algorithm alpha R values st = Ok st' ->
    len_1_vertex_count st'
    = len_1_vertex_count st + Z.of_nat (length (singletons values))
    /\ avg_trace_length st'
       = avg_trace_length st + total_occurrences values.
Proof.
  unfold overlap_loop, total_occurrences.
  induction values as [| v values IH]; intros st st' Hrun; simpl in Hrun.
  - injection Hrun as <-. simpl. lia.
  - apply bind_Ok_inv in Hrun. destruct Hrun as (st1 & Hstep & Hrun).
    destruct (IH st1 st' Hrun) as (H1 & H2).
    cbn [singletons filter map fold_right].
    destruct (Nat.eqb_spec (length v) 1) as [E | E].
    + rewrite overlap_step_singleton in Hstep by exact E.
      injection Hstep as <-. cbn [len_1_vertex_count avg_trace_length] in *.
      fold (singletons values). cbn [length]. rewrite E. lia.
    + destruct (overlap_step_inv algorithm alpha R v st st1 E Hstep)
        as (pts & latent & avg & out & ov & _ & _ & _ & _ & _ & _ & ->).
      cbn [len_1_vertex_count avg_trace_length] in *.
      fold (singletons values). lia.
Qed.

End LoopInvariants.

(** X1. Whenever the overlap pass returns, every point that no trace
    point of a rewritten id resolves to holds exactly the value it had in
    the input: pixels the map does not visit are left as they are, not
    zeroed. *)
Theorem overlap_pass_untouched_points :
  forall (algorithm :
            list Block -> list Z -> list Z -> list Z -> result (list Block))
         (alpha : Q) (R : Z) (values : list (list occurrence))
         (s out : FrameStack) (f y x : Z),
    overlap_pass algorithm alpha R values s = Ok out ->
    (forall v_info q,
        In v_info values -> length v_info <> 1%nat ->
        In q (trace_points v_info) -> resolve s q <> Ok (f, y, x)) ->
    forall b c, stack_at out f b c y x = stack_at s f b c y x.
Proof.
  intros algorithm alpha R values s out f y x Hrun Hout b c.
  unfold overlap_pass in Hrun. apply bind_Ok_inv in Hrun.
  destruct Hrun as (st' & Hloop & Hout'). injection Hout' as <-.
  exact (overlap_loop_frame algorithm alpha R values (initial_state s) st'
           f y x Hloop Hout b c).
Qed.

Lemma overlap_pass_untouched_points_witness :
  exists out,
    overlap_pass mean_algorithm 1 1 [id_A] two_column_stack = Ok out
    /\ (forall v_info q,
           In v_info [id_A] -> length v_info <> 1%nat ->
           In q (trace_points v_info) ->
           resolve two_column_stack q <> Ok (0, 0, 1))
    /\ forall b c,
         stack_at out 0 b c 0 1 = stack_at two_column_stack 0 b c 0 1.
Proof.
  eexists. split; [ reflexivity | ].
  assert (H : forall v_info q,
             In v_info [id_A] -> length v_info <> 1%nat ->
             In q (trace_points v_info) ->
             resolve two_column_stack q <> Ok (0, 0, 1)).
  { intros v q [<- | []] _ [<- | [<- | []]] Hq; vm_compute in Hq;
      discriminate Hq. }
  split; [ exact H | ].
  exact (overlap_pass_untouched_points mean_algorithm 1 1 [id_A]
           two_column_stack _ 0 0 1 eq_refl H).
Defined.

Lemma overlap_loop_diagnostics_witness :
  exists st',
    overlap_loop mean_algorithm 1 0 [[((0, 0), 0)]; id_A; id_B]
      (initial_state two_column_stack) = Ok st'
    /\ len_1_vertex_count st' = 0 + 1
    /\ avg_trace_length st' = 0 + 5.
Proof.
  eexists. split; [ reflexivity | ].
  exact (overlap_loop_diagnostics mean_algorithm 1 0
           [[((0, 0), 0)]; id_A; id_B] (initial_state two_column_stack) _
           eq_refl).
Defined.

(* ================================================================== *)
(** * Further properties: passes that change no value                  *)
(* ================================================================== *)

(** Writing, at every listed point, a block equal to what the stack
    holds there leaves a stack of the same values. *)
Lemma put_fold_same_values (s0 : FrameStack) (l : list (point * Block)) :
  forall s : FrameStack,
    same_values s s0 ->
    (forall p blk, In (p, blk) l ->
                   forall b c, (blk b c == block_at s0 p b c)%Q) ->
    same_values
      (fold_left (fun s' pb => put_block s' (fst pb) (snd pb)) l s) s0.
Proof.
  induction l as [| [[[f0 y0] x0] blk0] l IH]; intros s Hs Hl; [ exact Hs | ].
  cbn [fold_left]. apply IH.
  - intros f b c y x. cbn [fst snd put_block stack_at].
    destruct ((f =? f0) && (y =? y0) && (x =? x0)) eqn:E; [ | apply Hs ].
    apply andb_prop in E. destruct E as [E Ex].
    apply andb_prop in E. destruct E as [Ef Ey].
    apply Z.eqb_eq in Ef, Ey, Ex. subst.
    exact (Hl (f0, y0, x0) blk0 (or_introl eq_refl) b c).
  - intros p blk Hin. apply Hl. now right.
Qed.

(** The blocks that a step scatters, point by point. *)
Lemma in_scattered_blend (alpha : Q) (s : FrameStack) (pts : list point)
  (overlapped_seq : list Block) (p : point) (blk : Block) :
  In (p, blk)
     (combine pts (blend alpha overlapped_seq (map (block_at s) pts))) ->
  exists (k : nat) (o : Block),
    nth_error pts k = Some p
    /\ nth_error overlapped_seq k = Some o
    /\ blk = (fun b c => (alpha * o b c + (1 - alpha) * block_at s p b c)%Q).
Proof.
  intros Hin. apply In_nth_error in Hin. destruct Hin as (k & Hk).
  exists k. rewrite nth_error_combine in Hk. unfold blend in Hk.
  rewrite nth_error_map, nth_error_combine, nth_error_map in Hk.
  unfold point in *.
  destruct (nth_error pts k) as [p' |]; [ | discriminate ].
  destruct (nth_error overlapped_seq k) as [o |]; [ | discriminate ].
  cbn in Hk. injection Hk as <- <-. exists o. auto.
Qed.

Section NoChange.

Variable algorithm :
  list Block -> list Z -> list Z -> list Z -> result (list Block).
Variables (alpha : Q) (R : Z).

(** With [alpha == 0] a step writes back what it has read. *)
Lemma overlap_step_alpha_zero (s0 : FrameStack) (v_info : list occurrence)
  (st st' : loop_state) :
  (alpha == 0)%Q ->
  overlap_step algorithm alpha R v_info st = Ok st' ->
  same_values (frame_seq_stack st) s0 ->
  same_values (frame_seq_stack st') s0.
Proof.
  intros Halpha Hstep Hs.
  destruct (Nat.eq_dec (length v_info) 1) as [E | E].
  - rewrite overlap_step_singleton in Hstep by exact E.
    now injection Hstep as <-.
  - destruct (overlap_step_inv algorithm alpha R v_info st st' E Hstep)
      as (pts & latent & avg & out & ov & _ & _ & -> & _ & _ & _ & ->).
    cbn [frame_seq_stack]. unfold scatter.
    apply put_fold_same_values; [ exact Hs | ].
    intros p blk Hin b c.
    destruct (in_scattered_blend _ _ _ _ _ _ Hin) as (k & o & _ & _ & ->).
    rewrite Halpha. destruct p as [[f y] x]. cbn [block_at].
    rewrite (Hs f b c y x). cbn [block_at]. ring.
Qed.

Lemma overlap_loop_alpha_zero (s0 : FrameStack)
  (values : list (list occurrence)) :
  (alpha == 0)%Q ->
  forall st st' : loop_state,
    overlap_loop algorithm alpha R values st = Ok st' ->
    same_values (frame_seq_stack st) s0 ->
    same_values (frame_seq_stack st') s0.
Proof.
  intros Halpha. unfold overlap_loop.
  induction values as [| v values IH]; intros st st' Hrun Hs; simpl in Hrun.
  - now injection Hrun as <-.
  - apply bind_Ok_inv in Hrun. destruct Hrun as (st1 & Hstep & Hrun).
    apply (IH st1 st' Hrun).
    exact (overlap_step_alpha_zero s0 v st st1 Halpha Hstep Hs).
Qed.

End NoChange.

(** X3. With a blend strength equal to 0 and a radius that is not
    negative, the overlap pass changes no value: whatever the map (aliased
    positions included) and whatever finite values the consensus
    algorithm returns, the stack the pass returns holds at every index a
    number equal to the input's.  (With a negative radius the windows are
    empty and their mean is not a number; that case is left out.) *)
Theorem overlap_pass_alpha_zero :
  forall (algorithm :
            list Block -> list Z -> list Z -> list Z -> result (list Block))
         (alpha : Q) (R : Z) (values : list (list occurrence))
         (s out : FrameStack),
    (alpha == 0)%Q ->
    0 <= R ->
    overlap_pass algorithm alpha R values s = Ok out ->
    same_values out s /\ stack_shape out = stack_shape s.
Proof.
  intros algorithm alpha R values s out Halpha _ Hrun.
  unfold overlap_pass in Hrun. apply bind_Ok_inv in Hrun.
  destruct Hrun as (st' & Hloop & Hout). injection Hout as <-.
  split.
  - apply (overlap_loop_alpha_zero algorithm alpha R s values Halpha
             (initial_state s) st' Hloop).
    intros f b c y x. reflexivity.
  - refine (for_loop_invariant
              (fun st0 => stack_shape (frame_seq_stack st0) = stack_shape s)
              _ _ _ (initial_state s) st' eq_refl Hloop).
    intros v s1 s2 _ H1 H2. apply overlap_step_shape in H2. congruence.
Qed.

Lemma overlap_pass_alpha_zero_witness :
  exists out,
    (0 == 0)%Q
    /\ 0 <= 1
    /\ overlap_pass mean_algorithm 0 1 [id_A; id_B] two_column_stack = Ok out
    /\ same_values out two_column_stack
    /\ stack_shape out = stack_shape two_column_stack.
Proof.
  eexists. split; [ reflexivity | ]. split; [ lia | ].
  split; [ reflexivity | ].
  exact (overlap_pass_alpha_zero mean_algorithm 0 1 [id_A; id_B]
           two_column_stack _ (Qeq_refl 0) ltac:(lia) eq_refl).
Defined.

Lemma for_each_nth {A B : Type} (f : A -> result B) (l : list A) :
  forall bs k b,
    for_each f l = Ok bs -> nth_error bs k = Some b ->
    exists a, nth_error l k = Some a /\ f a = Ok b.
Proof.
  induction l as [| a l IH]; intros bs k b H Hb; simpl in H.
  - injection H as <-. destruct k; discriminate Hb.
  - destruct (f a) as [b0 |] eqn:E; simpl in H; [ | discriminate ].
    destruct (for_each f l) as [bs' |] eqn:E'; simpl in H; [ | discriminate ].
    injection H as <-. destruct k as [| k]; simpl in Hb.
    + injection Hb as <-. exists a. auto.
    + exact (IH bs' k b eq_refl Hb).
Qed.

(** With radius 0 the window of a point inside the stack is the point
    itself, so its window average equals the exact value. *)
Lemma read_traces_radius_zero (v_info : list occurrence) (s : FrameStack)
  (pts : list point) (latent_seq avg : list Block) :
  (forall p, In p (trace_points v_info) -> in_bounds s p) ->
  read_traces 0 v_info s = Ok (pts, latent_seq, avg) ->
  forall k blk,
    nth_error avg k = Some blk ->
    exists p,
      nth_error (trace_points v_info) k = Some p
      /\ forall b c, (blk b c == block_at s p b c)%Q.
Proof.
  intros Hin Hread k blk Hk. unfold read_traces in Hread.
  destruct (stack_shape s) as [[[[t b0] c0] h] w] eqn:Hshape.
  rewrite get_extended_traces_windows in Hread
    by (unfold frame_index_trace_of, y_position_trace_of,
          x_position_trace_of; now rewrite !length_map).
  cbn [bind] in Hread.
  apply bind_Ok_inv in Hread. destruct Hread as ([pts' latent'] & _ & Hread).
  apply bind_Ok_inv in Hread. destruct Hread as (avg' & Hmean & Hread).
  injection Hread as _ _ <-.
  unfold gather_mean in Hmean.
  rewrite (as_windows_map (fun f => repeat f (length (range (- 0) (0 + 1))))
             (length (range (- 0) (0 + 1)))) in Hmean
    by (intros; apply repeat_length).
  rewrite (as_windows_map (window_positions 0 h)
             (length (range (- 0) (0 + 1)))) in Hmean
    by (intros; unfold window_positions; apply length_map).
  rewrite (as_windows_map (window_positions 0 w)
             (length (range (- 0) (0 + 1)))) in Hmean
    by (intros; unfold window_positions; apply length_map).
  cbn [bind] in Hmean.
  destruct (for_each_nth _ _ _ _ _ Hmean Hk) as ([[fs ys] xs] & Hw & Hg).
  rewrite !nth_error_combine in Hw.
  unfold frame_index_trace_of, y_position_trace_of, x_position_trace_of
    in Hw.
  rewrite !nth_error_map in Hw. unfold occurrence in *.
  destruct (nth_error v_info k) as [[[y x] f] |] eqn:Eo; [ | discriminate ].
  cbn in Hw. injection Hw as <- <- <-.
  exists (f, y, x). split.
  - rewrite trace_points_map, nth_error_map.
    unfold occurrence in *. now rewrite Eo.
  - assert (Hp : in_bounds s (f, y, x)).
    { apply Hin. rewrite trace_points_map. apply in_map_iff.
      exists (y, x, f). split; [ reflexivity | ].
      eapply nth_error_In. exact Eo. }
    pose proof Hp as Hp'. unfold in_bounds in Hp'. rewrite Hshape in Hp'.
    replace (Z.min (Z.max (y + 0) 0) (h - 1)) with y in Hg by lia.
    replace (Z.min (Z.max (x + 0) 0) (w - 1)) with x in Hg by lia.
    rewrite gather_in_bounds in Hg
      by (intros p [<- | []]; exact Hp).
    cbn in Hg. injection Hg as <-.
    intros b c. unfold block_mean. cbn. field.
Qed.

Section IdentityConsensus.

Variable algorithm :
  list Block -> list Z -> list Z -> list Z -> result (list Block).

(** A consensus algorithm that returns the neighbourhood averages. *)
Hypothesis algorithm_identity :
  forall avg fs xs ys, algorithm avg fs xs ys = Ok avg.

Variable alpha : Q.

Lemma overlap_loop_radius_zero (s0 : FrameStack)
  (values : list (list occurrence)) :
  forall st : loop_state,
    (forall v_info, In v_info values -> v_info <> []) ->
    (forall p, In p (written_points values) ->
               in_bounds (frame_seq_stack st) p) ->
    same_values (frame_seq_stack st) s0 ->
    exists st',
      overlap_loop algorithm alpha 0 values st = Ok st'
      /\ same_values (frame_seq_stack st') s0.
Proof.
  assert (Htotal : forall avg fs xs ys,
             exists out, algorithm avg fs xs ys = Ok out
                         /\ length out = length avg)
    by (intros; eexists; split; [ apply algorithm_identity | reflexivity ]).
  unfold overlap_loop.
  induction values as [| v values IH]; intros st Hne Hin Hs.
  - exists st. split; [ reflexivity | exact Hs ].
  - rewrite written_points_cons in Hin.
    assert (Hne' : forall v', In v' values -> v' <> [])
      by (intros; apply Hne; now right).
    cbn [for_loop].
    destruct (Nat.eqb_spec (length v) 1) as [E | E].
    + rewrite overlap_step_singleton by exact E. cbn [bind].
      apply IH; [ exact Hne' | exact Hin | exact Hs ].
    + assert (Hlen : (2 <= length v)%nat).
      { assert (v <> []) by (apply Hne; now left).
        destruct v as [| ? [| ? ?]]; simpl in *; try lia; congruence. }
      assert (Hin0 : forall p, In p (trace_points v) ->
                               in_bounds (frame_seq_stack st) p)
        by (intros; apply Hin, in_or_app; now left).
      destruct (overlap_step_rewrites algorithm Htotal alpha 0 v st Hlen Hin0)
        as (cons & Hcons & Hclen & ->).
      cbn [bind]. apply IH; [ exact Hne' | | ]; cbn [frame_seq_stack].
      * intros p Hp. apply (in_bounds_shape (frame_seq_stack st)).
        -- apply scatter_shape.
        -- apply Hin, in_or_app. now right.
      * unfold scatter. apply put_fold_same_values; [ exact Hs | ].
        intros p blk Hblk b c.
        destruct (in_scattered_blend _ _ _ _ _ _ Hblk)
          as (k & o & Hp & Ho & ->).
        (* the consensus is the window average, equal to the exact value *)
        unfold consensus in Hcons.
        apply bind_Ok_inv in Hcons.
        destruct Hcons as ([[pts latent] avg] & Hread & Hcons).
        rewrite algorithm_identity in Hcons. cbn [bind] in Hcons.
        assert (Havg : cons = avg).
        { unfold broadcast in Hcons.
          destruct (length avg =? length latent)%nat;
            [ now injection Hcons | ].
          destruct avg as [| a [| ? ?]]; try discriminate.
          injection Hcons as <-.
          destruct (read_traces_in_bounds 0 v (frame_seq_stack st))
            as (avg' & Hread' & Hlen'); [ | exact Hin0 | ].
          - intros ->. simpl in Hlen. lia.
          - rewrite Hread in Hread'. injection Hread' as _ _ <-.
            simpl in Hlen'. lia. }
        subst cons.
        destruct (read_traces_radius_zero v (frame_seq_stack st) pts latent
                    avg Hin0 Hread k o Ho) as (p' & Hp' & Ho').
        unfold point in *. rewrite Hp in Hp'. injection Hp' as <-.
        rewrite (Ho' b c). destruct p as [[f y] x]. cbn [block_at].
        rewrite (Hs f b c y x). ring.
Qed.

End IdentityConsensus.

(** X4. With a radius of 0, a consensus algorithm that returns its
    input and a blend strength of 0 or 1, a call whose progress bar
    raises nothing (the engine is looping, or the timestep is a number
    and the map holds at least 100 ids), on stackable frames that match
    the map and a map without empty occurrence lists whose written
    positions lie inside the frames, returns and changes no value: the
    window of radius 0 is the traced point itself, so the consensus is
    the value already there, and with a blend strength of 0 or 1 one of
    the two is written back as it is. *)
Theorem overlap_call_radius_zero_identity :
  forall (algorithm :
            list Block -> list Z -> list Z -> list Z -> result (list Block))
         (is_engine_looping : bool)
         (alpha_scheduler kernel_radius_scheduler : option Z -> option Q -> Q)
         (fr0 : Frame) (frame_seq : list Frame) (corr_map : CorrespondenceMap)
         (step : option Z) (timestep : option Q) (stack : FrameStack),
    is_engine_looping = true
    \/ ((exists t, timestep = Some t)
        /\ (100 <= length (Map corr_map))%nat) ->
    snd (fst (frame_shape fr0)) = height corr_map ->
    snd (frame_shape fr0) = width corr_map ->
    torch_stack (fr0 :: frame_seq) = Ok stack ->
    kernel_radius_of kernel_radius_scheduler step timestep = 0 ->
    (alpha_scheduler step timestep == 0
     \/ alpha_scheduler step timestep == 1)%Q ->
    (forall avg fs xs ys, algorithm avg fs xs ys = Ok avg) ->
    (forall v_info, In v_info (Map_values corr_map) -> v_info <> []) ->
    (forall p, In p (written_points (Map_values corr_map)) ->
               in_bounds stack p) ->
    exists out,
      Overlap_call algorithm is_engine_looping alpha_scheduler
        kernel_radius_scheduler (fr0 :: frame_seq) corr_map step timestep
      = Ok out
      /\ same_values out stack.
Proof.
  intros algorithm looping alpha_s radius_s fr0 frame_seq corr_map step
    timestep stack Hsilent Hh Hw Hstack HR _ Hid Hne Hin.
  rewrite (Overlap_call_progress_silent algorithm looping alpha_s radius_s
             fr0 frame_seq corr_map step timestep stack Hsilent Hh Hw
             Hstack).
  rewrite HR.
  destruct (overlap_loop_radius_zero algorithm Hid (alpha_s step timestep)
              stack (Map_values corr_map) (initial_state stack) Hne Hin)
    as (st' & Hrun & Hs).
  - intros f b c y x. reflexivity.
  - exists (frame_seq_stack st'). unfold overlap_pass.
    unfold overlap_loop in Hrun |- *. rewrite Hrun. auto.
Qed.

Lemma overlap_call_radius_zero_identity_witness :
  exists stack,
    torch_stack scenario_frames = Ok stack
    /\ (true = true
        \/ ((exists t, @None Q = Some t)
            /\ (100 <= length (Map scenario_map))%nat))
    /\ kernel_radius_of (fun _ _ => (1 # 2)%Q) None None = 0
    /\ ((fun (_ : option Z) (_ : option Q) => 1%Q) None None == 0
        \/ (fun (_ : option Z) (_ : option Q) => 1%Q) None None == 1)%Q
    /\ (forall v_info, In v_info (Map_values scenario_map) -> v_info <> [])
    /\ (forall p, In p (written_points (Map_values scenario_map)) ->
                  in_bounds stack p)
    /\ exists out,
         Overlap_call (fun (a : list Block) (_ _ _ : list Z) => Ok a) true
           (fun _ _ => 1%Q) (fun _ _ => (1 # 2)%Q) scenario_frames
           scenario_map None None = Ok out
         /\ same_values out stack.
Proof.
  eexists. split; [ reflexivity | ].
  match goal with
  | |- context [in_bounds ?s _] =>
      assert (Hin : forall p,
                 In p (written_points (Map_values scenario_map)) ->
                 in_bounds s p)
  end.
  { intros p [<- | [<- | [<- | []]]]; unfold in_bounds; simpl; lia. }
  assert (Hne : forall v_info,
             In v_info (Map_values scenario_map) -> v_info <> []).
  { intros v [<- | []]. discriminate. }
  assert (Halpha : ((fun (_ : option Z) (_ : option Q) => 1%Q) None None == 0
                    \/ (fun (_ : option Z) (_ : option Q) => 1%Q) None None
                       == 1)%Q)
    by (right; reflexivity).
  split; [ now left | ]. split; [ reflexivity | ].
  split; [ exact Halpha | ]. split; [ exact Hne | ].
  split; [ exact Hin | ].
  exact (overlap_call_radius_zero_identity
           (fun (a : list Block) (_ _ _ : list Z) => Ok a) true
           (fun _ _ => 1%Q) (fun _ _ => (1 # 2)%Q)
           (gray_frame 1 1 (fun _ _ => 10%Q))
           [gray_frame 1 1 (fun _ _ => 20%Q);
            gray_frame 1 1 (fun _ _ => 30%Q)]
           scenario_map None None _ (or_introl eq_refl) eq_refl eq_refl
           eq_refl eq_refl Halpha (fun _ _ _ _ => eq_refl) Hne Hin).
Defined.

(* ================================================================== *)
(** * Further properties: [Overlap.__call__]                           *)
(* ================================================================== *)

(** X5. When the engine is not looping, a call with a numeric timestep on
    frames that match the map raises [ZeroDivisionError] as soon as the
    map holds between 1 and 99 ids: [progress_slice] is then 0 and the
    first iteration computes [v_i % progress_slice]. *)
Theorem overlap_call_small_map_progress_bar :
  forall (algorithm :
            list Block -> list Z -> list Z -> list Z -> result (list Block))
         (alpha_scheduler kernel_radius_scheduler : option Z -> option Q -> Q)
         (fr0 : Frame) (frame_seq : list Frame) (corr_map : CorrespondenceMap)
         (step : option Z) (t : Q) (stack : FrameStack),
    snd (fst (frame_shape fr0)) = height corr_map ->
    snd (frame_shape fr0) = width corr_map ->
    torch_stack (fr0 :: frame_seq) = Ok stack ->
    (0 < length (Map corr_map) < 100)%nat ->
    Overlap_call algorithm false alpha_scheduler kernel_radius_scheduler
      (fr0 :: frame_seq) corr_map step (Some t)
    = Raise ZeroDivisionError.
Proof.
  intros algorithm alpha_s radius_s fr0 frame_seq corr_map step t stack
    Hh Hw Hstack Hlen.
  unfold Overlap_call.
  destruct (frame_shape fr0) as [[[b c] h] w]. simpl in Hh, Hw. subst h w.
  rewrite !Z.eqb_refl. simpl negb. cbv iota.
  rewrite Hstack. simpl bind at 1. simpl bind at 1.
  rewrite Z.div_small by lia.
  unfold enumerate, Map_values. rewrite length_map.
  destruct (Map corr_map) as [| kv rest]; [ simpl in Hlen; lia | ].
  reflexivity.
Qed.

Lemma overlap_call_small_map_progress_bar_witness :
  exists stack,
    (snd (fst (frame_shape (gray_frame 1 1 (fun _ _ => 10%Q))))
     = height scenario_map
     /\ snd (frame_shape (gray_frame 1 1 (fun _ _ => 10%Q)))
        = width scenario_map
     /\ torch_stack scenario_frames = Ok stack
     /\ (0 < length (Map scenario_map) < 100)%nat)
    /\ Overlap_call mean_algorithm false (fun _ _ => 1%Q) (fun _ _ => 0%Q)
         scenario_frames scenario_map None (Some 0%Q)
       = Raise ZeroDivisionError.
Proof.
  eexists. split.
  - split; [ reflexivity | ]. split; [ reflexivity | ].
    split; [ reflexivity | simpl; lia ].
  - apply (overlap_call_small_map_progress_bar mean_algorithm
             (fun _ _ => 1%Q) (fun _ _ => 0%Q)
             (gray_frame 1 1 (fun _ _ => 10%Q))
             [gray_frame 1 1 (fun _ _ => 20%Q);
              gray_frame 1 1 (fun _ _ => 30%Q)]
             scenario_map None 0%Q _ eq_refl eq_refl eq_refl).
    simpl. lia.
Defined.

(** X6. While the engine is looping, a call on stackable frames that
    match the map, with a map in which every id has one occurrence,
    returns the stacked input itself. *)
Theorem overlap_call_singletons_returns_stack :
  forall (algorithm :
            list Block -> list Z -> list Z -> list Z -> result (list Block))
         (alpha_scheduler kernel_radius_scheduler : option Z -> option Q -> Q)
         (fr0 : Frame) (frame_seq : list Frame) (corr_map : CorrespondenceMap)
         (step : option Z) (timestep : option Q) (stack : FrameStack),
    snd (fst (frame_shape fr0)) = height corr_map ->
    snd (frame_shape fr0) = width corr_map ->
    torch_stack (fr0 :: frame_seq) = Ok stack ->
    (forall v_info, In v_info (Map_values corr_map) ->
                    length v_info = 1%nat) ->
    Overlap_call algorithm true alpha_scheduler kernel_radius_scheduler
      (fr0 :: frame_seq) corr_map step timestep
    = Ok stack.
Proof.
  intros algorithm alpha_s radius_s fr0 frame_seq corr_map step timestep
    stack Hh Hw Hstack Hall.
  rewrite (Overlap_call_engine_looping algorithm alpha_s radius_s fr0
             frame_seq corr_map step timestep stack Hh Hw Hstack).
  unfold overlap_pass.
  destruct (overlap_loop_singletons algorithm (alpha_s step timestep)
              (kernel_radius_of radius_s step timestep)
              (Map_values corr_map) Hall (initial_state stack))
    as (st' & -> & Hs & _).
  cbn [bind]. now rewrite Hs.
Qed.

Lemma overlap_call_singletons_returns_stack_witness :
  exists stack,
    (torch_stack scenario_frames = Ok stack
     /\ (forall v_info,
            In v_info (Map_values {| Map := [(3, [((0, 0), 1)])];
                                     height := 1; width := 1 |}) ->
            length v_info = 1%nat))
    /\ Overlap_call mean_algorithm true (fun _ _ => 1%Q) (fun _ _ => 2%Q)
         scenario_frames
         {| Map := [(3, [((0, 0), 1)])]; height := 1; width := 1 |}
         None None
       = Ok stack.
Proof.
  assert (H : forall v_info : list occurrence,
             In v_info (Map_values {| Map := [(3, [((0, 0), 1)])];
                                      height := 1; width := 1 |}) ->
             length v_info = 1%nat).
  { intros v [<- | []]. reflexivity. }
  eexists. split; [ split; [ reflexivity | exact H ] | ].
  exact (overlap_call_singletons_returns_stack mean_algorithm
           (fun _ _ => 1%Q) (fun _ _ => 2%Q)
           (gray_frame 1 1 (fun _ _ => 10%Q))
           [gray_frame 1 1 (fun _ _ => 20%Q);
            gray_frame 1 1 (fun _ _ => 30%Q)]
           {| Map := [(3, [((0, 0), 1)])]; height := 1; width := 1 |}
           None None _ eq_refl eq_refl eq_refl H).
Defined.

(** X7. Whenever [Overlap.__call__] returns, the result has the shape of
    the stacked input: as many frames as were given, the batch size and
    channel count of the first frame, and the height and width the map
    declares. *)
Theorem overlap_call_result_shape :
  forall (algorithm :
            list Block -> list Z -> list Z -> list Z -> result (list Block))
         (is_engine_looping : bool)
         (alpha_scheduler kernel_radius_scheduler : option Z -> option Q -> Q)
         (fr0 : Frame) (frame_seq : list Frame) (corr_map : CorrespondenceMap)
         (step : option Z) (timestep : option Q) (out : FrameStack),
    Overlap_call algorithm is_engine_looping alpha_scheduler
      kernel_radius_scheduler (fr0 :: frame_seq) corr_map step timestep
    = Ok out ->
    stack_shape out
    = (Z.of_nat (length (fr0 :: frame_seq)),
       fst (fst (fst (frame_shape fr0))), snd (fst (fst (frame_shape fr0))),
       height corr_map, width corr_map).
Proof.
  intros algorithm looping alpha_s radius_s fr0 frame_seq corr_map step
    timestep out H.
  unfold Overlap_call in H.
  destruct (frame_shape fr0) as [[[b c] h] w] eqn:Hshape0.
  destruct (Z.eqb_spec h (height corr_map)) as [<- | _];
    [ | discriminate ].
  destruct (Z.eqb_spec w (width corr_map)) as [<- | _];
    [ | discriminate ].
  cbn [andb negb] in H.
  apply bind_Ok_inv in H. destruct H as (stack & Hstack & H).
  apply bind_Ok_inv in H. destruct H as (u & _ & H).
  apply bind_Ok_inv in H. destruct H as (st & Hloop & H).
  injection H as <-.
  assert (Hshape : stack_shape (frame_seq_stack st) = stack_shape stack).
  { refine (for_loop_invariant
              (fun st0 => stack_shape (frame_seq_stack st0) = stack_shape stack)
              _ _ _ (initial_state stack) st eq_refl Hloop).
    intros iv s0 s0' _ Hs0 Hbody.
    apply bind_Ok_inv in Hbody. destruct Hbody as (u' & _ & Hbody).
    apply overlap_step_shape in Hbody. congruence. }
  rewrite Hshape. unfold torch_stack in Hstack.
  destruct (forallb _ (fr0 :: frame_seq)); [ | discriminate ].
  rewrite Hshape0 in Hstack. injection Hstack as <-. reflexivity.
Qed.

Lemma overlap_call_result_shape_witness :
  exists out,
    Overlap_call mean_algorithm true (fun _ _ => 1%Q) (fun _ _ => 0%Q)
      scenario_frames scenario_map None None = Ok out
    /\ stack_shape out = (3, 1, 1, 1, 1).
Proof.
  eexists. split; [ reflexivity | ].
  exact (overlap_call_result_shape mean_algorithm true (fun _ _ => 1%Q)
           (fun _ _ => 0%Q) (gray_frame 1 1 (fun _ _ => 10%Q))
           [gray_frame 1 1 (fun _ _ => 20%Q);
            gray_frame 1 1 (fun _ _ => 30%Q)]
           scenario_map None None _ eq_refl).
Defined.

(* ================================================================== *)
(** * Further properties: the resize adapter                           *)
(* ================================================================== *)

Lemma merge_with_original_nth (num_frames : Z) (ovlp_seq frame_seq : list Frame)
  (merged : list Frame) (i : nat) (m : Frame) :
  merge_with_original num_frames ovlp_seq frame_seq = Ok merged ->
  nth_error merged i = Some m ->
  exists ovlp frame,
    nth_error ovlp_seq i = Some ovlp
    /\ nth_error frame_seq i = Some frame
    /\ m = where_nonzero ovlp frame.
Proof.
  unfold merge_with_original. intros H Hm.
  destruct (for_each_nth _ _ _ _ _ H Hm) as (a & Ha & Hbody).
  assert (Hlt : (i < Z.to_nat (num_frames - 0))%nat).
  { assert (Hn : nth_error (range 0 num_frames) i <> None) by congruence.
    apply nth_error_Some in Hn. now rewrite length_range in Hn. }
  rewrite nth_error_range in Ha by exact Hlt.
  assert (Hi : Z.to_nat a = i) by (injection Ha as <-; lia).
  unfold list_get in Hbody. rewrite Hi in Hbody.
  destruct (nth_error ovlp_seq i) as [o |]; [ | discriminate ].
  destruct (nth_error frame_seq i) as [fr |]; [ | discriminate ].
  cbn in Hbody. injection Hbody as <-. eauto.
Qed.

(** X8. The resize adapter never turns a non-zero input into zero:
    whenever it returns, an element of an output frame is zero only where
    the same element of the corresponding input frame is zero.  A blended
    value that is exactly zero is therefore never returned over a
    non-zero original. *)
Theorem resize_overlap_zero_only_over_zero :
  forall (algorithm :
            list Block -> list Z -> list Z -> list Z -> result (list Block))
         (is_engine_looping : bool)
         (alpha_scheduler kernel_radius_scheduler : option Z -> option Q -> Q)
         (F_interpolate : Frame -> Z * Z -> string -> option bool -> result Frame)
         (interpolate_mode : string)
         (frame_seq : list Frame) (corr_map : CorrespondenceMap)
         (step : option Z) (timestep : option Q) (merged : list Frame),
    ResizeOverlap_call algorithm is_engine_looping alpha_scheduler
      kernel_radius_scheduler F_interpolate interpolate_mode frame_seq
      corr_map step timestep = Ok merged ->
    forall i m,
      nth_error merged i = Some m ->
      exists frame,
        nth_error frame_seq i = Some frame
        /\ forall b c y x,
             (frame_at m b c y x == 0)%Q -> (frame_at frame b c y x == 0)%Q.
Proof.
  intros algorithm looping alpha_s radius_s F mode frame_seq corr_map step
    timestep merged H i m Hm.
  unfold ResizeOverlap_call in H.
  destruct frame_seq as [| fr0 rest]; [ discriminate | ].
  destruct (Qeq_bool (alpha_s step timestep) 0).
  - injection H as <-. exists m. auto.
  - unfold size in H. destruct (frame_shape fr0) as [[[b0 c0] h] w].
    apply bind_Ok_inv in H. destruct H as (up & _ & H).
    apply bind_Ok_inv in H. destruct H as (ovlp & _ & H).
    apply bind_Ok_inv in H. destruct H as (back & _ & H).
    destruct (h =? 0); [ discriminate | ].
    destruct (merge_with_original_nth _ _ _ _ _ _ H Hm)
      as (o & frame & _ & Hf & ->).
    exists frame. split; [ exact Hf | ].
    intros b c y x Hz.
    destruct (where_nonzero_at o frame b c y x) as (Hnz & Hzero).
    destruct (Qeq_dec (frame_at o b c y x) 0) as [E | E].
    + rewrite <- (Hzero E). exact Hz.
    + rewrite (Hnz E) in Hz. contradiction.
Qed.

Lemma resize_overlap_zero_only_over_zero_witness :
  exists merged,
    ResizeOverlap_call mean_algorithm true (fun _ _ => 1%Q)
      (fun _ _ => 0%Q) nearest_interpolate "nearest" scenario_frames
      scenario_map None None = Ok merged
    /\ forall i m,
         nth_error merged i = Some m ->
         exists frame,
           nth_error scenario_frames i = Some frame
           /\ forall b c y x,
                (frame_at m b c y x == 0)%Q ->
                (frame_at frame b c y x == 0)%Q.
Proof.
  eexists. split; [ reflexivity | ].
  exact (resize_overlap_zero_only_over_zero mean_algorithm true
           (fun _ _ => 1%Q) (fun _ _ => 0%Q) nearest_interpolate "nearest"
           scenario_frames scenario_map None None _ eq_refl).
Defined.

(** Iterating the tensor that [torch.stack] made gives the frames back. *)
Lemma unstack_torch_stack (frame_seq : list Frame) (s : FrameStack) :
  torch_stack frame_seq = Ok s -> unstack s = frame_seq.
Proof.
  unfold torch_stack. destruct frame_seq as [| fr0 rest]; [ discriminate | ].
  destruct (forallb _ (fr0 :: rest)) eqn:Hall; [ | discriminate ].
  destruct (frame_shape fr0) as [[[b c] h] w] eqn:Hshape0.
  intros H. injection H as <-. unfold unstack. cbn [stack_shape stack_at].
  apply nth_error_ext. intros k. rewrite nth_error_map.
  destruct (Nat.lt_ge_cases k (length (fr0 :: rest))) as [Hlt | Hge].
  - rewrite nth_error_range by (simpl in Hlt; lia). cbn [option_map].
    destruct (nth_error (fr0 :: rest) k) as [fr |] eqn:Ek;
      [ | apply nth_error_None in Ek; lia ].
    replace (Z.to_nat (0 + Z.of_nat k)) with k by lia.
    change (match k with 0%nat => fr0 | S m => nth m rest fr0 end)
      with (nth k (fr0 :: rest) fr0).
    rewrite (nth_error_nth _ _ fr0 Ek).
    assert (Hfr : frame_shape fr = (b, c, h, w)).
    { rewrite forallb_forall in Hall.
      specialize (Hall fr (nth_error_In _ _ Ek)).
      destruct (frame_shape fr) as [[[b' c'] h'] w']. cbn in Hall.
      apply andb_prop in Hall. destruct Hall as [Hall E4].
      apply andb_prop in Hall. destruct Hall as [Hall E3].
      apply andb_prop in Hall. destruct Hall as [E1 E2].
      apply Z.eqb_eq in E1, E2, E3, E4. congruence. }
    destruct fr as [shape fat]. cbn in Hfr |- *. now rewrite Hfr.
  - rewrite (proj2 (nth_error_None (fr0 :: rest) k)) by lia.
    rewrite (proj2 (nth_error_None (range 0 _) k)); [ reflexivity | ].
    rewrite length_range. simpl in Hge. lia.
Qed.

Lemma where_nonzero_same_pixels (ovlp frame : Frame) :
  same_pixels ovlp frame -> same_pixels (where_nonzero ovlp frame) frame.
Proof.
  intros H b c y x. cbn.
  destruct (Qeq_bool (frame_at ovlp b c y x) 0); cbn;
    [ reflexivity | apply H ].
Qed.

(** X9. On a map in which every id has one occurrence (engine looping,
    blend strength not 0), the resize adapter resizes the frames to the
    map's resolution, gets them back unchanged from the overlap call,
    resizes them back and merges: when resizing there and back reproduces
    the frames, it returns frames equal to its input. *)
Theorem resize_overlap_singletons_round_trip :
  forall (algorithm :
            list Block -> list Z -> list Z -> list Z -> result (list Block))
         (alpha_scheduler kernel_radius_scheduler : option Z -> option Q -> Q)
         (F_interpolate : Frame -> Z * Z -> string -> option bool -> result Frame)
         (interpolate_mode : string)
         (fr0 : Frame) (frame_seq : list Frame) (corr_map : CorrespondenceMap)
         (step : option Z) (timestep : option Q)
         (resized : list Frame) (stack : FrameStack) (back : list Frame),
    (~ alpha_scheduler step timestep == 0)%Q ->
    snd (fst (frame_shape fr0)) <> 0 ->
    (forall v_info, In v_info (Map_values corr_map) ->
                    length v_info = 1%nat) ->
    resize_all F_interpolate interpolate_mode (fr0 :: frame_seq)
      (height corr_map, width corr_map) = Ok resized ->
    (forall fr, In fr resized ->
                snd (fst (frame_shape fr)) = height corr_map
                /\ snd (frame_shape fr) = width corr_map) ->
    torch_stack resized = Ok stack ->
    resize_all F_interpolate interpolate_mode resized
      (snd (fst (frame_shape fr0)), snd (frame_shape fr0)) = Ok back ->
    (forall i b f,
        nth_error back i = Some b ->
        nth_error (fr0 :: frame_seq) i = Some f -> same_pixels b f) ->
    exists merged,
      ResizeOverlap_call algorithm true alpha_scheduler
        kernel_radius_scheduler F_interpolate interpolate_mode
        (fr0 :: frame_seq) corr_map step timestep = Ok merged
      /\ length merged = length (fr0 :: frame_seq)
      /\ forall i m f,
           nth_error merged i = Some m ->
           nth_error (fr0 :: frame_seq) i = Some f -> same_pixels m f.
Proof.
  intros algorithm alpha_s radius_s F mode fr0 frame_seq corr_map step
    timestep resized stack back Halpha Hh Hall Hup Hsize Hstack Hback Hrt.
  assert (Hlen_up : length resized = length (fr0 :: frame_seq))
    by exact (for_each_length _ _ _ Hup).
  assert (Hlen : length back = length (fr0 :: frame_seq)).
  { rewrite (for_each_length _ _ _ Hback). exact Hlen_up. }
  assert (Hcall : Overlap_call algorithm true alpha_s radius_s resized
                    corr_map step timestep = Ok stack).
  { destruct resized as [| r0 rrest]; [ discriminate Hlen_up | ].
    destruct (Hsize r0 (or_introl eq_refl)) as (Hh0 & Hw0).
    rewrite (Overlap_call_engine_looping algorithm alpha_s radius_s r0 rrest
               corr_map step timestep stack Hh0 Hw0 Hstack).
    unfold overlap_pass.
    destruct (overlap_loop_singletons algorithm (alpha_s step timestep)
                (kernel_radius_of radius_s step timestep)
                (Map_values corr_map) Hall (initial_state stack))
      as (st' & -> & Hs & _).
    cbn [bind]. now rewrite Hs. }
  exists (map (fun p : Frame * Frame => where_nonzero (fst p) (snd p))
              (combine back (fr0 :: frame_seq))).
  split; [ | split ].
  - unfold ResizeOverlap_call.
    destruct (Qeq_bool (alpha_s step timestep) 0) eqn:E;
      [ apply Qeq_bool_iff in E; contradiction | ].
    unfold size. destruct (frame_shape fr0) as [[[b c] h] w].
    cbn [fst snd] in Hh, Hback. rewrite Hup. unfold bind at 1.
    rewrite Hcall. unfold bind at 1.
    rewrite (unstack_torch_stack resized stack Hstack).
    rewrite Hback. unfold bind at 1.
    destruct (Z.eqb_spec h 0) as [-> | _]; [ contradiction | ].
    now apply merge_with_original_spec.
  - rewrite length_map, length_combine. lia.
  - intros i m f Hm Hf.
    rewrite nth_error_map, nth_error_combine, Hf in Hm.
    destruct (nth_error back i) as [b |] eqn:Eb; [ | discriminate ].
    cbn in Hm. injection Hm as <-.
    apply where_nonzero_same_pixels. exact (Hrt i b f Eb Hf).
Qed.

Lemma resize_overlap_singletons_round_trip_witness :
  exists merged,
    ResizeOverlap_call mean_algorithm true (fun _ _ => 1%Q)
      (fun _ _ => 2%Q) nearest_interpolate "nearest" scenario_frames
      {| Map := [(3, [((0, 0), 1)])]; height := 1; width := 1 |}
      None None = Ok merged
    /\ length merged = length scenario_frames
    /\ forall i m f,
         nth_error merged i = Some m ->
         nth_error scenario_frames i = Some f -> same_pixels m f.
Proof.
  refine (resize_overlap_singletons_round_trip mean_algorithm
            (fun _ _ => 1%Q) (fun _ _ => 2%Q) nearest_interpolate "nearest"
            (gray_frame 1 1 (fun _ _ => 10%Q))
            [gray_frame 1 1 (fun _ _ => 20%Q);
             gray_frame 1 1 (fun _ _ => 30%Q)]
            {| Map := [(3, [((0, 0), 1)])]; height := 1; width := 1 |}
            None None _ _ _ _ _ _ eq_refl _ eq_refl eq_refl _).
  - discriminate.
  - discriminate.
  - intros v [<- | []]. reflexivity.
  - intros fr [<- | [<- | [<- | []]]]; split; reflexivity.
  - intros [| [| [| i]]] b f Hb Hf; cbn in Hb, Hf;
      try (destruct i; discriminate);
      injection Hb as <-; injection Hf as <-; intros bi ci y x; reflexivity.
Defined.

(* ================================================================== *)
(** * Further properties: the consensus kernel                         *)
(* ================================================================== *)

Section KernelMore.

Open Scope Q_scope.

Lemma fold_row_keeps_shape (h : Q -> Z -> Q) (t0 t1 : Z) (l : list Z) :
  forall a : ndarray3,
    shape3 (fold_left (fun a i => set3 a t0 t1 i (h (at3 a t0 t1 i) i)) l a)
    = shape3 a.
Proof.
  induction l as [| i l IH]; intros a; simpl; [ reflexivity | ].
  now rewrite IH.
Qed.

Lemma accumulate_cells_shape (id_flatten_maps origin_values : ndarray3)
  (index_ivec2 : Z * Z) (cell_contains_pixel : Z) (contributions : ndarray2)
  (cells : list (Z * Z)) :
  forall (total_sim : Q) (new_values : ndarray3),
    shape3 (snd (accumulate_cells id_flatten_maps origin_values index_ivec2
                   cell_contains_pixel contributions cells
                   (total_sim, new_values)))
    = shape3 new_values.
Proof.
  unfold accumulate_cells.
  induction cells as [| [b i] cells IH]; intros t nv; [ reflexivity | ].
  cbn [fold_left fst snd].
  destruct ((b =? fst index_ivec2)%Z && (i =? snd index_ivec2)%Z).
  - apply IH.
  - rewrite IH. unfold _sum_up_values.
    apply (fold_row_keeps_shape
             (fun v i0 => v + at3 origin_values b i i0
                              * _get_similarity id_flatten_maps
                                  (fst index_ivec2, snd index_ivec2) (b, i)
                                  cell_contains_pixel contributions)).
Qed.

(** A channel index outside [range(value_len)] is never written. *)
Lemma accumulate_cells_channel_miss (id_flatten_maps origin_values : ndarray3)
  (index_ivec2 : Z * Z) (cell_contains_pixel : Z) (contributions : ndarray2)
  (cells : list (Z * Z)) (k : Z) :
  ~ (0 <= k < shape3_last origin_values)%Z ->
  forall (total_sim : Q) (new_values : ndarray3) (j0 j1 : Z),
    at3 (snd (accumulate_cells id_flatten_maps origin_values index_ivec2
                cell_contains_pixel contributions cells
                (total_sim, new_values))) j0 j1 k
    = at3 new_values j0 j1 k.
Proof.
  intros Hk. unfold accumulate_cells.
  induction cells as [| [b i] cells IH]; intros t nv j0 j1; [ reflexivity | ].
  cbn [fold_left fst snd].
  destruct ((b =? fst index_ivec2)%Z && (i =? snd index_ivec2)%Z).
  - apply IH.
  - rewrite IH. unfold _sum_up_values.
    apply (fold_row_miss
             (fun v i0 => v + at3 origin_values b i i0
                              * _get_similarity id_flatten_maps
                                  (fst index_ivec2, snd index_ivec2) (b, i)
                                  cell_contains_pixel contributions)).
    right. right. rewrite in_range. exact Hk.
Qed.

Lemma cell_values_overlap_channel_miss
  (id_flatten_maps origin_values new_values : ndarray3)
  (index_ivec2 : Z * Z) (cell_contains_pixel : Z) (contributions : ndarray2)
  (j0 j1 k : Z) :
  ~ (0 <= k < shape3_last origin_values)%Z ->
  at3 (_cell_values_overlap id_flatten_maps origin_values new_values
         index_ivec2 cell_contains_pixel contributions) j0 j1 k
  = at3 new_values j0 j1 k.
Proof.
  intros Hk. rewrite cell_values_overlap_normalizes. unfold _mult_values.
  rewrite (fold_row_miss
             (fun v _ => v * (1 / total_sim_of id_flatten_maps origin_values
                                     new_values index_ivec2
                                     cell_contains_pixel contributions)))
    by (right; right; rewrite in_range; exact Hk).
  rewrite accumulate_cells_channel_miss by exact Hk.
  unfold _sum_up_values.
  apply (fold_row_miss
           (fun v i0 => v + at3 origin_values (fst index_ivec2)
                              (snd index_ivec2) i0 * 1)).
  right. right. rewrite in_range. exact Hk.
Qed.

Lemma cell_values_overlap_shape
  (id_flatten_maps origin_values new_values : ndarray3)
  (index_ivec2 : Z * Z) (cell_contains_pixel : Z) (contributions : ndarray2) :
  shape3 (_cell_values_overlap id_flatten_maps origin_values new_values
            index_ivec2 cell_contains_pixel contributions)
  = shape3 new_values.
Proof.
  rewrite cell_values_overlap_normalizes. unfold _mult_values.
  rewrite (fold_row_keeps_shape
             (fun v _ => v * (1 / total_sim_of id_flatten_maps origin_values
                                     new_values index_ivec2
                                     cell_contains_pixel contributions))).
  rewrite accumulate_cells_shape. unfold _sum_up_values.
  apply (fold_row_keeps_shape
           (fun v i0 => v + at3 origin_values (fst index_ivec2)
                              (snd index_ivec2) i0 * 1)).
Qed.

(** X10. The kernel writes the slots [[b, i, k]] with [b], [i] and [k]
    inside the shape of [origin_values] and nothing else: every other
    slot of the placeholder keeps its content, and so does its shape. *)
Theorem kernel_writes_only_value_slots :
  forall (id_flatten_maps origin_values new_values : ndarray3)
         (contributions : ndarray2) (b i k : Z),
    shape3 (taichi_cells_overlap id_flatten_maps origin_values new_values
              contributions)
    = shape3 new_values
    /\ (~ ((0 <= b < shape3_0 origin_values)%Z
           /\ (0 <= i < shape3_1 origin_values)%Z
           /\ (0 <= k < shape3_last origin_values)%Z) ->
        at3 (taichi_cells_overlap id_flatten_maps origin_values new_values
               contributions) b i k
        = at3 new_values b i k).
Proof.
  intros id ov nv contributions b i k. unfold taichi_cells_overlap. cbv zeta.
  generalize (shape3_1 id / shape3_1 ov)%Z as cpp. intros cpp.
  split.
  - generalize (ndrange (shape3_0 ov) (shape3_1 ov)) as cells.
    intros cells. revert nv.
    induction cells as [| bi cells IH]; intros nv; [ reflexivity | ].
    cbn [fold_left]. rewrite IH. apply cell_values_overlap_shape.
  - intros Hout.
    destruct (Z_lt_le_dec k 0) as [Hk | Hk];
      [ | destruct (Z_lt_le_dec k (shape3_last ov)) as [Hk' | Hk'] ].
    2: { apply kernel_fold_miss. rewrite in_ndrange. lia. }
    all: generalize (ndrange (shape3_0 ov) (shape3_1 ov)) as cells;
      intros cells; revert nv;
      induction cells as [| bi cells IH]; intros nv; [ reflexivity | ];
      cbn [fold_left]; rewrite IH;
      apply cell_values_overlap_channel_miss; lia.
Qed.

(** X11. The kernel accumulates into the placeholder: what [new_values]
    held in a written slot is added to the result, divided by the weight
    of the cell.  Only a zeroed placeholder gives the weighted average
    alone. *)
Theorem kernel_adds_to_placeholder :
  forall (id_flatten_maps origin_values new_values zeros : ndarray3)
         (contributions : ndarray2) (b i k : Z),
    (forall b' i' k', at3 zeros b' i' k' == 0) ->
    (0 <= b < shape3_0 origin_values)%Z ->
    (0 <= i < shape3_1 origin_values)%Z ->
    (0 <= k < shape3_last origin_values)%Z ->
    at3 (taichi_cells_overlap id_flatten_maps origin_values new_values
           contributions) b i k
    == at3 (taichi_cells_overlap id_flatten_maps origin_values zeros
              contributions) b i k
       + at3 new_values b i k
         * (1 / total_weight id_flatten_maps (b, i)
                  (shape3_1 id_flatten_maps / shape3_1 origin_values)
                  contributions
                  (ndrange (shape3_0 origin_values)
                     (shape3_1 origin_values))).
Proof.
  intros id ov nv zeros contributions b i k Hz Hb Hi Hk.
  unfold taichi_cells_overlap. cbv zeta.
  rewrite !kernel_fold_hit;
    try apply NoDup_ndrange; try (apply in_ndrange; split; assumption);
    try exact Hk.
  rewrite Hz. ring.
Qed.

Lemma kernel_adds_to_placeholder_witness :
  ((forall b' i' k', at3 zero_placeholder b' i' k' == 0)
   /\ (0 <= 0 < shape3_0 two_cells)%Z
   /\ (0 <= 1 < shape3_1 two_cells)%Z
   /\ (0 <= 0 < shape3_last two_cells)%Z)
  /\ at3 (taichi_cells_overlap (same_identity 2) two_cells two_cells
            (unit_contributions 2)) 0 1 0
     == at3 (taichi_cells_overlap (same_identity 2) two_cells
               zero_placeholder (unit_contributions 2)) 0 1 0
        + at3 two_cells 0 1 0
          * (1 / total_weight (same_identity 2) (0, 1)%Z
                   (shape3_1 (same_identity 2) / shape3_1 two_cells)
                   (unit_contributions 2)
                   (ndrange (shape3_0 two_cells) (shape3_1 two_cells))).
Proof.
  assert (H0 : forall b' i' k', at3 zero_placeholder b' i' k' == 0)
    by (intros; reflexivity).
  assert (H1 : (0 <= 0 < shape3_0 two_cells)%Z) by (vm_compute; intuition discriminate).
  assert (H2 : (0 <= 1 < shape3_1 two_cells)%Z) by (vm_compute; intuition discriminate).
  assert (H3 : (0 <= 0 < shape3_last two_cells)%Z) by (vm_compute; intuition discriminate).
  split; [ repeat split; assumption || apply H1 || apply H2 || apply H3 | ].
  exact (kernel_adds_to_placeholder (same_identity 2) two_cells two_cells
           zero_placeholder (unit_contributions 2) 0 1 0 H0 H1 H2 H3).
Defined.

End KernelMore.

Section KernelWeights.

Open Scope Q_scope.

Lemma check_values_equal_differ (values : ndarray3) (value_len : Z)
  (a b : Z * Z) (i : Z) :
  (0 <= i < value_len)%Z ->
  ~ at3 values (fst a) (snd a) i == at3 values (fst b) (snd b) i ->
  _check_values_equal values value_len a b = 0%Z.
Proof.
  intros Hi Hne. unfold _check_values_equal.
  assert (Hin : In i (range 0 value_len)) by (apply in_range; exact Hi).
  revert Hin. generalize (range 0 value_len) as l. generalize 1%Z as e.
  intros e l. revert e.
  induction l as [| j l IH]; intros e Hin; [ destruct Hin | ].
  cbn [fold_left]. destruct Hin as [-> | Hin]; [ | now apply IH ].
  destruct (Qeq_bool (at3 values (fst a) (snd a) i)
              (at3 values (fst b) (snd b) i)) eqn:E.
  - apply Qeq_bool_iff in E. contradiction.
  - cbn [negb]. clear IH. induction l as [| j' l IH']; [ reflexivity | ].
    cbn [fold_left]. now destruct (negb _).
Qed.

(** X12. A cell whose pixels share no identity tuple with any pixel of
    any other cell has similarity 0 to all of them: with a zeroed
    placeholder the kernel returns the cell's own value. *)
Theorem kernel_disjoint_identities_keep_value :
  forall (id_flatten_maps origin_values new_values : ndarray3)
         (contributions : ndarray2) (b i k : Z),
    (forall b' i' k', at3 new_values b' i' k' == 0) ->
    (0 <= b < shape3_0 origin_values)%Z ->
    (0 <= i < shape3_1 origin_values)%Z ->
    (0 <= k < shape3_last origin_values)%Z ->
    (let cell_contains_pixel :=
       (shape3_1 id_flatten_maps / shape3_1 origin_values)%Z in
     forall q j x y,
       (0 <= q < shape3_0 origin_values)%Z ->
       (0 <= j < shape3_1 origin_values)%Z ->
       (q, j) <> (b, i) ->
       (i * cell_contains_pixel <= x
        < i * cell_contains_pixel + cell_contains_pixel)%Z ->
       (j * cell_contains_pixel <= y
        < j * cell_contains_pixel + cell_contains_pixel)%Z ->
       exists comp,
         (0 <= comp < shape3_last id_flatten_maps)%Z
         /\ ~ at3 id_flatten_maps b x comp == at3 id_flatten_maps q y comp) ->
    at3 (taichi_cells_overlap id_flatten_maps origin_values new_values
           contributions) b i k
    == at3 origin_values b i k.
Proof.
  intros id ov nv contributions b i k Hz Hb Hi Hk Hdiff. cbv zeta in Hdiff.
  unfold taichi_cells_overlap. cbv zeta.
  rewrite kernel_fold_hit;
    [ | apply NoDup_ndrange | apply in_ndrange; split; assumption
      | exact Hk ].
  assert (Hsim : forall bi,
             In bi (other_cells (b, i)
                      (ndrange (shape3_0 ov) (shape3_1 ov))) ->
             similarity_to id (b, i) (shape3_1 id / shape3_1 ov)
               contributions bi == 0).
  { intros [q j] Hin. unfold other_cells in Hin. apply filter_In in Hin.
    destruct Hin as (Hcell & Hne). cbn [fst snd] in Hne.
    apply in_ndrange in Hcell. destruct Hcell as (Hq & Hj).
    assert (Hneq : (q, j) <> (b, i)).
    { intros Heq. injection Heq as -> ->.
      rewrite !Z.eqb_refl in Hne. discriminate. }
    unfold similarity_to. rewrite get_similarity_sum. cbn [fst snd].
    rewrite (Qsum_const _ 0); [ ring | ].
    intros x Hx. rewrite (Qsum_const _ 0); [ ring | ].
    intros y Hy. apply in_range in Hx, Hy.
    destruct (Hdiff q j x y Hq Hj Hneq Hx Hy) as (comp & Hc & Hd).
    rewrite (check_values_equal_differ id (shape3_last id) (b, x) (q, y)
               comp Hc Hd).
    setoid_replace (inject_Z 0) with 0 by reflexivity. ring. }
  unfold weighted_sum, total_weight.
  rewrite (Qsum_const _ 0)
    by (intros bi Hbi; rewrite (Hsim bi Hbi); ring).
  rewrite (Qsum_const (similarity_to id (b, i) (shape3_1 id / shape3_1 ov)
                         contributions) 0)
    by exact Hsim.
  rewrite Hz. field.
Qed.

Lemma kernel_disjoint_identities_keep_value_witness :
  at3 (taichi_cells_overlap (distinct_identity 4) two_cells zero_placeholder
         (unit_contributions 4)) 0 1 0
  == at3 two_cells 0 1 0.
Proof.
  apply (kernel_disjoint_identities_keep_value (distinct_identity 4)
           two_cells zero_placeholder (unit_contributions 4) 0 1 0).
  - intros; reflexivity.
  - vm_compute; intuition discriminate.
  - vm_compute; intuition discriminate.
  - vm_compute; intuition discriminate.
  - cbv zeta. change (shape3_1 (distinct_identity 4) / shape3_1 two_cells)%Z
      with 2%Z.
    intros q j x y Hq Hj Hne Hx Hy. exists 0%Z.
    split; [ vm_compute; intuition discriminate | ].
    cbn. intros H. unfold Qeq in H. cbn in H.
    assert (Hxy : x = y) by lia.
    change (shape3_0 two_cells) with 1%Z in Hq.
    change (shape3_1 two_cells) with 2%Z in Hj.
    assert (j = 1%Z) by lia. assert (q = 0%Z) by lia.
    subst. now apply Hne.
Defined.

End KernelWeights.

Section KernelAverage.

Open Scope Q_scope.

Lemma Qsum_weighted_bounds {A : Type} (v w : A -> Q) (m M : Q) (l : list A) :
  (forall a, In a l -> 0 <= w a) ->
  (forall a, In a l -> m <= v a <= M) ->
  m * Qsum (map w l) <= Qsum (map (fun a => v a * w a) l)
  /\ Qsum (map (fun a => v a * w a) l) <= M * Qsum (map w l).
Proof.
  induction l as [| a l IH]; intros Hw Hv.
  - cbn. split; lra.
  - cbn [map Qsum fold_right].
    change (fold_right Qplus 0 (map w l)) with (Qsum (map w l)).
    change (fold_right Qplus 0 (map (fun a0 => v a0 * w a0) l))
      with (Qsum (map (fun a0 => v a0 * w a0) l)).
    destruct IH as (IH1 & IH2);
      [ intros; apply Hw; now right | intros; apply Hv; now right | ].
    pose proof (Hw a (or_introl eq_refl)) as Hwa.
    destruct (Hv a (or_introl eq_refl)) as (Hva1 & Hva2).
    split; nra.
Qed.

(** X13. With a zeroed placeholder and contributions that are not
    negative, the kernel's output for a cell is a weighted average: it
    lies between any two bounds that enclose the values of all cells in
    that channel. *)
Theorem kernel_output_between_bounds :
  forall (id_flatten_maps origin_values new_values : ndarray3)
         (contributions : ndarray2) (m M : Q) (b i k : Z),
    (forall b' x, 0 <= at2 contributions b' x) ->
    (forall b' i' k', at3 new_values b' i' k' == 0) ->
    (0 <= b < shape3_0 origin_values)%Z ->
    (0 <= i < shape3_1 origin_values)%Z ->
    (0 <= k < shape3_last origin_values)%Z ->
    (forall q j,
        (0 <= q < shape3_0 origin_values)%Z ->
        (0 <= j < shape3_1 origin_values)%Z ->
        m <= at3 origin_values q j k <= M) ->
    m <= at3 (taichi_cells_overlap id_flatten_maps origin_values new_values
                contributions) b i k
    /\ at3 (taichi_cells_overlap id_flatten_maps origin_values new_values
              contributions) b i k <= M.
Proof.
  intros id ov nv contributions m M b i k Hc Hz Hb Hi Hk Hv.
  unfold taichi_cells_overlap. cbv zeta.
  rewrite kernel_fold_hit;
    [ | apply NoDup_ndrange | apply in_ndrange; split; assumption
      | exact Hk ].
  rewrite Hz. unfold weighted_sum, total_weight.
  set (cpp := (shape3_1 id / shape3_1 ov)%Z).
  set (others := other_cells (b, i) (ndrange (shape3_0 ov) (shape3_1 ov))).
  destruct (Qsum_weighted_bounds
              (fun bi : Z * Z => at3 ov (fst bi) (snd bi) k)
              (similarity_to id (b, i) cpp contributions) m M others)
    as (Hlo & Hhi).
  { intros bi _. unfold similarity_to. now apply get_similarity_nonneg. }
  { intros [q j] Hin. unfold others, other_cells in Hin.
    apply filter_In in Hin. destruct Hin as (Hcell & _).
    apply in_ndrange in Hcell. apply Hv; tauto. }
  assert (Hs : 0 <= Qsum (map (similarity_to id (b, i) cpp contributions)
                            others)).
  { apply Qsum_nonneg. intros bi _. unfold similarity_to.
    now apply get_similarity_nonneg. }
  destruct (Hv b i Hb Hi) as (Hself1 & Hself2).
  set (S := Qsum (map (similarity_to id (b, i) cpp contributions) others))
    in *.
  set (W := Qsum (map (fun bi : Z * Z =>
                         at3 ov (fst bi) (snd bi) k
                         * similarity_to id (b, i) cpp contributions bi)
                      others)) in *.
  assert (HT : 0 < 1 + S) by lra.
  setoid_replace ((0 + at3 ov b i k * 1 + W) * (1 / (1 + S)))
    with ((at3 ov b i k + W) / (1 + S))
    by (unfold Qdiv; ring).
  split.
  - apply Qle_shift_div_l; [ exact HT | ]. nra.
  - apply Qle_shift_div_r; [ exact HT | ]. nra.
Qed.

Lemma kernel_output_between_bounds_witness :
  10 <= at3 (taichi_cells_overlap (same_identity 4) two_cells
               zero_placeholder (unit_contributions 4)) 0 0 0
  /\ at3 (taichi_cells_overlap (same_identity 4) two_cells zero_placeholder
            (unit_contributions 4)) 0 0 0 <= 30.
Proof.
  apply (kernel_output_between_bounds (same_identity 4) two_cells
           zero_placeholder (unit_contributions 4) 10 30 0 0 0).
  - intros b' x. cbn. lra.
  - intros; reflexivity.
  - vm_compute; intuition discriminate.
  - vm_compute; intuition discriminate.
  - vm_compute; intuition discriminate.
  - intros q j _ _. cbn. destruct (j =? 0)%Z; lra.
Defined.

Lemma check_values_equal_sym (values : ndarray3) (value_len : Z)
  (a b : Z * Z) :
  _check_values_equal values value_len a b
  = _check_values_equal values value_len b a.
Proof.
  unfold _check_values_equal.
  generalize (range 0 value_len) as l. generalize 1%Z as e.
  intros e l. revert e.
  induction l as [| i l IH]; intros e; [ reflexivity | ].
  cbn [fold_left].
  assert (E : Qeq_bool (at3 values (fst a) (snd a) i)
                (at3 values (fst b) (snd b) i)
              = Qeq_bool (at3 values (fst b) (snd b) i)
                  (at3 values (fst a) (snd a) i)).
  { destruct (Qeq_bool (at3 values (fst a) (snd a) i)
                (at3 values (fst b) (snd b) i)) eqn:E1;
      destruct (Qeq_bool (at3 values (fst b) (snd b) i)
                  (at3 values (fst a) (snd a) i)) eqn:E2; try reflexivity.
    - apply Qeq_bool_iff in E1. symmetry in E1.
      apply Qeq_bool_iff in E1. congruence.
    - apply Qeq_bool_iff in E2. symmetry in E2.
      apply Qeq_bool_iff in E2. congruence. }
  rewrite E. apply IH.
Qed.

Lemma Qsum_swap {A B : Type} (g : A -> B -> Q) (l1 : list A) (l2 : list B) :
  Qsum (map (fun x => Qsum (map (g x) l2)) l1)
  == Qsum (map (fun i => Qsum (map (fun x => g x i) l1)) l2).
Proof.
  induction l1 as [| x l1 IH].
  - cbn [map Qsum fold_right]. symmetry.
    rewrite (Qsum_const _ 0) by (intros; reflexivity). ring.
  - cbn [map Qsum fold_right].
    change (fold_right Qplus 0 (map (fun x0 => Qsum (map (g x0) l2)) l1))
      with (Qsum (map (fun x0 => Qsum (map (g x0) l2)) l1)).
    rewrite IH. clear IH.
    induction l2 as [| i l2 IH2]; cbn [map Qsum fold_right]; [ ring | ].
    change (fold_right Qplus 0 (map (g x) l2)) with (Qsum (map (g x) l2)).
    change (fold_right Qplus 0
              (map (fun i0 => Qsum (map (fun x0 => g x0 i0) l1)) l2))
      with (Qsum (map (fun i0 => Qsum (map (fun x0 => g x0 i0) l1)) l2)).
    change (fold_right Qplus 0
              (map (fun i0 => g x i0
                               + fold_right Qplus 0
                                   (map (fun x0 => g x0 i0) l1)) l2))
      with (Qsum (map (fun i0 => Qsum (map (fun x0 => g x0 i0) (x :: l1)))
                      l2)).
    change (fold_right Qplus 0 (map (fun x0 => g x0 i) l1))
      with (Qsum (map (fun x0 => g x0 i) l1)).
    rewrite <- IH2. ring.
Qed.

(** X14. The similarity is symmetric: a cell is as similar to another as
    the other is to it, whatever the identity maps and contributions. *)
Theorem get_similarity_symmetric :
  forall (id_flatten_maps : ndarray3) (cell_a cell_b : Z * Z)
         (cell_contains_pixel : Z) (contributions : ndarray2),
    _get_similarity id_flatten_maps cell_a cell_b cell_contains_pixel
      contributions
    == _get_similarity id_flatten_maps cell_b cell_a cell_contains_pixel
         contributions.
Proof.
  intros id a b cpp contributions.
  rewrite !get_similarity_sum. rewrite Qsum_swap.
  apply Qsum_ext. intros i _. apply Qsum_ext. intros x _.
  rewrite (check_values_equal_sym id (shape3_last id) (fst a, x) (fst b, i)).
  ring.
Qed.

End KernelAverage.

(* ================================================================== *)
(** * Further properties: extended traces outside the usual call       *)
(* ================================================================== *)

Lemma extend_loop_short_frame_trace (R max_x max_y : Z) (fs : list Z)
  (zipped : list (Z * Z)) :
  forall (idx : nat) (ext : list entry * list entry * list entry),
    (idx <= length fs < idx + length zipped)%nat ->
    extend_loop R fs max_x max_y idx zipped ext = Raise IndexError.
Proof.
  induction zipped as [| [y x] rest IH]; intros idx [[ef ey] ex] H.
  - simpl in H. lia.
  - simpl in H. cbn [extend_loop].
    destruct (nth_error fs idx) as [f |] eqn:Ef; [ | reflexivity ].
    apply IH.
    assert (idx < length fs)%nat
      by (apply nth_error_Some; congruence).
    lia.
Qed.

(** X15. Given a frame-index trace shorter than both position traces,
    [_get_extended_traces] raises [IndexError], whatever the radius and
    the bounds: the loop runs over the zipped positions and reads
    [frame_index_trace[idx]] for each of them. *)
Theorem get_extended_traces_short_frame_trace :
  forall (R : Z) (fs xs ys : list Z) (max_x max_y : Z),
    (length fs < length ys)%nat ->
    (length fs < length xs)%nat ->
    _get_extended_traces R fs xs ys max_x max_y = Raise IndexError.
Proof.
  intros R fs xs ys max_x max_y Hy Hx. unfold _get_extended_traces.
  apply extend_loop_short_frame_trace.
  rewrite length_combine. lia.
Qed.

Lemma get_extended_traces_short_frame_trace_witness :
  (length [0] < length [0; 0])%nat
  /\ (length [0] < length [0; 0])%nat
  /\ _get_extended_traces 1 [0] [0; 0] [0; 0] 2 2 = Raise IndexError.
Proof.
  split; [ simpl; lia | ]. split; [ simpl; lia | ].
  apply (get_extended_traces_short_frame_trace 1 [0] [0; 0] [0; 0] 2 2);
    simpl; lia.
Defined.

Lemma window_positions_negative_radius (R dim pos : Z) :
  R < 0 -> window_positions R dim pos = [].
Proof.
  intros H. unfold window_positions, range.
  replace (Z.to_nat (R + 1 - - R)) with 0%nat by lia. reflexivity.
Qed.

(** X16. With a negative radius the offsets [range(-R, R + 1)] are
    empty: every entry of the three extended traces is an empty list, so
    no neighbourhood is left to average. *)
Theorem get_extended_traces_negative_radius :
  forall (R : Z) (fs xs ys : list Z) (max_x max_y : Z),
    R < 0 ->
    length ys = length fs ->
    length xs = length fs ->
    _get_extended_traces R fs xs ys max_x max_y
    = Ok (map (fun _ => Window []) fs, map (fun _ => Window []) ys,
          map (fun _ => Window []) xs).
Proof.
  intros R fs xs ys max_x max_y HR Hys Hxs.
  unfold _get_extended_traces.
  destruct (extend_loop_spec R max_x max_y fs (combine ys xs) 0
              (map Scalar fs) (map Scalar ys) (map Scalar xs))
    as (ef & ey & ex & Hrun & Lf & Ly & Lx & _ & Hin);
    rewrite ?length_combine, ?length_map; try lia.
  rewrite length_map in Lf, Ly, Lx.
  rewrite Hrun.
  assert (Hk : forall k,
             (k < length fs)%nat ->
             nth_error ef k = Some (Window [])
             /\ nth_error ey k = Some (Window [])
             /\ nth_error ex k = Some (Window [])).
  { intros k Hlt.
    destruct (nth_error fs k) as [f |] eqn:Ef;
      [ | apply nth_error_None in Ef; lia ].
    destruct (nth_error ys k) as [y |] eqn:Ey;
      [ | apply nth_error_None in Ey; lia ].
    destruct (nth_error xs k) as [x |] eqn:Ex;
      [ | apply nth_error_None in Ex; lia ].
    assert (Hz : nth_error (combine ys xs) k = Some (y, x)).
    { clear - Ey Ex. revert xs k Ey Ex.
      induction ys as [| y0 ys' IH]; intros [| x0 xs'] [| k] Ey Ex;
        simpl in *; try discriminate; try congruence.
      apply IH; assumption. }
    destruct (Hin k y x f Hz Ef) as (Hf & Hy & Hx).
    simpl in Hf, Hy, Hx.
    rewrite !window_positions_negative_radius in Hf, Hy, Hx by exact HR.
    auto. }
  assert (Hall : forall (l : list entry) (src : list Z),
             length l = length fs -> length src = length fs ->
             (forall k, (k < length fs)%nat ->
                        nth_error l k = Some (Window [])) ->
             l = map (fun _ => Window []) src).
  { intros l src Hl Hsrc Hnth. apply nth_error_ext. intros k.
    rewrite nth_error_map.
    destruct (Nat.lt_ge_cases k (length fs)) as [Hlt | Hge].
    - rewrite (Hnth k Hlt).
      destruct (nth_error src k) eqn:E;
        [ reflexivity | apply nth_error_None in E; lia ].
    - rewrite (proj2 (nth_error_None l k)) by lia.
      rewrite (proj2 (nth_error_None src k)) by lia. reflexivity. }
  rewrite (Hall ef fs), (Hall ey ys), (Hall ex xs);
    try reflexivity; try lia; intros k Hlt; apply (Hk k Hlt).
Qed.

Lemma get_extended_traces_negative_radius_witness :
  -1 < 0
  /\ length [3; 4] = length [0; 1]
  /\ length [5; 6] = length [0; 1]
  /\ _get_extended_traces (-1) [0; 1] [5; 6] [3; 4] 8 8
     = Ok (map (fun _ => Window []) [0; 1],
           map (fun _ => Window []) [3; 4],
           map (fun _ => Window []) [5; 6]).
Proof.
  split; [ lia | ]. split; [ reflexivity | ]. split; [ reflexivity | ].
  apply (get_extended_traces_negative_radius (-1) [0; 1] [5; 6] [3; 4] 8 8);
    [ lia | reflexivity | reflexivity ].
Defined.

(* ================================================================== *)
(** * Further properties: construction of [Overlap], [ResizeOverlap]   *)
(* ================================================================== *)

Section InitFacts.

Variable object : Type.

Lemma bind_keywords_unknown (sig : Call.signature)
  (kwargs : Call.arguments object) (name : string) (v : object) :
  In (name, v) kwargs ->
  existsb (fun p => String.eqb (fst p) name) sig = false ->
  forall bound, Call.bind_keywords sig kwargs bound = Raise TypeError.
Proof.
  intros Hin Hsig.
  induction kwargs as [| [n w] kwargs IH]; intros bound;
    [ destruct Hin | ].
  cbn [Call.bind_keywords].
  destruct (negb (existsb (fun p => String.eqb (fst p) n) sig)) eqn:En;
    [ reflexivity | ].
  destruct (Call.lookup n bound); [ reflexivity | ].
  destruct Hin as [E | Hin].
  - injection E as -> ->. rewrite Hsig in En. discriminate.
  - apply IH. exact Hin.
Qed.

(** X17. [Overlap.__init__] has no starred parameter: a call that
    passes a keyword which is not one of its four parameters raises
    [TypeError], whatever the other arguments are. *)
Theorem Overlap_init_unknown_keyword :
  forall (args : list object) (kwargs : Call.arguments object)
         (name : string) (v : object),
    In (name, v) kwargs ->
    ~ In name (map fst Call.Overlap_init_signature) ->
    Call.Overlap_init args kwargs = Raise TypeError.
Proof.
  intros args kwargs name v Hin Hname.
  assert (Hsig : existsb (fun p : string * bool => String.eqb (fst p) name)
                   Call.Overlap_init_signature = false).
  { destruct (existsb _ Call.Overlap_init_signature) eqn:E;
      [ | reflexivity ].
    apply existsb_exists in E. destruct E as (p & Hp & Ep).
    apply String.eqb_eq in Ep. exfalso. apply Hname.
    rewrite <- Ep. apply in_map. exact Hp. }
  unfold Call.Overlap_init, Call.bind_arguments.
  destruct (Call.bind_positional Call.Overlap_init_signature args)
    as [bound | e] eqn:Epos.
  - cbn [bind].
    rewrite (bind_keywords_unknown _ _ _ _ Hin Hsig). reflexivity.
  - cbn [bind]. f_equal. eapply bind_positional_TypeError. exact Epos.
Qed.

(** X18. [ResizeOverlap.__init__] forwards to the initializer of
    [Overlap] exactly the four keywords that initializer accepts: the
    construction succeeds whenever its own arguments bind, and stores the
    five values (argument or default). *)
Theorem ResizeOverlap_init_succeeds :
  forall (default_verbose default_interpolate_mode : object)
         (args : list object) (kwargs bound : Call.arguments object),
    Call.bind_arguments ResizeOverlap_init_signature args kwargs = Ok bound ->
    ResizeOverlap_init default_verbose default_interpolate_mode args kwargs
    = Ok [("_verbose",
            Some (Call.value_of default_verbose "verbose" bound));
          ("algorithm",
            Some (Call.value_of default_verbose "algorithm" bound));
          ("alpha_scheduler",
            Some (Call.value_of default_verbose "alpha_scheduler" bound));
          ("kernel_radius_scheduler",
            Some (Call.value_of default_verbose "kernel_radius_scheduler"
                    bound));
          ("_interpolate_mode",
            Some (Call.value_of default_interpolate_mode "interpolate_mode"
                    bound))]%string.
Proof.
  intros dv dm args kwargs bound H. unfold ResizeOverlap_init.
  rewrite H. reflexivity.
Qed.

End InitFacts.

Lemma Overlap_init_unknown_keyword_witness :
  In ("corr_map_decay_scheduler"%string, 2)
     [("alpha_scheduler"%string, 1); ("corr_map_decay_scheduler"%string, 2)]
  /\ ~ In "corr_map_decay_scheduler"%string
          (map fst Call.Overlap_init_signature)
  /\ Call.Overlap_init [7; 8]
       [("alpha_scheduler"%string, 1); ("corr_map_decay_scheduler"%string, 2)]
     = Raise TypeError.
Proof.
  assert (Hin : In ("corr_map_decay_scheduler"%string, 2)
                  [("alpha_scheduler"%string, 1);
                   ("corr_map_decay_scheduler"%string, 2)])
    by (right; left; reflexivity).
  assert (Hname : ~ In "corr_map_decay_scheduler"%string
                      (map fst Call.Overlap_init_signature)).
  { cbn. intros [H | [H | [H | [H | []]]]]; discriminate H. }
  split; [ exact Hin | ]. split; [ exact Hname | ].
  exact (Overlap_init_unknown_keyword Z [7; 8] _ _ _ Hin Hname).
Defined.

Lemma ResizeOverlap_init_succeeds_witness :
  exists bound,
    Call.bind_arguments ResizeOverlap_init_signature [1; 2]
      [("algorithm"%string, 3); ("interpolate_mode"%string, 4)] = Ok bound
    /\ ResizeOverlap_init 0 9 [1; 2]
         [("algorithm"%string, 3); ("interpolate_mode"%string, 4)]
       = Ok [("_verbose"%string, Some 0); ("algorithm"%string, Some 3);
             ("alpha_scheduler"%string, Some 1);
             ("kernel_radius_scheduler"%string, Some 2);
             ("_interpolate_mode"%string, Some 4)].
Proof.
  eexists. split; [ reflexivity | ].
  exact (ResizeOverlap_init_succeeds Z 0 9 [1; 2]
           [("algorithm"%string, 3); ("interpolate_mode"%string, 4)] _
           eq_refl).
Defined.

(* ================================================================== *)
(** * Further properties: the overlap rate                             *)
(* ================================================================== *)

Section OverlapRate.

Open Scope Q_scope.

Variable threshold : Q.

Lemma equals_threshold_iff (v : Q) :
  equals_threshold threshold v = true <-> v == threshold.
Proof.
  unfold equals_threshold. rewrite Qle_bool_iff, Qabs_Qle_condition.
  split; intros H.
  - destruct H as (H1 & H2). lra.
  - split; lra.
Qed.

Lemma differs_from_threshold_negb (v : Q) :
  differs_from_threshold threshold v = negb (equals_threshold threshold v).
Proof.
  unfold differs_from_threshold, equals_threshold, Qpos_bool, Qle_bool.
  destruct (Qabs (v - threshold)) as [n d]. cbn [Qnum Qden].
  rewrite Z.mul_1_r. cbn [Z.mul].
  destruct (0 <? n)%Z eqn:E1; destruct (n <=? 0)%Z eqn:E2; try reflexivity;
    [ apply Z.ltb_lt in E1; apply Z.leb_le in E2; lia
    | apply Z.ltb_ge in E1; apply Z.leb_gt in E2; lia ].
Qed.

Lemma sum_counts_elements (cond : Q -> bool) (ovlp_seq : list Frame) :
  fold_right Z.add 0%Z (map (count_where cond) ovlp_seq)
  = Z.of_nat (length (filter cond (all_elements ovlp_seq))).
Proof.
  unfold all_elements.
  induction ovlp_seq as [| fr rest IH]; [ reflexivity | ].
  cbn [map fold_right flat_map]. rewrite IH. unfold count_where.
  rewrite filter_app, length_app. lia.
Qed.

Lemma filter_nil_iff {A : Type} (f : A -> bool) (l : list A) :
  filter f l = [] <-> Forall (fun a => f a = false) l.
Proof.
  induction l as [| a l IH]; cbn.
  - split; [ constructor | reflexivity ].
  - destruct (f a) eqn:E; split; intros H.
    + discriminate.
    + inversion H; congruence.
    + constructor; [ exact E | apply IH; exact H ].
    + inversion H; subst. apply IH. assumption.
Qed.

(** X19. For frames that hold at least one element, the overlap rate is
    returned and is the share of the elements that differ from the
    threshold: it lies in [0, 1], is 0 exactly when every element equals
    the threshold and is 1 exactly when none does. *)
Theorem overlap_rate_is_share_of_nonzeros :
  forall (ovlp_seq : list Frame),
    all_elements ovlp_seq <> [] ->
    exists rate,
      Overlap_calculate_overlap_rate ovlp_seq threshold = Ok rate
      /\ 0 <= rate <= 1
      /\ (rate == 0 <->
          Forall (fun v => v == threshold) (all_elements ovlp_seq))
      /\ (rate == 1 <->
          Forall (fun v => ~ v == threshold) (all_elements ovlp_seq)).
Proof.
  intros ovlp_seq Hne.
  unfold Overlap_calculate_overlap_rate, calculate_overlap_rate, sum_counts.
  destruct ovlp_seq as [| fr rest]; [ now contradiction Hne | ].
  cbn [bind]. rewrite !sum_counts_elements.
  change (fun v => Qle_bool (Qabs (v - threshold)) 0)
    with (equals_threshold threshold).
  change (fun v => Qpos_bool (Qabs (v - threshold)))
    with (differs_from_threshold threshold).
  set (E := all_elements (fr :: rest)) in *.
  set (nz := length (filter (differs_from_threshold threshold) E)).
  set (z := length (filter (equals_threshold threshold) E)).
  assert (Hsum : (nz + z = length E)%nat).
  { unfold nz, z.
    rewrite (filter_ext (differs_from_threshold threshold)
               (fun v => negb (equals_threshold threshold v)))
      by exact differs_from_threshold_negb.
    rewrite Nat.add_comm. apply filter_length. }
  assert (Hpos : (0 < length E)%nat).
  { destruct E; [ contradiction | simpl; lia ]. }
  eexists. split; [ reflexivity | ].
  assert (Hn : 0 < inject_Z (Z.of_nat nz + Z.of_nat z)).
  { change 0 with (inject_Z 0). rewrite <- Zlt_Qlt. lia. }
  assert (Hmul : inject_Z (Z.of_nat nz)
                 / inject_Z (Z.of_nat nz + Z.of_nat z)
                 * inject_Z (Z.of_nat nz + Z.of_nat z)
                 == inject_Z (Z.of_nat nz)).
  { rewrite Qmult_comm. apply Qmult_div_r. lra. }
  set (rate := inject_Z (Z.of_nat nz)
               / inject_Z (Z.of_nat nz + Z.of_nat z)) in *.
  assert (Hnz0 : 0 <= inject_Z (Z.of_nat nz)).
  { change 0 with (inject_Z 0). rewrite <- Zle_Qle. lia. }
  assert (Hnzn : inject_Z (Z.of_nat nz)
                 <= inject_Z (Z.of_nat nz + Z.of_nat z)).
  { rewrite <- Zle_Qle. lia. }
  split; [ split | split ].
  - apply Qle_shift_div_l; [ exact Hn | lra ].
  - apply Qle_shift_div_r; [ exact Hn | lra ].
  - split.
    + intros H0.
      assert (E0 : inject_Z (Z.of_nat nz) == 0)
        by (rewrite <- Hmul, H0; ring).
      change 0 with (inject_Z 0) in E0. apply (proj1 (inject_Z_injective _ _)) in E0.
      assert (Hnil : filter (differs_from_threshold threshold) E = [])
        by (apply length_zero_iff_nil; unfold nz in E0; lia).
      apply filter_nil_iff in Hnil.
      eapply Forall_impl; [ | exact Hnil ].
      intros v Hv. cbv beta in Hv. apply equals_threshold_iff.
      rewrite differs_from_threshold_negb in Hv.
      destruct (equals_threshold threshold v); [ reflexivity | discriminate ].
    + intros Hall.
      assert (Hnil : filter (differs_from_threshold threshold) E = []).
      { apply filter_nil_iff. eapply Forall_impl; [ | exact Hall ].
        intros v Hv. cbv beta in Hv. rewrite differs_from_threshold_negb.
        apply equals_threshold_iff in Hv. now rewrite Hv. }
      unfold rate, nz. rewrite Hnil. cbn [length Z.of_nat].
      unfold Qdiv. ring.
  - split.
    + intros H1.
      assert (E1 : inject_Z (Z.of_nat nz)
                   == inject_Z (Z.of_nat nz + Z.of_nat z))
        by (rewrite <- Hmul at 1; rewrite H1; ring).
      apply (proj1 (inject_Z_injective _ _)) in E1.
      assert (Hnil : filter (equals_threshold threshold) E = [])
        by (apply length_zero_iff_nil; unfold z in E1; lia).
      apply filter_nil_iff in Hnil.
      eapply Forall_impl; [ | exact Hnil ].
      intros v Hv Heq. cbv beta in Hv. apply equals_threshold_iff in Heq.
      congruence.
    + intros Hall.
      assert (Hnil : filter (equals_threshold threshold) E = []).
      { apply filter_nil_iff. eapply Forall_impl; [ | exact Hall ].
        intros v Hv. cbv beta in Hv.
        destruct (equals_threshold threshold v) eqn:Ez; [ | reflexivity ].
        apply equals_threshold_iff in Ez. contradiction. }
      assert (Hz0 : z = 0%nat) by (unfold z; now rewrite Hnil).
      unfold rate. rewrite Hz0. cbn [Z.of_nat]. rewrite Z.add_0_r.
      apply Qmult_inv_r.
      rewrite Hz0 in Hn. cbn [Z.of_nat] in Hn. rewrite Z.add_0_r in Hn.
      lra.
Qed.

End OverlapRate.

Lemma overlap_rate_is_share_of_nonzeros_witness :
  all_elements scenario_frames <> []
  /\ exists rate,
       Overlap_calculate_overlap_rate scenario_frames 0 = Ok rate
       /\ (0 <= rate <= 1)%Q
       /\ ((rate == 0)%Q <->
           Forall (fun v => (v == 0)%Q) (all_elements scenario_frames))
       /\ ((rate == 1)%Q <->
           Forall (fun v => ~ (v == 0)%Q) (all_elements scenario_frames)).
Proof.
  assert (Hne : all_elements scenario_frames <> [])
    by (vm_compute; discriminate).
  split; [ exact Hne | ].
  exact (overlap_rate_is_share_of_nonzeros 0 scenario_frames Hne).
Defined.

(* ================================================================== *)
(** * Further properties: the resize adapter returns every frame       *)
(* ================================================================== *)

(** X20. Whenever [ResizeOverlap.__call__] returns, it returns as many
    frames as it was given, whatever the resize function and the
    consensus algorithm do. *)
Theorem resize_overlap_keeps_length :
  forall (algorithm :
            list Block -> list Z -> list Z -> list Z -> result (list Block))
         (is_engine_looping : bool)
         (alpha_scheduler kernel_radius_scheduler : option Z -> option Q -> Q)
         (F_interpolate : Frame -> Z * Z -> string -> option bool -> result Frame)
         (interpolate_mode : string)
         (frame_seq : list Frame) (corr_map : CorrespondenceMap)
         (step : option Z) (timestep : option Q) (merged : list Frame),
    ResizeOverlap_call algorithm is_engine_looping alpha_scheduler
      kernel_radius_scheduler F_interpolate interpolate_mode frame_seq
      corr_map step timestep = Ok merged ->
    length merged = length frame_seq.
Proof.
  intros algorithm looping alpha_s radius_s F mode frame_seq corr_map step
    timestep merged H.
  unfold ResizeOverlap_call in H.
  destruct frame_seq as [| fr0 rest]; [ discriminate | ].
  destruct (Qeq_bool (alpha_s step timestep) 0).
  - injection H as <-. reflexivity.
  - unfold size in H. destruct (frame_shape fr0) as [[[b0 c0] h] w].
    apply bind_Ok_inv in H. destruct H as (up & _ & H).
    apply bind_Ok_inv in H. destruct H as (ovlp & _ & H).
    apply bind_Ok_inv in H. destruct H as (back & _ & H).
    destruct (h =? 0); [ discriminate | ].
    unfold merge_with_original in H. apply for_each_length in H.
    rewrite H, length_range. lia.
Qed.

Lemma resize_overlap_keeps_length_witness :
  exists merged,
    ResizeOverlap_call mean_algorithm true (fun _ _ => 1%Q)
      (fun _ _ => 0%Q) nearest_interpolate "nearest" scenario_frames
      scenario_map None None = Ok merged
    /\ length merged = length scenario_frames.
Proof.
  eexists. split; [ reflexivity | ].
  exact (resize_overlap_keeps_length mean_algorithm true
           (fun _ _ => 1%Q) (fun _ _ => 0%Q) nearest_interpolate "nearest"
           scenario_frames scenario_map None None _ eq_refl).
Defined.

Lemma kernel_writes_only_value_slots_witness :
  shape3 (taichi_cells_overlap (same_identity 4) two_cells zero_placeholder
            (unit_contributions 4))
  = shape3 zero_placeholder
  /\ ~ ((0 <= 0 < shape3_0 two_cells)%Z
        /\ (0 <= 7 < shape3_1 two_cells)%Z
        /\ (0 <= 0 < shape3_last two_cells)%Z)
  /\ at3 (taichi_cells_overlap (same_identity 4) two_cells zero_placeholder
            (unit_contributions 4)) 0 7 0
     = at3 zero_placeholder 0 7 0.
Proof.
  assert (Hout : ~ ((0 <= 0 < shape3_0 two_cells)%Z
                    /\ (0 <= 7 < shape3_1 two_cells)%Z
                    /\ (0 <= 0 < shape3_last two_cells)%Z)).
  { intros (_ & (_ & H) & _). vm_compute in H. discriminate H. }
  destruct (kernel_writes_only_value_slots (same_identity 4) two_cells
              zero_placeholder (unit_contributions 4) 0 7 0) as (Hs & Hv).
  split; [ exact Hs | ]. split; [ exact Hout | ]. exact (Hv Hout).
Defined.
